(** * Dragonfly2 client daemon: storage manager, GC and file peer task

    A shallow embedding of [client/daemon/storage/storage_manager.go]
    (the [storageManager]: task registration, the completed-task index,
    reload from disk, [TryGC] and [forceGC]) and of
    [client/daemon/peer/peertask_file.go] (the file peer task's progress
    loop), with the properties the specification states about them.

    Conventions.
    - Go pointers [*localTaskStore] are locations ([loc]) into a heap, so
      that the task map and the task index alias the same store objects.
    - [sync.Map] is an association list: the order of the list stands for
      the order in which [Range] visits the entries, which Go leaves open;
      every theorem holds for every order.
    - [time.Now()] is the argument [now] (nanoseconds) of each operation.
    - The Go [os] package, [disk.Usage] and [json.Unmarshal] are the class
      [Env]; the methods of [localTaskStore] that live outside the files
      under study are either modelled from the specification (and say so)
      or left abstract in the class [StoreImpl]. *)

From stdpp Require Import base option list gmap strings sorting.
From Stdlib Require Import Ascii QArith.
Open Scope Z_scope.

(** ** Go's [path] package (the parts the manager uses) *)

Module path.

(** Splits at every slash; [cur] collects the current element, reversed. *)
Fixpoint elements (cur : list ascii) (s : list ascii) : list string :=
  match s with
  | [] => [String.string_of_list_ascii (rev cur)]
  | c :: s' =>
      if Ascii.eqb c "/"%char
      then String.string_of_list_ascii (rev cur) :: elements [] s'
      else elements (c :: cur) s'
  end.

(** One step of [Clean]: [stack] holds the kept elements, last first. *)
Definition clean_step (rooted : bool) (stack : list string) (e : string)
  : list string :=
  if decide (e = "" ∨ e = ".") then stack
  else if decide (e = "..") then
    match stack with
    | top :: rest =>
        if decide (top = "..") then e :: stack else rest
    | [] => if rooted then [] else [e]
    end
  else e :: stack.

Fixpoint join_slash (es : list string) : string :=
  match es with
  | [] => ""
  | [e] => e
  | e :: es' => e +:+ "/" +:+ join_slash es'
  end.

Definition is_rooted (p : string) : bool :=
  match p with
  | String c _ => Ascii.eqb c "/"%char
  | EmptyString => false
  end.

(** [path.Clean]: the shortest equivalent path. *)
Definition Clean (p : string) : string :=
  let rooted := is_rooted p in
  let kept := rev (foldl (clean_step rooted) [] (elements [] (String.list_ascii_of_string p))) in
  let body := join_slash kept in
  if rooted then "/" +:+ body
  else if decide (body = "") then "." else body.

(** [path.Join]: empty elements are ignored, the result is cleaned; the
    join of nothing but empty elements is the empty string. *)
Definition Join (elem : list string) : string :=
  let es := filter (λ e, e ≠ "") elem in
  match es with
  | [] => ""
  | _ => Clean (join_slash es)
  end.

(** Position just after the last slash, scanning [s] with [i] chars seen. *)
Fixpoint after_last_slash (s : list ascii) (i : nat) (acc : nat) : nat :=
  match s with
  | [] => acc
  | c :: s' =>
      after_last_slash s' (S i) (if Ascii.eqb c "/"%char then S i else acc)
  end.

(** [path.Split]: [dir] keeps its final slash, [file] has none. *)
Definition Split (p : string) : string * string :=
  let cs := String.list_ascii_of_string p in
  let i := after_last_slash cs 0 0 in
  (String.string_of_list_ascii (take i cs), String.string_of_list_ascii (drop i cs)).

(** [path.Dir]: all but the last element, cleaned. *)
Definition Dir (p : string) : string := Clean (fst (Split p)).

End path.

(** ** Errors *)

Inductive errno := ENOENT | EEXIST | ENOTDIR | EISDIR | ENOTEMPTY | EINVAL | EIO.

(** Go [error] values: the package's sentinel [ErrTaskNotFound], errors of
    the [os] package (operation, path, errno), decoder errors, the error
    [ReloadPersistentTask] builds with [fmt.Errorf], and [errors.New]. *)
Inductive error :=
| ErrTaskNotFound
| ErrOS (op : string) (p : string) (e : errno)
| ErrJSON (msg : string)
| ErrLoadTasks (msgs : string)
| ErrNew (msg : string).

Inductive result (A : Type) :=
| Ok (a : A)
| Err (e : error).
Arguments Ok {A} a.
Arguments Err {A} e.

Definition errno_msg (e : errno) : string :=
  match e with
  | ENOENT => "no such file or directory"
  | EEXIST => "file exists"
  | ENOTDIR => "not a directory"
  | EISDIR => "is a directory"
  | ENOTEMPTY => "directory not empty"
  | EINVAL => "invalid argument"
  | EIO => "input/output error"
  end.

(** [err.Error()] *)
Definition Error (e : error) : string :=
  match e with
  | ErrTaskNotFound => "task not found"
  | ErrOS op p e => op +:+ " " +:+ p +:+ ": " +:+ errno_msg e
  | ErrJSON msg => msg
  | ErrLoadTasks msgs => "load tasks from disk error: " +:+ msgs
  | ErrNew msg => msg
  end.

Definition os_IsNotExist (e : option error) : bool :=
  match e with
  | Some (ErrOS _ _ ENOENT) => true
  | _ => false
  end.

Definition os_IsExist (e : error) : bool :=
  match e with
  | ErrOS _ _ EEXIST | ErrOS _ _ ENOTEMPTY => true
  | _ => false
  end.

(** ** Data model of package [storage] *)

(** A [*localTaskStore]. *)
Abbreviation loc := nat (only parsing).

Record PeerTaskMetadata := {
  meta_PeerID : string;
  meta_TaskID : string;
}.

#[export] Instance PeerTaskMetadata_eq_dec : EqDecision PeerTaskMetadata.
Proof. solve_decision. Defined.

Record CommonTaskRequest := {
  req_PeerID : string;
  req_TaskID : string;
  req_Destination : string;
}.

Record RegisterTaskRequest := {
  reg_common : CommonTaskRequest;
  reg_ContentLength : Z;
  reg_TotalPieces : Z;
  reg_PieceMd5Sign : string;
}.

Record ReusePeerTask := {
  reuse_meta : PeerTaskMetadata;
  reuse_ContentLength : Z;
  reuse_TotalPieces : Z;
}.

(** [config.StoreStrategy]: a string type with two named constants; the
    [switch] of [NewStorageManager] lists both and the empty string as
    distinct cases. Any other string is [OtherStoreStrategy]. *)
Inductive StoreStrategy :=
| SimpleLocalTaskStoreStrategy
| AdvanceLocalTaskStoreStrategy
| OtherStoreStrategy (s : string).

#[export] Instance StoreStrategy_eq_dec : EqDecision StoreStrategy.
Proof. solve_decision. Defined.

(** Modelled from the spec: the type [PieceMetadata] is declared outside
    the files under study; section 3 lists a piece's attributes. *)
Record PieceMetadata := {
  piece_Num : Z;
  piece_Md5 : string;
  piece_Offset : Z;
  piece_Length : Z;
  piece_Style : Z;
}.

(** The embedded [persistentMetadata] of a store, with the fields
    [CreateTask] initialises and [FindCompletedTask] and [TryGC] read. *)
Record persistentMetadata := {
  pm_StoreStrategy : StoreStrategy;
  pm_TaskID : string;
  pm_TaskMeta : gmap string string;
  pm_ContentLength : Z;
  pm_TotalPieces : Z;
  pm_PeerID : string;
  pm_Pieces : gmap Z PieceMetadata;
  pm_PieceMd5Sign : string;
  pm_DataFilePath : string;
  pm_Done : bool;
}.

(** The zero value of the struct. *)
Definition persistentMetadata_zero : persistentMetadata :=
  {| pm_StoreStrategy := OtherStoreStrategy ""; pm_TaskID := ""; pm_TaskMeta := ∅;
     pm_ContentLength := 0; pm_TotalPieces := 0; pm_PeerID := ""; pm_Pieces := ∅;
     pm_PieceMd5Sign := ""; pm_DataFilePath := ""; pm_Done := false |}.

(** [localTaskStore]: the fields the manager sets or reads. The callback
    [gcCallback] is a function of the embedding daemon and is not modelled;
    [metadataFile] is the path of the open handle. *)
Record localTaskStore := {
  persistent : persistentMetadata;
  lastAccess : Z;
  reclaimMarked : bool;
  invalid : bool;
  dataDir : string;
  metadataFilePath : string;
  metadataFile : option string;
  expireTime : Z;
}.

Definition TaskID (t : localTaskStore) : string := pm_TaskID (persistent t).
Definition PeerID (t : localTaskStore) : string := pm_PeerID (persistent t).
Definition ContentLength (t : localTaskStore) : Z := pm_ContentLength (persistent t).
Definition TotalPieces (t : localTaskStore) : Z := pm_TotalPieces (persistent t).
Definition Done (t : localTaskStore) : bool := pm_Done (persistent t).
Definition DataFilePath (t : localTaskStore) : string := pm_DataFilePath (persistent t).
Definition StoreStrategyOf (t : localTaskStore) : StoreStrategy := pm_StoreStrategy (persistent t).

Definition set_persistent (f : persistentMetadata → persistentMetadata) (t : localTaskStore) : localTaskStore :=
  {| persistent := f (persistent t); lastAccess := lastAccess t;
     reclaimMarked := reclaimMarked t; invalid := invalid t; dataDir := dataDir t;
     metadataFilePath := metadataFilePath t; metadataFile := metadataFile t;
     expireTime := expireTime t |}.

Definition set_StoreStrategy (v : StoreStrategy) (m : persistentMetadata) : persistentMetadata :=
  {| pm_StoreStrategy := v; pm_TaskID := pm_TaskID m; pm_TaskMeta := pm_TaskMeta m;
     pm_ContentLength := pm_ContentLength m; pm_TotalPieces := pm_TotalPieces m;
     pm_PeerID := pm_PeerID m; pm_Pieces := pm_Pieces m;
     pm_PieceMd5Sign := pm_PieceMd5Sign m; pm_DataFilePath := pm_DataFilePath m;
     pm_Done := pm_Done m |}.

Definition set_DataFilePath (v : string) (m : persistentMetadata) : persistentMetadata :=
  {| pm_StoreStrategy := pm_StoreStrategy m; pm_TaskID := pm_TaskID m; pm_TaskMeta := pm_TaskMeta m;
     pm_ContentLength := pm_ContentLength m; pm_TotalPieces := pm_TotalPieces m;
     pm_PeerID := pm_PeerID m; pm_Pieces := pm_Pieces m;
     pm_PieceMd5Sign := pm_PieceMd5Sign m; pm_DataFilePath := v;
     pm_Done := pm_Done m |}.

Definition set_lastAccess (v : Z) (t : localTaskStore) : localTaskStore :=
  {| persistent := persistent t; lastAccess := v;
     reclaimMarked := reclaimMarked t; invalid := invalid t; dataDir := dataDir t;
     metadataFilePath := metadataFilePath t; metadataFile := metadataFile t;
     expireTime := expireTime t |}.

Definition set_reclaimMarked (v : bool) (t : localTaskStore) : localTaskStore :=
  {| persistent := persistent t; lastAccess := lastAccess t;
     reclaimMarked := v; invalid := invalid t; dataDir := dataDir t;
     metadataFilePath := metadataFilePath t; metadataFile := metadataFile t;
     expireTime := expireTime t |}.

Definition set_metadataFile (v : option string) (t : localTaskStore) : localTaskStore :=
  {| persistent := persistent t; lastAccess := lastAccess t;
     reclaimMarked := reclaimMarked t; invalid := invalid t; dataDir := dataDir t;
     metadataFilePath := metadataFilePath t; metadataFile := v;
     expireTime := expireTime t |}.

(** Modelled from the spec: [localTaskStore.touch] is declared outside the
    files under study; the spec has it "touch its last-access time", the
    time being [time.Now().UnixNano()]. *)
Definition touch (now : Z) (t : localTaskStore) : localTaskStore :=
  set_lastAccess now t.

(** Modelled from the spec: [localTaskStore.CanReclaim] is declared outside
    the files under study; section 4.6 step 1 reclaims a store "whose
    last-access exceeds TaskExpireTime" ([expireTime] holds the manager's
    [TaskExpireTime], see [CreateTask]). *)
Definition CanReclaim (now : Z) (t : localTaskStore) : bool :=
  bool_decide (expireTime t < now - lastAccess t).

(** Modelled from the spec: [localTaskStore.MarkReclaim] is declared
    outside the files under study; the interface [Reclaimer] documents it
    as "marks the storage which will be reclaimed", and the manager reads
    the mark back as [reclaimMarked]. *)
Definition MarkReclaim (t : localTaskStore) : localTaskStore :=
  set_reclaimMarked true t.

(** Modelled from the spec: the file names inside a store directory are
    constants declared outside the files under study; section 6 gives the
    layout [<dataRoot>/<TaskID>/<PeerID>/metadata] and [.../data]. *)
Definition taskData : string := "data".
Definition taskMetadata : string := "metadata".

(** [int32(x)]: conversion with wrap-around. *)
Definition int32 (x : Z) : Z := (x + 2^31) mod 2^32 - 2^31.

(** [int64] arithmetic wraps around. *)
Definition int64 (x : Z) : Z := (x + 2^63) mod 2^64 - 2^63.

Record StorageOption := {
  DataPath : string;
  TaskExpireTime : Z;
  DiskGCThreshold : Z;
  DiskGCThresholdPercent : Q;
}.

(** [disk.UsageStat]: the two fields [diskUsageExceed] reads. The
    [float64] field is an exact rational here: rounding is not modelled. *)
Record UsageStat := {
  usage_Total : Z;
  usage_UsedPercent : Q;
}.

(** [fs.FileInfo]: the symlink bit of the mode, the directory bit, and the
    device of the [syscall.Stat_t] behind [Sys()]. *)
Record FileInfo := {
  fi_symlink : bool;
  fi_dir : bool;
  fi_Dev : Z;
}.

(** The manager. [keepAlive] is the time of the last [Keep()] of the
    embedded [clientutil.KeepAlive]. *)
Record storageManager := {
  storeStrategy : StoreStrategy;
  storeOption : StorageOption;
  tasks : list (PeerTaskMetadata * loc);
  markedReclaimTasks : list PeerTaskMetadata;
  dataPathStat_Dev : Z;
  gcInterval : Z;
  indexTask2PeerTask : gmap string (list loc);
  keepAlive : Z;
}.

Definition set_tasks (v : list (PeerTaskMetadata * loc)) (s : storageManager) : storageManager :=
  {| storeStrategy := storeStrategy s; storeOption := storeOption s; tasks := v;
     markedReclaimTasks := markedReclaimTasks s; dataPathStat_Dev := dataPathStat_Dev s;
     gcInterval := gcInterval s; indexTask2PeerTask := indexTask2PeerTask s;
     keepAlive := keepAlive s |}.

Definition set_markedReclaimTasks (v : list PeerTaskMetadata) (s : storageManager) : storageManager :=
  {| storeStrategy := storeStrategy s; storeOption := storeOption s; tasks := tasks s;
     markedReclaimTasks := v; dataPathStat_Dev := dataPathStat_Dev s;
     gcInterval := gcInterval s; indexTask2PeerTask := indexTask2PeerTask s;
     keepAlive := keepAlive s |}.

Definition set_index (v : gmap string (list loc)) (s : storageManager) : storageManager :=
  {| storeStrategy := storeStrategy s; storeOption := storeOption s; tasks := tasks s;
     markedReclaimTasks := markedReclaimTasks s; dataPathStat_Dev := dataPathStat_Dev s;
     gcInterval := gcInterval s; indexTask2PeerTask := v;
     keepAlive := keepAlive s |}.

Definition set_keepAlive (v : Z) (s : storageManager) : storageManager :=
  {| storeStrategy := storeStrategy s; storeOption := storeOption s; tasks := tasks s;
     markedReclaimTasks := markedReclaimTasks s; dataPathStat_Dev := dataPathStat_Dev s;
     gcInterval := gcInterval s; indexTask2PeerTask := indexTask2PeerTask s;
     keepAlive := v |}.

(** ** The environment: file system, disk statistics, decoder *)

Inductive oscall :=
| CMkdirAll (p : string)
| COpenFile (p : string)
| COpen (p : string)
| CReadAll (p : string)
| CStat (p : string)
| CLstat (p : string)
| CLink (oldname newname : string)
| CSymlink (oldname newname : string)
| CReadDir (p : string)
| CReadlink (p : string)
| CRemove (p : string)
| CDiskUsage (p : string).

(** What an operation of the manager does, in order: calls into the
    environment, updates of the task map and of the task index, and calls
    of a store's [Reclaim]. *)
Inductive event :=
| EvOS (c : oscall)
| EvStore (k : PeerTaskMetadata) (p : loc)
| EvDelete (k : PeerTaskMetadata)
| EvIndexAppend (taskID : string) (p : loc)
| EvCleanIndex (taskID peerID : string)
| EvReclaim (p : loc).

#[export] Instance oscall_eq_dec : EqDecision oscall.
Proof. solve_decision. Defined.

#[export] Instance event_eq_dec : EqDecision event.
Proof. solve_decision. Defined.

(** The functions of [os], [io], [disk] and [encoding/json] the manager
    calls, on a file-system state [FS]. [os_OpenFile] is the call with
    [O_CREATE|O_RDWR]; [os_ReadDir] yields the entry names. *)
Class Env (FS : Type) := {
  os_MkdirAll : string → FS → FS * option error;
  os_OpenFile : string → FS → FS * option error;
  os_Open : string → FS → option error;
  io_ReadAll : string → FS → result string;
  os_Stat : string → FS → result FileInfo;
  os_Lstat : string → FS → result FileInfo;
  os_Link : string → string → FS → FS * option error;
  os_Symlink : string → string → FS → FS * option error;
  os_ReadDir : string → FS → result (list string);
  os_Readlink : string → FS → result string;
  os_Remove : string → FS → FS * option error;
  disk_Usage : string → FS → result UsageStat;
  json_Unmarshal : string → persistentMetadata → result persistentMetadata;
}.

(** Requests of the [TaskStorageDriver] methods: the key fields the
    manager reads, and the payload the spec's operation table names. *)
Record WritePieceRequest := {
  wp_meta : PeerTaskMetadata;
  wp_Num : Z;
  wp_Offset : Z;
  wp_Length : Z;
  wp_Reader : string;
}.

Record ReadPieceRequest := {
  rp_meta : PeerTaskMetadata;
  rp_Num : Z;
}.

Record ReadAllPiecesRequest := {
  ra_meta : PeerTaskMetadata;
}.

Record StoreRequest := {
  sr_common : CommonTaskRequest;
  sr_MetadataOnly : bool;
  sr_TotalPieces : Z;
}.

Record UpdateTaskRequest := {
  ut_meta : PeerTaskMetadata;
  ut_ContentLength : Z;
  ut_TotalPieces : Z;
}.

Record PieceTaskRequest := {
  pt_TaskId : string;
  pt_SrcPid : string;
  pt_DstPid : string;
  pt_StartNum : Z;
  pt_Limit : Z;
}.

(** The methods of [localTaskStore] the manager delegates to and that are
    declared outside the files under study: [Reclaim] of the interface
    [Reclaimer] and the [TaskStorageDriver] of a single store. They act on
    the store and on the file system, at time [now]. *)
Class StoreImpl (FS : Type) := {
  Reader : Type;
  Closer : Type;
  ReadCloser : Type;
  PiecePacket : Type;
  Reclaim : localTaskStore → FS → FS * option error;
  store_WritePiece : WritePieceRequest → Z → localTaskStore → FS → (Z * option error) * localTaskStore * FS;
  store_ReadPiece : ReadPieceRequest → Z → localTaskStore → FS → (option Reader * option Closer * option error) * localTaskStore * FS;
  store_ReadAllPieces : ReadAllPiecesRequest → Z → localTaskStore → FS → (option ReadCloser * option error) * localTaskStore * FS;
  store_GetPieces : PieceTaskRequest → Z → localTaskStore → FS → (option PiecePacket * option error) * localTaskStore * FS;
  store_UpdateTask : UpdateTaskRequest → Z → localTaskStore → FS → option error * localTaskStore * FS;
  store_Store : StoreRequest → Z → localTaskStore → FS → option error * localTaskStore * FS;
  store_ValidateDigest : PeerTaskMetadata → Z → localTaskStore → FS → option error * localTaskStore * FS;
  store_IsInvalid : PeerTaskMetadata → Z → localTaskStore → FS → (bool * option error) * localTaskStore * FS;
}.

(** ** The state: manager, heap of stores, file system, trace *)

Record World (FS : Type) := mkWorld {
  mgr : storageManager;
  heap : list localTaskStore;
  disk : FS;
  trace : list event;
}.
Arguments mkWorld {FS} _ _ _ _.
Arguments mgr {FS} _.
Arguments heap {FS} _.
Arguments disk {FS} _.
Arguments trace {FS} _.

Definition upd_mgr {FS} (f : storageManager → storageManager) (w : World FS) : World FS :=
  mkWorld (f (mgr w)) (heap w) (disk w) (trace w).

Definition set_heap {FS} (h : list localTaskStore) (w : World FS) : World FS :=
  mkWorld (mgr w) h (disk w) (trace w).

Definition set_disk {FS} (d : FS) (w : World FS) : World FS :=
  mkWorld (mgr w) (heap w) d (trace w).

Definition emit {FS} (e : event) (w : World FS) : World FS :=
  mkWorld (mgr w) (heap w) (disk w) (trace w ++ [e]).

(** ** [sync.Map] as an association list *)

Fixpoint tasks_Load (k : PeerTaskMetadata) (m : list (PeerTaskMetadata * loc)) : option loc :=
  match m with
  | [] => None
  | (k', p) :: m' => if decide (k' = k) then Some p else tasks_Load k m'
  end.

Fixpoint tasks_replace (k : PeerTaskMetadata) (p : loc) (m : list (PeerTaskMetadata * loc))
  : list (PeerTaskMetadata * loc) :=
  match m with
  | [] => []
  | (k', p') :: m' =>
      if decide (k' = k) then (k, p) :: m' else (k', p') :: tasks_replace k p m'
  end.

Definition tasks_Store (k : PeerTaskMetadata) (p : loc) (m : list (PeerTaskMetadata * loc))
  : list (PeerTaskMetadata * loc) :=
  match tasks_Load k m with
  | Some _ => tasks_replace k p m
  | None => m ++ [(k, p)]
  end.

Definition tasks_Delete (k : PeerTaskMetadata) (m : list (PeerTaskMetadata * loc))
  : list (PeerTaskMetadata * loc) :=
  filter (λ kp, kp.1 ≠ k) m.

(** [sort.SliceStable(tasks, less)], as a stable insertion sort: an element
    goes before the first one that is not less than it. *)
Fixpoint insert_stable {A} (less : A → A → bool) (x : A) (l : list A) : list A :=
  match l with
  | [] => [x]
  | y :: l' => if less y x then y :: insert_stable less x l' else x :: l
  end.

Definition SliceStable {A} (less : A → A → bool) (l : list A) : list A :=
  foldr (insert_stable less) [] l.

(** [int64(f)] of a non-negative [float64], the float being an exact
    rational: truncation towards zero. *)
Definition int64_of_float (q : Q) : Z := Z.quot (Qnum q) (Z.pos (Qden q)).

(** ** The storage manager *)

Section Manager.
Context {FS : Type} `{!Env FS} `{!StoreImpl FS}.

(** A call into the environment that may change the file system. *)
Definition sys {A} (c : oscall) (f : FS → FS * A) (w : World FS) : A * World FS :=
  let '(d, r) := f (disk w) in (r, emit (EvOS c) (set_disk d w)).

(** A call into the environment that only reads. *)
Definition ask {A} (c : oscall) (f : FS → A) (w : World FS) : A * World FS :=
  (f (disk w), emit (EvOS c) w).

(** [s.Keep()] *)
Definition Keep (now : Z) (w : World FS) : World FS :=
  upd_mgr (set_keepAlive now) w.

Definition LoadTask (now : Z) (meta : PeerTaskMetadata) (w : World FS) : option loc * World FS :=
  let w := Keep now w in
  (tasks_Load meta (tasks (mgr w)), w).

(** The test [err != nil && !os.IsExist(err)] on the result of
    [os.MkdirAll]: the error [CreateTask] returns, if any. *)
Definition fatalMkdir (err : option error) : option error :=
  match err with
  | Some e => if os_IsExist e then None else Some e
  | None => None
  end.

(** The [switch t.StoreStrategy] of [CreateTask]: creates the data file
    and, for the advance strategy, the link from the data directory. *)
Definition createData (s : storageManager) (req : RegisterTaskRequest) (data : string)
    (t : localTaskStore) (w : World FS) : result localTaskStore * World FS :=
  match StoreStrategyOf t with
  | SimpleLocalTaskStoreStrategy =>
      let t := set_persistent (set_DataFilePath data) t in
      let '(err, w) := sys (COpenFile (DataFilePath t)) (os_OpenFile (DataFilePath t)) w in
      match err with
      | Some e => (Err e, w)
      | None => (Ok t, w)
      end
  | AdvanceLocalTaskStoreStrategy =>
      let '(dir, file) := path.Split (req_Destination (reg_common req)) in
      let '(dirStat, w) := ask (CStat dir) (os_Stat dir) w in
      match dirStat with
      | Err e => (Err e, w)
      | Ok stat =>
          let cache := path.Join [dir; "." +:+ file +:+ ".dfget.cache." +:+ req_PeerID (reg_common req)] in
          let t := set_persistent (set_DataFilePath cache) t in
          let '(err, w) := sys (COpenFile (DataFilePath t)) (os_OpenFile (DataFilePath t)) w in
          match err with
          | Some e => (Err e, w)
          | None =>
              if decide (fi_Dev stat = dataPathStat_Dev s) then
                let '(err, w) := sys (CLink (DataFilePath t) data) (os_Link (DataFilePath t) data) w in
                match err with
                | Some _ =>
                    let '(err, w) := sys (CSymlink (DataFilePath t) data) (os_Symlink (DataFilePath t) data) w in
                    match err with
                    | Some e => (Err e, w)
                    | None => (Ok t, w)
                    end
                | None => (Ok t, w)
                end
              else
                let '(err, w) := sys (CSymlink (DataFilePath t) data) (os_Symlink (DataFilePath t) data) w in
                match err with
                | Some e => (Err e, w)
                | None => (Ok t, w)
                end
          end
      end
  | OtherStoreStrategy _ => (Ok t, w)
  end.

(** The update of [indexTask2PeerTask] at the end of [CreateTask] and in
    [ReloadPersistentTask]. *)
Definition indexAppend (taskID : string) (p : loc) (w : World FS) : World FS :=
  let idx := indexTask2PeerTask (mgr w) in
  let ts := match idx !! taskID with
            | Some ts => ts ++ [p]
            | None => [p]
            end in
  emit (EvIndexAppend taskID p) (upd_mgr (set_index (<[taskID := ts]> idx)) w).

(** [s.tasks.Store(key, t)] for a store object [t] that is new: the
    object gets the next free location. *)
Definition storeNew (k : PeerTaskMetadata) (t : localTaskStore) (w : World FS) : loc * World FS :=
  let p := length (heap w) in
  let w := set_heap (heap w ++ [t]) w in
  (p, emit (EvStore k p) (upd_mgr (set_tasks (tasks_Store k p (tasks (mgr w)))) w)).

Definition CreateTask (now : Z) (req : RegisterTaskRequest) (w : World FS) : result loc * World FS :=
  let w := Keep now w in
  let s := mgr w in
  let c := reg_common req in
  let dir := path.Join [DataPath (storeOption s); req_TaskID c; req_PeerID c] in
  let t := {| persistent :=
                {| pm_StoreStrategy := storeStrategy s;
                   pm_TaskID := req_TaskID c;
                   pm_TaskMeta := ∅;
                   pm_ContentLength := reg_ContentLength req;
                   pm_TotalPieces := reg_TotalPieces req;
                   pm_PeerID := req_PeerID c;
                   pm_Pieces := ∅;
                   pm_PieceMd5Sign := reg_PieceMd5Sign req;
                   pm_DataFilePath := "";
                   pm_Done := false |};
              lastAccess := 0;
              reclaimMarked := false;
              invalid := false;
              dataDir := dir;
              metadataFilePath := path.Join [dir; taskMetadata];
              metadataFile := None;
              expireTime := TaskExpireTime (storeOption s) |} in
  let '(err, w) := sys (CMkdirAll (dataDir t)) (os_MkdirAll (dataDir t)) w in
  match fatalMkdir err with
  | Some e => (Err e, w)
  | None =>
      let t := touch now t in
      let '(err, w) := sys (COpenFile (metadataFilePath t)) (os_OpenFile (metadataFilePath t)) w in
      match err with
      | Some e => (Err e, w)
      | None =>
          let t := set_metadataFile (Some (metadataFilePath t)) t in
          let t := if decide (req_Destination c = "")
                   then set_persistent (set_StoreStrategy SimpleLocalTaskStoreStrategy) t
                   else t in
          let data := path.Join [dir; taskData] in
          let '(r, w) := createData s req data t w in
          match r with
          | Err e => (Err e, w)
          | Ok t =>
              let '(p, w) := storeNew {| meta_PeerID := req_PeerID c; meta_TaskID := req_TaskID c |} t w in
              (Ok p, indexAppend (req_TaskID c) p w)
          end
      end
  end.

Definition RegisterTask (now : Z) (req : RegisterTaskRequest) (w : World FS) : result loc * World FS :=
  let k := {| meta_PeerID := req_PeerID (reg_common req); meta_TaskID := req_TaskID (reg_common req) |} in
  let '(ts, w) := LoadTask now k w in
  match ts with
  | Some p => (Ok p, w)
  | None =>
      (* double check under the lock *)
      let '(ts, w) := LoadTask now k w in
      match ts with
      | Some p => (Ok p, w)
      | None => CreateTask now req w
      end
  end.

(** The loop of [FindCompletedTask] over the stores indexed for a task;
    a location without an object (there is none in Go) is passed over. *)
Fixpoint findCompleted (now : Z) (taskID : string) (ts : list loc) (h : list localTaskStore)
  : option ReusePeerTask * list localTaskStore :=
  match ts with
  | [] => (None, h)
  | p :: ts' =>
      match h !! p with
      | None => findCompleted now taskID ts' h
      | Some t =>
          if invalid t then findCompleted now taskID ts' h
          else
            (* touch it before marking reclaim *)
            let h := <[p := touch now t]> h in
            if reclaimMarked t then findCompleted now taskID ts' h
            else if negb (Done t) then findCompleted now taskID ts' h
            else (Some {| reuse_meta := {| meta_PeerID := PeerID t; meta_TaskID := taskID |};
                          reuse_ContentLength := ContentLength t;
                          reuse_TotalPieces := int32 (TotalPieces t) |}, h)
      end
  end.

Definition FindCompletedTask (now : Z) (taskID : string) (w : World FS) : option ReusePeerTask * World FS :=
  match indexTask2PeerTask (mgr w) !! taskID with
  | None => (None, w)
  | Some ts =>
      let '(r, h) := findCompleted now taskID ts (heap w) in
      (r, set_heap h w)
  end.

(** The stores [cleanIndex] keeps: those whose [PeerID] differs. *)
Definition keptByClean (h : list localTaskStore) (peerID : string) (p : loc) : bool :=
  match h !! p with
  | Some t => bool_decide (PeerID t ≠ peerID)
  | None => true
  end.

Definition remainAfterClean (h : list localTaskStore) (peerID : string) (ts : list loc) : list loc :=
  filter (λ p, keptByClean h peerID p = true) ts.

Definition cleanIndex (taskID peerID : string) (w : World FS) : World FS :=
  let w := emit (EvCleanIndex taskID peerID) w in
  match indexTask2PeerTask (mgr w) !! taskID with
  | None => w
  | Some ts =>
      upd_mgr (set_index (<[taskID := remainAfterClean (heap w) peerID ts]> (indexTask2PeerTask (mgr w)))) w
  end.

Definition diskUsageExceed (w : World FS) : (bool * Z) * World FS :=
  let opt := storeOption (mgr w) in
  if Qle_bool (DiskGCThresholdPercent opt) 0 then ((false, 0), w)
  else
    let '(r, w) := ask (CDiskUsage (DataPath opt)) (disk_Usage (DataPath opt)) w in
    match r with
    | Err _ => ((false, 0), w)
    | Ok usage =>
        if negb (Qle_bool (DiskGCThresholdPercent opt) (usage_UsedPercent usage))
        then ((false, 0), w)
        else
          let bs := ((usage_UsedPercent usage - DiskGCThresholdPercent opt) * inject_Z (usage_Total usage))%Q in
          ((true, int64_of_float bs), w)
    end.

(** *** [TryGC] *)

(** The first [Range] of [TryGC]: expired stores are marked and their keys
    collected, the sizes of the others are summed. *)
Fixpoint scanExpired (now : Z) (entries : list (PeerTaskMetadata * loc))
    (h : list localTaskStore) (markedTasks : list PeerTaskMetadata) (totalNotMarkedSize : Z)
  : list localTaskStore * list PeerTaskMetadata * Z :=
  match entries with
  | [] => (h, markedTasks, totalNotMarkedSize)
  | (key, p) :: rest =>
      match h !! p with
      | None => scanExpired now rest h markedTasks totalNotMarkedSize
      | Some task =>
          if CanReclaim now task
          then scanExpired now rest (<[p := MarkReclaim task]> h) (markedTasks ++ [key]) totalNotMarkedSize
          else scanExpired now rest h markedTasks (int64 (totalNotMarkedSize + ContentLength task))
      end
  end.

(** The test of the second [Range]: not marked, and not (unfinished and
    active within [gcInterval]). *)
Definition gcCandidate (now interval : Z) (task : localTaskStore) : bool :=
  if reclaimMarked task then false
  else if negb (Done task) && bool_decide (now - lastAccess task < interval) then false
  else true.

Definition candidateAt (now interval : Z) (h : list localTaskStore) (p : loc) : bool :=
  match h !! p with
  | Some task => gcCandidate now interval task
  | None => false
  end.

Definition collectCandidates (now interval : Z) (entries : list (PeerTaskMetadata * loc))
    (h : list localTaskStore) : list loc :=
  filter (λ p, candidateAt now interval h p = true) (entries.*2).

Definition lastAccessAt (h : list localTaskStore) (p : loc) : Z :=
  match h !! p with
  | Some task => lastAccess task
  | None => 0
  end.

(** [tasks[i].lastAccess.Load() < tasks[j].lastAccess.Load()] *)
Definition olderThan (h : list localTaskStore) (p q : loc) : bool :=
  bool_decide (lastAccessAt h p < lastAccessAt h q).

(** The loop that marks the oldest stores until enough bytes are found. *)
Fixpoint markOldest (ts : list loc) (h : list localTaskStore)
    (markedTasks : list PeerTaskMetadata) (bytesExceed : Z)
  : list localTaskStore * list PeerTaskMetadata * Z :=
  match ts with
  | [] => (h, markedTasks, bytesExceed)
  | p :: rest =>
      match h !! p with
      | None => markOldest rest h markedTasks bytesExceed
      | Some task =>
          let h := <[p := MarkReclaim task]> h in
          let markedTasks := markedTasks ++ [{| meta_PeerID := PeerID task; meta_TaskID := TaskID task |}] in
          let bytesExceed := int64 (bytesExceed - ContentLength task) in
          if bool_decide (bytesExceed ≤ 0) then (h, markedTasks, bytesExceed)
          else markOldest rest h markedTasks bytesExceed
      end
  end.

(** Removes the first entry of [markedTasks] with the key's two fields. *)
Fixpoint removeMarked (key : PeerTaskMetadata) (markedTasks : list PeerTaskMetadata)
  : list PeerTaskMetadata :=
  match markedTasks with
  | [] => []
  | k :: rest =>
      if bool_decide (meta_TaskID k = meta_TaskID key) && bool_decide (meta_PeerID k = meta_PeerID key)
      then rest
      else k :: removeMarked key rest
  end.

Definition callReclaim (p : loc) (task : localTaskStore) (w : World FS) : option error * World FS :=
  let '(d, err) := Reclaim task (disk w) in
  (err, emit (EvReclaim p) (set_disk d w)).

(** One round of the loop over [s.markedReclaimTasks]. *)
Definition reclaimOne (st : World FS * list PeerTaskMetadata) (key : PeerTaskMetadata)
  : World FS * list PeerTaskMetadata :=
  let '(w, markedTasks) := st in
  match tasks_Load key (tasks (mgr w)) with
  | None => (w, markedTasks)
  | Some p =>
      match heap w !! p with
      | None => (w, markedTasks)
      | Some task =>
          let w := emit (EvDelete key) (upd_mgr (set_tasks (tasks_Delete key (tasks (mgr w)))) w) in
          let w := cleanIndex (TaskID task) (PeerID task) w in
          let '(err, w) := callReclaim p task w in
          match err with
          | Some _ => (w, markedTasks)
          | None => (w, removeMarked key markedTasks)
          end
      end
  end.

(** The quota part of [TryGC], entered when a threshold is exceeded. *)
Definition gcOldest (now : Z) (quotaBytesExceed usageBytesExceed : Z)
    (markedTasks : list PeerTaskMetadata) (w : World FS)
  : World FS * list PeerTaskMetadata :=
  let bytesExceed := if bool_decide (usageBytesExceed < quotaBytesExceed)
                     then quotaBytesExceed else usageBytesExceed in
  let ts := collectCandidates now (gcInterval (mgr w)) (tasks (mgr w)) (heap w) in
  let ts := SliceStable (olderThan (heap w)) ts in
  let '(h, markedTasks, _) := markOldest ts (heap w) markedTasks bytesExceed in
  (set_heap h w, markedTasks).

Definition TryGC (now : Z) (w : World FS) : (bool * option error) * World FS :=
  let s := mgr w in
  let '(h, markedTasks, totalNotMarkedSize) := scanExpired now (tasks s) (heap w) [] 0 in
  let w := set_heap h w in
  let quotaBytesExceed := int64 (totalNotMarkedSize - int64 (DiskGCThreshold (storeOption s))) in
  let quotaExceed := bool_decide (0 < DiskGCThreshold (storeOption s)) && bool_decide (0 < quotaBytesExceed) in
  let '((usageExceed, usageBytesExceed), w) := diskUsageExceed w in
  let '(w, markedTasks) :=
    if quotaExceed || usageExceed
    then gcOldest now quotaBytesExceed usageBytesExceed markedTasks w
    else (w, markedTasks) in
  let '(w, markedTasks) := foldl reclaimOne (w, markedTasks) (markedReclaimTasks s) in
  ((true, None), upd_mgr (set_markedReclaimTasks markedTasks) w).

(** *** [forceGC] and [CleanUp] *)

Definition forceOne (w : World FS) (entry : PeerTaskMetadata * loc) : World FS :=
  let '(meta, p) := entry in
  let w := emit (EvDelete meta) (upd_mgr (set_tasks (tasks_Delete meta (tasks (mgr w)))) w) in
  let w := cleanIndex (meta_TaskID meta) (meta_PeerID meta) w in
  match heap w !! p with
  | None => w
  | Some task =>
      let w := set_heap (<[p := MarkReclaim task]> (heap w)) w in
      snd (callReclaim p (MarkReclaim task) w)
  end.

Definition forceGC (w : World FS) : (bool * option error) * World FS :=
  ((true, None), foldl forceOne w (tasks (mgr w))).

Definition CleanUp (w : World FS) : World FS := snd (forceGC w).

(** *** [ReloadPersistentTask] *)

(** The accumulator of the reload loops: the state and the two lists
    [loadErrs] and [loadErrDirs]. *)
Definition reloadAcc : Type := World FS * list error * list string.

Definition loadFailed (acc : reloadAcc) (e : error) (dir : string) (w : World FS) : reloadAcc :=
  let '(_, loadErrs, loadErrDirs) := acc in
  (w, loadErrs ++ [e], loadErrDirs ++ [dir]).

(** The body of the loop over the peer directories of one task. *)
Definition reloadPeerDir (now : Z) (taskID : string) (acc : reloadAcc) (peerID : string) : reloadAcc :=
  let '(w, loadErrs, loadErrDirs) := acc in
  let s := mgr w in
  let dir := path.Join [DataPath (storeOption s); taskID; peerID] in
  let t := {| persistent := persistentMetadata_zero;
              lastAccess := 0;
              reclaimMarked := false;
              invalid := false;
              dataDir := dir;
              metadataFilePath := path.Join [dir; taskMetadata];
              metadataFile := None;
              expireTime := TaskExpireTime (storeOption s) |} in
  let t := touch now t in
  let '(err, w) := ask (COpen (metadataFilePath t)) (os_Open (metadataFilePath t)) w in
  match err with
  | Some e => loadFailed acc e dir w
  | None =>
      let t := set_metadataFile (Some (metadataFilePath t)) t in
      let '(bytes, w) := ask (CReadAll (metadataFilePath t)) (io_ReadAll (metadataFilePath t)) w in
      match bytes with
      | Err e0 => loadFailed acc e0 dir w
      | Ok bytes =>
          match json_Unmarshal bytes (persistent t) with
          | Err e0 => loadFailed acc e0 dir w
          | Ok m =>
              let t := set_persistent (λ _, m) t in
              let '(p, w) := storeNew {| meta_PeerID := peerID; meta_TaskID := taskID |} t w in
              (indexAppend taskID p w, loadErrs, loadErrDirs)
          end
      end
  end.

(** The body of the loop over the entries of the data root. *)
Definition reloadTaskDir (now : Z) (acc : reloadAcc) (taskID : string) : reloadAcc :=
  let '(w, loadErrs, loadErrDirs) := acc in
  let taskDir := path.Join [DataPath (storeOption (mgr w)); taskID] in
  let '(peerDirs, w) := ask (CReadDir taskDir) (os_ReadDir taskDir) w in
  match peerDirs with
  | Err _ => (w, loadErrs, loadErrDirs)
  | Ok [] =>
      (* skip dot files or directories *)
      if String.prefix "." taskDir then (w, loadErrs, loadErrDirs)
      else
        let '(_, w) := sys (CRemove taskDir) (os_Remove taskDir) w in
        (w, loadErrs, loadErrDirs)
  | Ok peerDirs => foldl (reloadPeerDir now taskID) (w, loadErrs, loadErrDirs) peerDirs
  end.

(** The body of the loop that removes the directories that failed to
    load; every error is logged and otherwise ignored. *)
Definition removeLoadErrDir (w : World FS) (dir : string) : World FS :=
  let '(_, w) := sys (CRemove (path.Join [dir; taskMetadata])) (os_Remove (path.Join [dir; taskMetadata])) w in
  let data := path.Join [dir; taskData] in
  let '(stat, w) := ask (CLstat data) (os_Lstat data) w in
  let w :=
    match stat with
    | Err _ => w
    | Ok stat =>
        let w :=
          if fi_symlink stat then
            let '(dest, w) := ask (CReadlink data) (os_Readlink data) w in
            match dest with
            | Ok dest => snd (sys (CRemove dest) (os_Remove dest) w)
            | Err _ => w
            end
          else w in
        snd (sys (CRemove data) (os_Remove data) w)
    end in
  snd (sys (CRemove dir) (os_Remove dir) w).

Definition ReloadPersistentTask (now : Z) (w : World FS) : option error * World FS :=
  let root := DataPath (storeOption (mgr w)) in
  let '(dirs, w) := ask (CReadDir root) (os_ReadDir root) w in
  match dirs with
  | Err e => if os_IsNotExist (Some e) then (None, w) else (Some e, w)
  | Ok dirs =>
      let '(w, loadErrs, loadErrDirs) := foldl (reloadTaskDir now) (w, [], []) dirs in
      let w := foldl removeLoadErrDir w loadErrDirs in
      match loadErrs with
      | [] => (None, w)
      | _ => (Some (ErrLoadTasks (foldr (λ e acc, Error e +:+ acc) "" loadErrs)), w)
      end
  end.

(** *** The [TaskStorageDriver] of the manager: look the store up, then
    delegate to it *)

(** Runs a method of the store at [p]; [notFound] stands in where a
    location has no object, which Go excludes. *)
Definition delegate {A} (p : loc) (f : localTaskStore → FS → A * localTaskStore * FS)
    (notFound : A) (w : World FS) : A * World FS :=
  match heap w !! p with
  | None => (notFound, w)
  | Some t =>
      let '(r, t', d) := f t (disk w) in
      (r, set_disk d (set_heap (<[p := t']> (heap w)) w))
  end.

Definition WritePiece (now : Z) (req : WritePieceRequest) (w : World FS) : (Z * option error) * World FS :=
  let '(t, w) := LoadTask now {| meta_PeerID := meta_PeerID (wp_meta req); meta_TaskID := meta_TaskID (wp_meta req) |} w in
  match t with
  | None => ((0, Some ErrTaskNotFound), w)
  | Some p => delegate p (store_WritePiece req now) (0, Some ErrTaskNotFound) w
  end.

Definition ReadPiece (now : Z) (req : ReadPieceRequest) (w : World FS)
  : (option Reader * option Closer * option error) * World FS :=
  let '(t, w) := LoadTask now {| meta_PeerID := meta_PeerID (rp_meta req); meta_TaskID := meta_TaskID (rp_meta req) |} w in
  match t with
  | None => ((None, None, Some ErrTaskNotFound), w)
  | Some p => delegate p (store_ReadPiece req now) (None, None, Some ErrTaskNotFound) w
  end.

Definition ReadAllPieces (now : Z) (req : ReadAllPiecesRequest) (w : World FS)
  : (option ReadCloser * option error) * World FS :=
  let '(t, w) := LoadTask now {| meta_PeerID := meta_PeerID (ra_meta req); meta_TaskID := meta_TaskID (ra_meta req) |} w in
  match t with
  | None => ((None, Some ErrTaskNotFound), w)
  | Some p => delegate p (store_ReadAllPieces req now) (None, Some ErrTaskNotFound) w
  end.

Definition Store (now : Z) (req : StoreRequest) (w : World FS) : option error * World FS :=
  let '(t, w) := LoadTask now {| meta_PeerID := req_PeerID (sr_common req); meta_TaskID := req_TaskID (sr_common req) |} w in
  match t with
  | None => (Some ErrTaskNotFound, w)
  | Some p => delegate p (store_Store req now) (Some ErrTaskNotFound) w
  end.

Definition GetPieces (now : Z) (req : PieceTaskRequest) (w : World FS)
  : (option PiecePacket * option error) * World FS :=
  let '(t, w) := LoadTask now {| meta_PeerID := pt_DstPid req; meta_TaskID := pt_TaskId req |} w in
  match t with
  | None => ((None, Some ErrTaskNotFound), w)
  | Some p => delegate p (store_GetPieces req now) (None, Some ErrTaskNotFound) w
  end.

Definition UpdateTask (now : Z) (req : UpdateTaskRequest) (w : World FS) : option error * World FS :=
  let '(t, w) := LoadTask now {| meta_PeerID := meta_PeerID (ut_meta req); meta_TaskID := meta_TaskID (ut_meta req) |} w in
  match t with
  | None => (Some ErrTaskNotFound, w)
  | Some p => delegate p (store_UpdateTask req now) (Some ErrTaskNotFound) w
  end.

Definition ValidateDigest (now : Z) (req : PeerTaskMetadata) (w : World FS) : option error * World FS :=
  let '(t, w) := LoadTask now {| meta_PeerID := meta_PeerID req; meta_TaskID := meta_TaskID req |} w in
  match t with
  | None => (Some ErrTaskNotFound, w)
  | Some p => delegate p (store_ValidateDigest req now) (Some ErrTaskNotFound) w
  end.

Definition IsInvalid (now : Z) (req : PeerTaskMetadata) (w : World FS) : (bool * option error) * World FS :=
  let '(t, w) := LoadTask now {| meta_PeerID := meta_PeerID req; meta_TaskID := meta_TaskID req |} w in
  match t with
  | None => ((false, Some ErrTaskNotFound), w)
  | Some p => delegate p (store_IsInvalid req now) (false, Some ErrTaskNotFound) w
  end.

End Manager.

(** [WithGCInterval]: the option that sets the manager's GC interval. *)
Definition WithGCInterval (interval : Z) (s : storageManager) : storageManager :=
  {| storeStrategy := storeStrategy s; storeOption := storeOption s; tasks := tasks s;
     markedReclaimTasks := markedReclaimTasks s; dataPathStat_Dev := dataPathStat_Dev s;
     gcInterval := interval; indexTask2PeerTask := indexTask2PeerTask s;
     keepAlive := keepAlive s |}.

(** ** Package [peer]: the file peer task *)

(** [base.Code]: the two codes the file task names, and all others. *)
Inductive Code :=
| Code_Success
| Code_ClientError
| Code_Other (n : Z).

Record ProgressState := {
  Success : bool;
  StateCode : Code;
  Msg : string;
}.

(** [DoneCallback] is a closure that closes [progressStopCh]; the field
    records whether it is set. *)
Record FileTaskProgress := {
  State : ProgressState;
  progress_TaskID : string;
  progress_PeerID : string;
  progress_ContentLength : Z;
  CompletedLength : Z;
  PeerTaskDone : bool;
  DoneCallback : bool;
}.

(** What the file task reads from its [peerTaskConductor] when a case of
    a [select] runs: the conductor works concurrently, so every reading
    is a snapshot. *)
Record peerTaskConductor := {
  conductor_TaskID : string;
  conductor_PeerID : string;
  conductor_ContentLength : Z;
  completedLength : Z;
  conductor_TotalPieces : Z;
  failedCode : Code;
  failedReason : string;
}.

Record pieceInfo := {
  piece_num : Z;
  finished : bool;
}.

(** *** The [select] statements

    A [select] takes one of its ready cases; which one is the
    environment's choice. The choices are the input of the model. *)

(** [sendSuccessProgress], [sendFailProgress]: send the progress, or see
    the context done. *)
Inductive sendChoice := SendTaken | SendCtxDone.

(** Waiting for [progressStopCh], or the context done. *)
Inductive waitChoice := WaitStopped | WaitCtxDone.

(** The inner [select] of [syncProgress]. *)
Inductive innerChoice := InnerStopped | InnerSent | InnerCtxDone.

(** The outer [select] of [syncProgress]; [storeErr] is the result of
    [storageManager.Store] in [storeToOutput]. *)
Inductive selected :=
| SelSuccess (storeErr : option error) (s : sendChoice) (wt : waitChoice)
| SelFail (s : sendChoice) (wt : waitChoice)
| SelCtxDone
| SelPiece (piece : pieceInfo) (i : innerChoice).

Definition sendSuccessProgress (c : peerTaskConductor) (s : sendChoice) (wt : waitChoice)
  : list FileTaskProgress :=
  let pg := {| State := {| Success := true; StateCode := Code_Success; Msg := "done" |};
               progress_TaskID := conductor_TaskID c;
               progress_PeerID := conductor_PeerID c;
               progress_ContentLength := conductor_ContentLength c;
               CompletedLength := completedLength c;
               PeerTaskDone := true;
               DoneCallback := true |} in
  let sent := match s with
              | SendTaken => [pg]
              | SendCtxDone => []
              end in
  (* wait progress stopped *)
  match wt with
  | WaitStopped => sent
  | WaitCtxDone => sent
  end.

Definition sendFailProgress (c : peerTaskConductor) (code : Code) (msg : string)
    (s : sendChoice) (wt : waitChoice) : list FileTaskProgress :=
  let pg := {| State := {| Success := false; StateCode := code; Msg := msg |};
               progress_TaskID := conductor_TaskID c;
               progress_PeerID := conductor_PeerID c;
               progress_ContentLength := conductor_ContentLength c;
               CompletedLength := completedLength c;
               PeerTaskDone := true;
               DoneCallback := true |} in
  (* wait client received progress *)
  let sent := match s with
              | SendTaken => [pg]
              | SendCtxDone => []
              end in
  (* wait progress stopped *)
  match wt with
  | WaitStopped => sent
  | WaitCtxDone => sent
  end.

Definition storeToOutput (c : peerTaskConductor) (storeErr : option error)
    (s : sendChoice) (wt : waitChoice) : list FileTaskProgress :=
  match storeErr with
  | Some err => sendFailProgress c Code_ClientError (Error err) s wt
  | None => sendSuccessProgress c s wt
  end.

Definition downloading (c : peerTaskConductor) : FileTaskProgress :=
  {| State := {| Success := true; StateCode := Code_Success; Msg := "downloading" |};
     progress_TaskID := conductor_TaskID c;
     progress_PeerID := conductor_PeerID c;
     progress_ContentLength := conductor_ContentLength c;
     CompletedLength := completedLength c;
     PeerTaskDone := false;
     DoneCallback := false |}.

(** [syncProgress] on a schedule: one entry for each pass through the
    outer [select], with the conductor as read in that pass. The result is
    the progress sent on [progressCh], in order, and whether the function
    has returned ([false]: it waits in the [select] for more). *)
Fixpoint syncProgress (schedule : list (selected * peerTaskConductor))
  : list FileTaskProgress * bool :=
  match schedule with
  | [] => ([], false)
  | (SelSuccess storeErr s wt, c) :: _ => (storeToOutput c storeErr s wt, true)
  | (SelFail s wt, c) :: _ => (sendFailProgress c (failedCode c) (failedReason c) s wt, true)
  | (SelCtxDone, _) :: rest => syncProgress rest
  | (SelPiece piece i, c) :: rest =>
      if finished piece then syncProgress rest
      else
        match i with
        | InnerStopped => syncProgress rest
        | InnerSent =>
            let '(sent, returned) := syncProgress rest in
            (downloading c :: sent, returned)
        | InnerCtxDone => ([], true)
        end
  end.

(** *** [newFileTask] *)

Record UrlMeta := {
  um_Digest : string;
  um_Tag : string;
  um_Range : string;
  um_Filter : string;
  um_Header : list (string * string);
}.

(** [scheduler.PeerTaskRequest] (the host fields are left out);
    [UrlMeta] is a pointer and may be nil. *)
Record PeerTaskRequest := {
  Url : string;
  ptr_UrlMeta : option UrlMeta;
  PeerId : string;
  IsMigrating : bool;
}.

Record FileTaskRequest := {
  ftr_PeerTaskRequest : PeerTaskRequest;
  Output : string;
  Limit : Q;
  DisableBackSource : bool;
  Pattern : string;
  Callsystem : string;
}.

(** What [newFileTask] does besides computing its results. *)
Inductive effect :=
| EffFileTaskCount
| EffGoPrefetch (request : PeerTaskRequest)
| EffTracerStart
| EffSubscribe.

(** How a call ends: it returns its results, or it panics (a nil pointer
    is dereferenced). *)
Inductive outcome (A : Type) :=
| Returned (a : A)
| Panicked.
Arguments Returned {A} a.
Arguments Panicked {A}.

Section FileTask.

(** The parts of the daemon declared outside the files under study: the
    manager's state with its prefetch flag, [getPeerTaskConductor],
    [idgen.TaskID], the tracer and the broker's [Subscribe]. *)
Context {peerTaskManager context span conductor channel : Type}.
Context (enablePrefetch : peerTaskManager → bool).
Context (getPeerTaskConductor :
  context → string → PeerTaskRequest → Q → peerTaskManager → result conductor * peerTaskManager).
Context (idgen_TaskID : string → option UrlMeta → string).
Context (tracer_Start : context → context * span).
Context (Subscribe : conductor → channel).

Record fileTask := {
  ft_ctx : context;
  ft_span : span;
  ft_peerTaskConductor : conductor;
  ft_pieceCh : channel;
  ft_request : FileTaskRequest;
  ft_disableBackSource : bool;
  ft_pattern : string;
  ft_callsystem : string;
}.

(** The rest of [newFileTask] once the conductor is there and the
    prefetch statement is passed. *)
Definition buildFileTask (ctx : context) (request : FileTaskRequest) (ptc : conductor)
  : context * fileTask :=
  let '(ctx, sp) := tracer_Start ctx in
  (ctx, {| ft_ctx := ctx;
           ft_span := sp;
           ft_peerTaskConductor := ptc;
           ft_pieceCh := Subscribe ptc;
           ft_request := request;
           ft_disableBackSource := DisableBackSource request;
           ft_pattern := Pattern request;
           ft_callsystem := Callsystem request |}).

Definition newFileTask (ctx : context) (request : FileTaskRequest) (limit : Q)
    (ptm : peerTaskManager)
  : outcome (result (context * fileTask)) * peerTaskManager * list effect :=
  let pr := ftr_PeerTaskRequest request in
  let '(r, ptm) := getPeerTaskConductor ctx (idgen_TaskID (Url pr) (ptr_UrlMeta pr)) pr limit ptm in
  match r with
  | Err err => (Returned (Err err), ptm, [EffFileTaskCount])
  | Ok ptc =>
      let rest := (Returned (Ok (buildFileTask ctx request ptc)), ptm) in
      (* prefetch parent request *)
      if enablePrefetch ptm then
        match ptr_UrlMeta pr with
        | None => (Panicked, ptm, [EffFileTaskCount])
        | Some meta =>
            if decide (um_Range meta ≠ "")
            then (rest, [EffFileTaskCount; EffGoPrefetch pr; EffTracerStart; EffSubscribe])
            else (rest, [EffFileTaskCount; EffTracerStart; EffSubscribe])
        end
      else (rest, [EffFileTaskCount; EffTracerStart; EffSubscribe])
  end.

End FileTask.

(** ** An in-memory file system, instance of [Env]

    Used to run the manager on concrete inputs. Paths are cleaned before
    they are looked up; a symbolic link is followed when it is the last
    element of a path, not inside one; permissions are not modelled. *)

Module MemFS.

Inductive node :=
| NDir (dev : Z)
| NFile (content : string)
| NSymlink (target : string).

Record t := mk {
  nodes : gmap string node;
  usage : result UsageStat;
}.

Definition set_nodes (n : gmap string node) (fs : t) : t := mk n (usage fs).

Definition base (p : string) : string := snd (path.Split p).

(** The path a link at [p] with target [target] points to. *)
Definition linkTarget (p target : string) : string :=
  if path.is_rooted target then path.Clean target
  else path.Join [path.Dir p; target].

(** Follows links at the end of [p], at most [fuel] of them. *)
Fixpoint resolve (fuel : nat) (fs : t) (p : string) : string * option node :=
  match nodes fs !! p with
  | Some (NSymlink target) =>
      match fuel with
      | O => (p, Some (NSymlink target))
      | S fuel' => resolve fuel' fs (linkTarget p target)
      end
  | n => (p, n)
  end.

Definition follow (fs : t) (p : string) : string * option node :=
  resolve 8 fs (path.Clean p).

Definition isDir (fs : t) (p : string) : bool :=
  match nodes fs !! p with
  | Some (NDir _) => true
  | _ => false
  end.

Definition devOf (fs : t) (p : string) : Z :=
  match nodes fs !! p with
  | Some (NDir dev) => dev
  | _ => 0
  end.

(** The paths of [p] and of all its ancestors below the root, outermost
    first. *)
Definition ancestors (p : string) : list string :=
  let c := path.Clean p in
  let es := filter (λ e, e ≠ "") (path.elements [] (String.list_ascii_of_string c)) in
  let start := if path.is_rooted c then "/" else "" in
  (foldl (λ acc e, (path.Join [acc.1; e], acc.2 ++ [path.Join [acc.1; e]])) (start, []) es).2.

Definition mkdirStep (st : t * option error * string) (q : string) : t * option error * string :=
  let '(fs, err, parent) := st in
  match err with
  | Some _ => st
  | None =>
      match nodes fs !! q with
      | None => (set_nodes (<[q := NDir (devOf fs parent)]> (nodes fs)) fs, None, q)
      | Some (NDir _) => (fs, None, q)
      | Some _ => (fs, Some (ErrOS "mkdir" q ENOTDIR), q)
      end
  end.

Definition MkdirAll (p : string) (fs : t) : t * option error :=
  let '(fs', err, _) := foldl mkdirStep (fs, None, "/") (ancestors p) in
  (fs', err).

Definition OpenFile (p : string) (fs : t) : t * option error :=
  let '(q, n) := follow fs p in
  match n with
  | Some (NFile _) => (fs, None)
  | Some (NDir _) => (fs, Some (ErrOS "open" p EISDIR))
  | Some (NSymlink _) => (fs, Some (ErrOS "open" p EINVAL))
  | None =>
      if isDir fs (path.Dir q)
      then (set_nodes (<[q := NFile ""]> (nodes fs)) fs, None)
      else (fs, Some (ErrOS "open" p ENOENT))
  end.

Definition Open (p : string) (fs : t) : option error :=
  match (follow fs p).2 with
  | Some (NSymlink _) => Some (ErrOS "open" p EINVAL)
  | Some _ => None
  | None => Some (ErrOS "open" p ENOENT)
  end.

Definition ReadAll (p : string) (fs : t) : result string :=
  match (follow fs p).2 with
  | Some (NFile c) => Ok c
  | Some (NDir _) => Err (ErrOS "read" p EISDIR)
  | Some (NSymlink _) => Err (ErrOS "read" p EINVAL)
  | None => Err (ErrOS "read" p ENOENT)
  end.

Definition info (fs : t) (q : string) (n : node) : FileInfo :=
  match n with
  | NDir dev => {| fi_symlink := false; fi_dir := true; fi_Dev := dev |}
  | NFile _ => {| fi_symlink := false; fi_dir := false; fi_Dev := devOf fs (path.Dir q) |}
  | NSymlink _ => {| fi_symlink := true; fi_dir := false; fi_Dev := devOf fs (path.Dir q) |}
  end.

Definition Stat (p : string) (fs : t) : result FileInfo :=
  let '(q, n) := follow fs p in
  match n with
  | Some (NSymlink _) => Err (ErrOS "stat" p EINVAL)
  | Some n => Ok (info fs q n)
  | None => Err (ErrOS "stat" p ENOENT)
  end.

Definition Lstat (p : string) (fs : t) : result FileInfo :=
  let q := path.Clean p in
  match nodes fs !! q with
  | Some n => Ok (info fs q n)
  | None => Err (ErrOS "lstat" p ENOENT)
  end.

Definition Link (oldname newname : string) (fs : t) : t * option error :=
  let o := path.Clean oldname in
  let n := path.Clean newname in
  match nodes fs !! o with
  | None => (fs, Some (ErrOS "link" oldname ENOENT))
  | Some (NDir _) => (fs, Some (ErrOS "link" oldname EINVAL))
  | Some x =>
      match nodes fs !! n with
      | Some _ => (fs, Some (ErrOS "link" newname EEXIST))
      | None =>
          if isDir fs (path.Dir n)
          then (set_nodes (<[n := x]> (nodes fs)) fs, None)
          else (fs, Some (ErrOS "link" newname ENOENT))
      end
  end.

Definition Symlink (oldname newname : string) (fs : t) : t * option error :=
  let n := path.Clean newname in
  match nodes fs !! n with
  | Some _ => (fs, Some (ErrOS "symlink" newname EEXIST))
  | None =>
      if isDir fs (path.Dir n)
      then (set_nodes (<[n := NSymlink oldname]> (nodes fs)) fs, None)
      else (fs, Some (ErrOS "symlink" newname ENOENT))
  end.

(** The entries directly inside the directory [d]. *)
Definition children (fs : t) (d : string) : list string :=
  filter (λ k, k ≠ d ∧ path.Dir k = d) (map fst (map_to_list (nodes fs))).

Definition ReadDir (p : string) (fs : t) : result (list string) :=
  let '(q, n) := follow fs p in
  match n with
  | Some (NDir _) => Ok (SliceStable String.ltb (map base (children fs q)))
  | Some _ => Err (ErrOS "readdir" p ENOTDIR)
  | None => Err (ErrOS "open" p ENOENT)
  end.

Definition Readlink (p : string) (fs : t) : result string :=
  match nodes fs !! path.Clean p with
  | Some (NSymlink target) => Ok target
  | Some _ => Err (ErrOS "readlink" p EINVAL)
  | None => Err (ErrOS "readlink" p ENOENT)
  end.

Definition Remove (p : string) (fs : t) : t * option error :=
  let q := path.Clean p in
  match nodes fs !! q with
  | None => (fs, Some (ErrOS "remove" p ENOENT))
  | Some (NDir _) =>
      match children fs q with
      | [] => (set_nodes (delete q (nodes fs)) fs, None)
      | _ => (fs, Some (ErrOS "remove" p ENOTEMPTY))
      end
  | Some _ => (set_nodes (delete q (nodes fs)) fs, None)
  end.

(** A decoder that knows one document: the empty object, which leaves
    the struct as it is. Every other input used with it is not JSON. *)
Definition Unmarshal (bytes : string) (m : persistentMetadata) : result persistentMetadata :=
  if decide (bytes = "{}") then Ok m
  else Err (ErrJSON "invalid character looking for beginning of value").

End MemFS.

#[export] Instance MemFS_Env : Env MemFS.t := {|
  os_MkdirAll := MemFS.MkdirAll;
  os_OpenFile := MemFS.OpenFile;
  os_Open := MemFS.Open;
  io_ReadAll := MemFS.ReadAll;
  os_Stat := MemFS.Stat;
  os_Lstat := MemFS.Lstat;
  os_Link := MemFS.Link;
  os_Symlink := MemFS.Symlink;
  os_ReadDir := MemFS.ReadDir;
  os_Readlink := MemFS.Readlink;
  os_Remove := MemFS.Remove;
  disk_Usage := λ _ fs, MemFS.usage fs;
  json_Unmarshal := MemFS.Unmarshal;
|}.

(** ** A store implementation over [MemFS], instance of [StoreImpl] *)

Module MemStore.

(** Modelled from the spec: [localTaskStore.Reclaim] is declared outside
    the files under study; section 4.6 step 3 has it "delete data files,
    remove metadata". The data file, the link to it in the store
    directory, the metadata file and the directory are removed; only a
    failure to remove an existing data file is reported. *)
Definition Reclaim (t : localTaskStore) (fs : MemFS.t) : MemFS.t * option error :=
  let '(fs, err) := MemFS.Remove (DataFilePath t) fs in
  let '(fs, _) := MemFS.Remove (path.Join [dataDir t; taskData]) fs in
  let '(fs, _) := MemFS.Remove (metadataFilePath t) fs in
  let '(fs, _) := MemFS.Remove (dataDir t) fs in
  (fs, if os_IsNotExist err then None else err).

(** The driver methods of this instance only touch the store: the
    examples exercise the manager's lookup, not the stores' own code. *)
Definition touching {A R} (r : R) (_ : A) (now : Z) (t : localTaskStore) (fs : MemFS.t)
  : R * localTaskStore * MemFS.t :=
  (r, touch now t, fs).

End MemStore.

#[export] Instance MemFS_StoreImpl : StoreImpl MemFS.t := {|
  Reader := string;
  Closer := unit;
  ReadCloser := string;
  PiecePacket := list Z;
  Reclaim := MemStore.Reclaim;
  store_WritePiece := λ req, MemStore.touching (wp_Length req, None) req;
  store_ReadPiece := MemStore.touching (Some "", Some (), None);
  store_ReadAllPieces := MemStore.touching (Some "", None);
  store_GetPieces := MemStore.touching (Some [], None);
  store_UpdateTask := MemStore.touching None;
  store_Store := MemStore.touching None;
  store_ValidateDigest := MemStore.touching None;
  store_IsInvalid := λ req now t fs, ((invalid t, None), t, fs);
|}.

(** A manager on a data root, before any task is registered. *)
Definition newManager (strategy : StoreStrategy) (opt : StorageOption) (dev : Z) : storageManager :=
  {| storeStrategy := strategy;
     storeOption := opt;
     tasks := [];
     markedReclaimTasks := [];
     dataPathStat_Dev := dev;
     gcInterval := 60000000000;
     indexTask2PeerTask := ∅;
     keepAlive := 0 |}.

Definition newWorld {FS} (s : storageManager) (d : FS) : World FS :=
  mkWorld s [] d [].

(** ** [NewStorageManager] and its options *)

(** [filepath.Abs]: the absolute form of a path, which depends on the
    working directory of the process and fails when that cannot be had. *)
Class Cwd (FS : Type) := {
  filepath_Abs : string → FS → result string;
}.

Definition set_DataPath (v : string) (o : StorageOption) : StorageOption :=
  {| DataPath := v; TaskExpireTime := TaskExpireTime o;
     DiskGCThreshold := DiskGCThreshold o;
     DiskGCThresholdPercent := DiskGCThresholdPercent o |}.

(** [WithStorageOption]: the option that replaces the manager's storage
    option. *)
Definition WithStorageOption (opt : StorageOption) (s : storageManager) : storageManager :=
  {| storeStrategy := storeStrategy s; storeOption := opt; tasks := tasks s;
     markedReclaimTasks := markedReclaimTasks s; dataPathStat_Dev := dataPathStat_Dev s;
     gcInterval := gcInterval s; indexTask2PeerTask := indexTask2PeerTask s;
     keepAlive := keepAlive s |}.

(** The options the package offers for [moreOpts]. *)
Inductive managerOption :=
| OptStorageOption (opt : StorageOption)
| OptGCInterval (gcInterval : Z).

(** An option as the function [NewStorageManager] runs: both set a
    field and return nil. *)
Definition runOption (o : managerOption) (s : storageManager) : result storageManager :=
  match o with
  | OptStorageOption opt => Ok (WithStorageOption opt s)
  | OptGCInterval gcInterval => Ok (WithGCInterval gcInterval s)
  end.

(** The loop over [moreOpts]: the options run in order on the manager,
    and the first error ends the construction. *)
Definition applyOpts (moreOpts : list (storageManager → result storageManager))
    (s : storageManager) : result storageManager :=
  foldl (λ acc o, match acc with
                  | Ok s => o s
                  | Err e => Err e
                  end) (Ok s) moreOpts.

(** The [switch storeStrategy] of [NewStorageManager]: the two named
    strategies pass, the empty string becomes the simple strategy, any
    other string is refused. *)
Definition checkStrategy (storeStrategy : StoreStrategy) : result StoreStrategy :=
  match storeStrategy with
  | SimpleLocalTaskStoreStrategy | AdvanceLocalTaskStoreStrategy => Ok storeStrategy
  | OtherStoreStrategy s =>
      if decide (s = "") then Ok SimpleLocalTaskStoreStrategy
      else Err (ErrNew ("not support store strategy: " +:+ s))
  end.

Section Construction.
Context {FS : Type} `{!Env FS} `{!StoreImpl FS} `{!Cwd FS}.

(** The head of [NewStorageManager]: a relative [DataPath] is made
    absolute. *)
Definition absDataPath (opt : StorageOption) (d : FS) : result StorageOption :=
  if path.is_rooted (DataPath opt) then Ok opt
  else
    match filepath_Abs (DataPath opt) d with
    | Err e => Err e
    | Ok abs => Ok (set_DataPath abs opt)
    end.

(** [os.Stat] of the data path, which is created when it does not exist
    and then inspected again: the result of the last [os.Stat] or the
    error of [os.MkdirAll], the file system and the calls made. *)
Definition statOrCreate (p : string) (d : FS) : result FileInfo * FS * list oscall :=
  match os_Stat p d with
  | Ok stat => (Ok stat, d, [CStat p])
  | Err e =>
      if os_IsNotExist (Some e) then
        let '(d, err) := os_MkdirAll p d in
        match err with
        | Some e' => (Err e', d, [CStat p; CMkdirAll p])
        | None => (os_Stat p d, d, [CStat p; CMkdirAll p; CStat p])
        end
      else (Err e, d, [CStat p])
  end.

(** [NewStorageManager] on the file system [d]: the manager in its
    state, or the error, and the file system the call leaves. The error
    of [ReloadPersistentTask] is logged and dropped; the registration
    with the [gc] package is outside the files under study. *)
Definition NewStorageManager (now : Z) (storeStrategy : StoreStrategy) (opt : StorageOption)
    (moreOpts : list (storageManager → result storageManager)) (d : FS)
  : result (World FS) * FS :=
  match absDataPath opt d with
  | Err e => (Err e, d)
  | Ok opt =>
      let '(stat, d, calls) := statOrCreate (DataPath opt) d in
      match stat with
      | Err e => (Err e, d)
      | Ok stat =>
          match checkStrategy storeStrategy with
          | Err e => (Err e, d)
          | Ok storeStrategy =>
              let s := newManager storeStrategy opt (fi_Dev stat) in
              match applyOpts moreOpts s with
              | Err e => (Err e, d)
              | Ok s =>
                  let w := (ReloadPersistentTask now (mkWorld s [] d (EvOS <$> calls))).2 in
                  (Ok w, disk w)
              end
          end
      end
  end.

End Construction.

(** ** [storeToOutput] on the storage manager *)

Section StoreToOutput.
Context {FS : Type} `{!Env FS} `{!StoreImpl FS}.

(** The request [storeToOutput] hands to [storageManager.Store]. *)
Definition storeRequest (c : peerTaskConductor) (output : string) : StoreRequest :=
  {| sr_common := {| req_PeerID := conductor_PeerID c;
                     req_TaskID := conductor_TaskID c;
                     req_Destination := output |};
     sr_MetadataOnly := false;
     sr_TotalPieces := conductor_TotalPieces c |}.

(** [storeToOutput] with the call of [Store] made on the manager's
    state, for a file task with the output path [output]. *)
Definition storeToOutputOn (now : Z) (c : peerTaskConductor) (output : string)
    (s : sendChoice) (wt : waitChoice) (w : World FS) : list FileTaskProgress * World FS :=
  let '(err, w) := Store now (storeRequest c output) w in
  (storeToOutput c err s wt, w).

End StoreToOutput.

(** The working directory of the examples is the root. *)
#[export] Instance MemFS_Cwd : Cwd MemFS.t := {|
  filepath_Abs := λ p _, Ok (path.Join ["/"; p]);
|}.

(** * The vocabulary of the properties *)

Section Vocabulary.
Context {FS : Type} `{!Env FS} `{!StoreImpl FS}.

(** ** Reuse of a completed task *)

(** A store is reusable when it is neither invalid nor marked for reclaim
    and is done. *)
Definition reusable (h : list localTaskStore) (p : loc) : bool :=
  match h !! p with
  | Some t => negb (invalid t) && negb (reclaimMarked t) && Done t
  | None => false
  end.

(** The first reusable store of a list, in the words of the spec. *)
Definition firstReusable (h : list localTaskStore) (ts : list loc) : option loc :=
  head (filter (λ p, reusable h p = true) ts).

(** The [ReusePeerTask] built from a store. *)
Definition reuseOf (taskID : string) (t : localTaskStore) : ReusePeerTask :=
  {| reuse_meta := {| meta_PeerID := PeerID t; meta_TaskID := taskID |};
     reuse_ContentLength := ContentLength t;
     reuse_TotalPieces := int32 (TotalPieces t) |}.

(** ** The file task's terminal event *)

(** The terminal event of a failed task, as the spec words it: done, not
    successful, with the conductor's failed code and failure message. *)
Definition terminalFailure (c : peerTaskConductor) : FileTaskProgress :=
  {| State := {| Success := false; StateCode := failedCode c; Msg := failedReason c |};
     progress_TaskID := conductor_TaskID c;
     progress_PeerID := conductor_PeerID c;
     progress_ContentLength := conductor_ContentLength c;
     CompletedLength := completedLength c;
     PeerTaskDone := true;
     DoneCallback := true |}.

(** ** Registration *)

(** The calls only the advance strategy makes: [os.Stat] of the
    destination's directory and the creation of a hard or symbolic link. *)
Definition advanceStep (e : event) : bool :=
  match e with
  | EvOS (CStat _) | EvOS (CLink _ _) | EvOS (CSymlink _ _) => true
  | _ => false
  end.

(** The key of a request in the task map. *)
Definition keyOf (req : RegisterTaskRequest) : PeerTaskMetadata :=
  {| meta_PeerID := req_PeerID (reg_common req); meta_TaskID := req_TaskID (reg_common req) |}.

(** The directory of a request's store under the data root. *)
Definition storeDir (s : storageManager) (req : RegisterTaskRequest) : string :=
  path.Join [DataPath (storeOption s); req_TaskID (reg_common req); req_PeerID (reg_common req)].

(** What a successful [CreateTask] leaves behind: one new store object,
    registered under the request's key and appended to the task's index
    list. *)
Definition registeredNew (req : RegisterTaskRequest) (p : loc) (w w' : World FS) : Prop :=
  p = length (heap w) ∧
  (∃ t, heap w' = heap w ++ [t] ∧
        TaskID t = req_TaskID (reg_common req) ∧ PeerID t = req_PeerID (reg_common req) ∧
        reclaimMarked t = false ∧ invalid t = false ∧ Done t = false) ∧
  tasks (mgr w') = tasks_Store (keyOf req) p (tasks (mgr w)) ∧
  indexTask2PeerTask (mgr w') =
    <[req_TaskID (reg_common req) :=
        default [] (indexTask2PeerTask (mgr w) !! req_TaskID (reg_common req)) ++ [p]]>
      (indexTask2PeerTask (mgr w)) ∧
  markedReclaimTasks (mgr w') = markedReclaimTasks (mgr w).

(** The events of a [CreateTask] that takes the simple strategy and
    succeeds. *)
Definition simpleCreateEvents (req : RegisterTaskRequest) (w : World FS) : list event :=
  let dir := storeDir (mgr w) req in
  [EvOS (CMkdirAll dir);
   EvOS (COpenFile (path.Join [dir; taskMetadata]));
   EvOS (COpenFile (path.Join [dir; taskData]));
   EvStore (keyOf req) (length (heap w));
   EvIndexAppend (req_TaskID (reg_common req)) (length (heap w))].

(** ** Marking and the scans of a pass *)

(** The order of a sort by a key, as [sort.SliceStable] takes it. *)
Definition lessBy {A : Type} (key : A → Z) (x y : A) : bool :=
  bool_decide (key x < key y).

(** The heap with the store at [p] marked for reclaim. *)
Definition markAt (h : list localTaskStore) (p : loc) : list localTaskStore :=
  match h !! p with
  | Some t => <[p := MarkReclaim t]> h
  | None => h
  end.

(** The heap with the stores [ps] marked, one after the other. *)
Definition markAll (h : list localTaskStore) (ps : list loc) : list localTaskStore :=
  foldl markAt h ps.

(** The key made of the identifiers of the store at [p]. *)
Definition keyAt (h : list localTaskStore) (p : loc) : PeerTaskMetadata :=
  match h !! p with
  | Some t => {| meta_PeerID := PeerID t; meta_TaskID := TaskID t |}
  | None => {| meta_PeerID := ""; meta_TaskID := "" |}
  end.

(** The content length of the store at [p]. *)
Definition ContentLengthAt (h : list localTaskStore) (p : loc) : Z :=
  match h !! p with
  | Some t => ContentLength t
  | None => 0
  end.

(** What is left to reclaim after the stores [ps] were marked. *)
Definition remaining (h : list localTaskStore) (bytesExceed : Z) (ps : list loc) : Z :=
  foldl (λ b p, int64 (b - ContentLengthAt h p)) bytesExceed ps.

(** Two heaps that differ in reclaim marks only. *)
Definition sameButMarks (h h' : list localTaskStore) : Prop :=
  set_reclaimMarked false <$> h = set_reclaimMarked false <$> h'.

(** The store at [p] can be reclaimed at time [now]. *)
Definition expiredAt (now : Z) (h : list localTaskStore) (p : loc) : bool :=
  match h !! p with
  | Some t => CanReclaim now t
  | None => false
  end.

(** The entries of the task map whose store has expired. *)
Definition expiredEntries (now : Z) (h : list localTaskStore)
    (entries : list (PeerTaskMetadata * loc)) : list (PeerTaskMetadata * loc) :=
  filter (λ kp, expiredAt now h kp.2 = true) entries.

(** One step of the sum over the stores that have not expired. *)
Definition addNotExpired (now : Z) (h : list localTaskStore) (acc : Z)
    (kp : PeerTaskMetadata * loc) : Z :=
  match h !! kp.2 with
  | Some t => if CanReclaim now t then acc else int64 (acc + ContentLength t)
  | None => acc
  end.

(** The total size of the stores that have not expired. *)
Definition totalNotExpired (now : Z) (h : list localTaskStore)
    (entries : list (PeerTaskMetadata * loc)) : Z :=
  foldl (addNotExpired now h) 0 entries.

(** The state after the first scan: the expired stores are marked. *)
Definition afterScan (now : Z) (w : World FS) : World FS :=
  set_heap (markAll (heap w) (expiredEntries now (heap w) (tasks (mgr w))).*2) w.

(** The keys the first scan collects. *)
Definition expiredKeys (now : Z) (w : World FS) : list PeerTaskMetadata :=
  (expiredEntries now (heap w) (tasks (mgr w))).*1.

(** The quota excess: the size of the stores that have not expired, less
    the threshold. *)
Definition quotaExcess (now : Z) (w : World FS) : Z :=
  int64 (totalNotExpired now (heap w) (tasks (mgr w)) - int64 (DiskGCThreshold (storeOption (mgr w)))).

(** The quota test of the pass. *)
Definition quotaExceeded (now : Z) (w : World FS) : bool :=
  bool_decide (0 < DiskGCThreshold (storeOption (mgr w))) && bool_decide (0 < quotaExcess now w).

(** The candidates of the quota pass, oldest access first. *)
Definition gcCandidates (now : Z) (w : World FS) : list loc :=
  SliceStable (olderThan (heap (afterScan now w)))
    (collectCandidates now (gcInterval (mgr w)) (tasks (mgr w)) (heap (afterScan now w))).

(** ** Well-formed states and the deletion loop *)

(** The key a store carries in its own metadata. *)
Definition storeKey (h : list localTaskStore) (p : loc) : option PeerTaskMetadata :=
  (λ t, {| meta_PeerID := PeerID t; meta_TaskID := TaskID t |}) <$> h !! p.

(** The states the manager builds: a key is registered once, a store is
    registered under one key, which is the key in the store's own
    metadata, and the index list of a task holds stores of that task. *)
Definition wf (w : World FS) : Prop :=
  NoDup (tasks (mgr w)).*1 ∧
  NoDup (tasks (mgr w)).*2 ∧
  Forall (λ kp, storeKey (heap w) kp.2 = Some kp.1) (tasks (mgr w)) ∧
  map_Forall (λ tid ps, Forall (λ p, TaskID <$> heap w !! p = Some tid) ps)
             (indexTask2PeerTask (mgr w)).

#[export] Instance wf_dec (w : World FS) : Decision (wf w).
Proof. unfold wf. apply _. Defined.

(** The index after [cleanIndex]. *)
Definition cleanedIndex (h : list localTaskStore) (taskID peerID : string)
    (idx : gmap string (list loc)) : gmap string (list loc) :=
  match idx !! taskID with
  | None => idx
  | Some ts => <[taskID := remainAfterClean h peerID ts]> idx
  end.

(** The store [p] is in some list of the task index. *)
Definition indexed (w : World FS) (p : loc) : Prop :=
  ∃ taskID ps, indexTask2PeerTask (mgr w) !! taskID = Some ps ∧ p ∈ ps.

(** The store [p] is registered under some key of the task map. *)
Definition registered (w : World FS) (p : loc) : Prop :=
  p ∈ (tasks (mgr w)).*2.

(** The events of reclaiming one store of the pending list. *)
Definition reclaimEvents (key : PeerTaskMetadata) (t : localTaskStore) (p : loc) : list event :=
  [EvDelete key; EvCleanIndex (TaskID t) (PeerID t); EvReclaim p].

(** The state after one store of the pending list was reclaimed. *)
Definition afterReclaim (key : PeerTaskMetadata) (p : loc) (t : localTaskStore)
    (d : FS) (w : World FS) : World FS :=
  mkWorld (set_index (cleanedIndex (heap w) (TaskID t) (PeerID t) (indexTask2PeerTask (mgr w)))
             (set_tasks (tasks_Delete key (tasks (mgr w))) (mgr w)))
          (heap w) d (trace w ++ reclaimEvents key t p).

(** The events of the deletion loop: for each store reclaimed, the
    deletion of its key from the task map, the cleaning of the index and
    then the call of [Reclaim], one store after the other. *)
Inductive reclaimTrace (w0 : World FS) (keys : list PeerTaskMetadata) : list event → Prop :=
| reclaimTrace_nil : reclaimTrace w0 keys []
| reclaimTrace_cons key p t evs :
    key ∈ keys →
    tasks_Load key (tasks (mgr w0)) = Some p →
    heap w0 !! p = Some t →
    reclaimTrace w0 keys evs →
    reclaimTrace w0 keys (reclaimEvents key t p ++ evs).

(** What the loop over [keys] makes of a well-formed state [w]. *)
Definition loopResult (w : World FS) (markedTasks : list PeerTaskMetadata)
    (keys : list PeerTaskMetadata) (st' : World FS * list PeerTaskMetadata) : Prop :=
  wf st'.1 ∧
  heap st'.1 = heap w ∧
  tasks (mgr st'.1) `sublist_of` tasks (mgr w) ∧
  (∀ p, indexed st'.1 p → indexed w p) ∧
  st'.2 `sublist_of` markedTasks ∧
  (∀ k, tasks_Load k (tasks (mgr st'.1)) =
        if decide (k ∈ keys) then None else tasks_Load k (tasks (mgr w))) ∧
  ∃ evs, trace st'.1 = trace w ++ evs ∧
         reclaimTrace w keys evs ∧
         (∀ key p, key ∈ keys → tasks_Load key (tasks (mgr w)) = Some p → EvReclaim p ∈ evs) ∧
         (∀ p, EvReclaim p ∈ evs → ¬ registered st'.1 p ∧ ¬ indexed st'.1 p).

(** What the loop of [forceGC] over [entries] makes of a well-formed
    state [w]. *)
Definition forceResult (w : World FS) (entries : list (PeerTaskMetadata * loc))
    (w' : World FS) : Prop :=
  wf w' ∧
  sameButMarks (heap w) (heap w') ∧
  tasks (mgr w') `sublist_of` tasks (mgr w) ∧
  (∀ p, indexed w' p → indexed w p) ∧
  (∀ k, tasks_Load k (tasks (mgr w')) =
        if decide (k ∈ entries.*1) then None else tasks_Load k (tasks (mgr w))) ∧
  ∃ evs, trace w' = trace w ++ evs ∧
         reclaimTrace w entries.*1 evs ∧
         (∀ kp, kp ∈ entries → EvReclaim kp.2 ∈ evs) ∧
         (∀ p, EvReclaim p ∈ evs → ¬ registered w' p ∧ ¬ indexed w' p).

(** ** Sequences of operations *)

(** The operations of the [Manager] interface, and the pass of the GC. *)
Inductive op :=
| OpRegisterTask (now : Z) (req : RegisterTaskRequest)
| OpFindCompletedTask (now : Z) (taskID : string)
| OpTryGC (now : Z)
| OpCleanUp
| OpWritePiece (now : Z) (req : WritePieceRequest)
| OpReadPiece (now : Z) (req : ReadPieceRequest)
| OpReadAllPieces (now : Z) (req : ReadAllPiecesRequest)
| OpStore (now : Z) (req : StoreRequest)
| OpGetPieces (now : Z) (req : PieceTaskRequest)
| OpUpdateTask (now : Z) (req : UpdateTaskRequest)
| OpValidateDigest (now : Z) (req : PeerTaskMetadata)
| OpIsInvalid (now : Z) (req : PeerTaskMetadata).

(** Stores that exist in [w] and are neither registered nor indexed
    there are neither in [w']. *)
Definition noResurface (w w' : World FS) : Prop :=
  (length (heap w) ≤ length (heap w'))%nat ∧
  (∀ p, (p < length (heap w))%nat → registered w' p → registered w p) ∧
  (∀ p, (p < length (heap w))%nat → indexed w' p → indexed w p).

(** The state an operation leaves. *)
Definition run (o : op) (w : World FS) : World FS :=
  match o with
  | OpRegisterTask now req => (RegisterTask now req w).2
  | OpFindCompletedTask now taskID => (FindCompletedTask now taskID w).2
  | OpTryGC now => (TryGC now w).2
  | OpCleanUp => CleanUp w
  | OpWritePiece now req => (WritePiece now req w).2
  | OpReadPiece now req => (ReadPiece now req w).2
  | OpReadAllPieces now req => (ReadAllPieces now req w).2
  | OpStore now req => (Store now req w).2
  | OpGetPieces now req => (GetPieces now req w).2
  | OpUpdateTask now req => (UpdateTask now req w).2
  | OpValidateDigest now req => (ValidateDigest now req w).2
  | OpIsInvalid now req => (IsInvalid now req w).2
  end.

(** The state a sequence of operations leaves. *)
Definition runAll (ops : list op) (w : World FS) : World FS :=
  foldl (λ w o, run o w) w ops.

(** How a reclamation path proceeds from [w] to [w']: every call of
    [Reclaim] comes directly after the deletion of the store's key from
    the task map and the cleaning of the task index under that key; the
    path stores nothing in the task map and appends nothing to the
    index; and a store reclaimed on the path is neither registered nor
    indexed at the end of the path, nor after any operations that
    follow. *)
Definition reclaimsInOrder (w w' : World FS) : Prop :=
  let evs := drop (length (trace w)) (trace w') in
  (∀ pre p post, evs = pre ++ EvReclaim p :: post →
     ∃ key pre', pre = pre' ++ [EvDelete key; EvCleanIndex (meta_TaskID key) (meta_PeerID key)] ∧
                 tasks_Load key (tasks (mgr w)) = Some p) ∧
  (∀ e, e ∈ evs → (∀ k p, e ≠ EvStore k p) ∧ (∀ taskID p, e ≠ EvIndexAppend taskID p)) ∧
  (∀ p, EvReclaim p ∈ evs →
        ∀ ops, ¬ registered (runAll ops w') p ∧ ¬ indexed (runAll ops w') p).

(** ** Reload *)






End Vocabulary.

(** ** The vocabulary of the further properties *)

Section MoreVocabulary.
Context {FS : Type} `{!Env FS} `{!StoreImpl FS}.

(** The events of one round of [forceGC] on the entry [kp], on a heap
    [h]: the key is deleted, the index cleaned under the key's two
    identifiers, and [Reclaim] called on the store. *)
Definition forceEvents (h : list localTaskStore) (kp : PeerTaskMetadata * loc) : list event :=
  [EvDelete kp.1; EvCleanIndex (meta_TaskID kp.1) (meta_PeerID kp.1)] ++
  match h !! kp.2 with
  | Some _ => [EvReclaim kp.2]
  | None => []
  end.

(** Well-formed states in which every indexed store is registered. *)
Definition coherent (w : World FS) : Prop :=
  wf w ∧
  map_Forall (λ _ ps, Forall (λ p, p ∈ (tasks (mgr w)).*2) ps) (indexTask2PeerTask (mgr w)).

#[export] Instance coherent_dec (w : World FS) : Decision (coherent w).
Proof. unfold coherent. apply _. Defined.

(** The store at [p] carries the reclaim mark. *)
Definition markedAt (h : list localTaskStore) (p : loc) : Prop :=
  reclaimMarked <$> h !! p = Some true.

(** A method of a store that leaves the two identifiers of the store
    as they are. *)
Definition keepsIdentity {A} (f : localTaskStore → FS → A * localTaskStore * FS) : Prop :=
  ∀ t d, TaskID (f t d).1.2 = TaskID t ∧ PeerID (f t d).1.2 = PeerID t.

(** The driver methods of the stores leave the identifiers alone. *)
Definition storesKeepIdentity : Prop :=
  (∀ req now, keepsIdentity (store_WritePiece req now)) ∧
  (∀ req now, keepsIdentity (store_ReadPiece req now)) ∧
  (∀ req now, keepsIdentity (store_ReadAllPieces req now)) ∧
  (∀ req now, keepsIdentity (store_Store req now)) ∧
  (∀ req now, keepsIdentity (store_GetPieces req now)) ∧
  (∀ req now, keepsIdentity (store_UpdateTask req now)) ∧
  (∀ req now, keepsIdentity (store_ValidateDigest req now)) ∧
  (∀ req now, keepsIdentity (store_IsInvalid req now)).

End MoreVocabulary.

(** The selections that end [syncProgress]: the success channel, the
    fail channel, and the context done while the progress of an
    unfinished piece is being sent. *)
Definition ends (x : selected * peerTaskConductor) : bool :=
  match x.1 with
  | SelSuccess _ _ _ | SelFail _ _ => true
  | SelPiece piece InnerCtxDone => negb (finished piece)
  | SelPiece _ _ | SelCtxDone => false
  end.

(** The selections that send a progress of the download: an unfinished
    piece whose progress the client takes. *)
Definition reports (x : selected * peerTaskConductor) : bool :=
  match x.1 with
  | SelPiece piece InnerSent => negb (finished piece)
  | _ => false
  end.

(** The terminal event of [sendSuccessProgress]. *)
Definition terminalSuccess (c : peerTaskConductor) : FileTaskProgress :=
  {| State := {| Success := true; StateCode := Code_Success; Msg := "done" |};
     progress_TaskID := conductor_TaskID c;
     progress_PeerID := conductor_PeerID c;
     progress_ContentLength := conductor_ContentLength c;
     CompletedLength := completedLength c;
     PeerTaskDone := true;
     DoneCallback := true |}.

(** The terminal event of [storeToOutput] when [Store] fails with
    [err]. *)
Definition terminalStoreFailure (c : peerTaskConductor) (err : error) : FileTaskProgress :=
  {| State := {| Success := false; StateCode := Code_ClientError; Msg := Error err |};
     progress_TaskID := conductor_TaskID c;
     progress_PeerID := conductor_PeerID c;
     progress_ContentLength := conductor_ContentLength c;
     CompletedLength := completedLength c;
     PeerTaskDone := true;
     DoneCallback := true |}.

(** What is sent of an event [pg], by the choice of the [select]. *)
Definition sentIf (s : sendChoice) (pg : FileTaskProgress) : list FileTaskProgress :=
  match s with
  | SendTaken => [pg]
  | SendCtxDone => []
  end.

(** The fields of a manager that are set when it is built. *)
Definition sameConfig (s s' : storageManager) : Prop :=
  storeStrategy s' = storeStrategy s ∧ storeOption s' = storeOption s ∧
  dataPathStat_Dev s' = dataPathStat_Dev s ∧ gcInterval s' = gcInterval s ∧
  markedReclaimTasks s' = markedReclaimTasks s ∧ keepAlive s' = keepAlive s.

(** The storage options and the GC intervals among a list of options. *)
Definition optsStorage (opts : list managerOption) : list StorageOption :=
  omap (λ o, match o with
             | OptStorageOption opt => Some opt
             | OptGCInterval _ => None
             end) opts.

Definition optsInterval (opts : list managerOption) : list Z :=
  omap (λ o, match o with
             | OptGCInterval i => Some i
             | OptStorageOption _ => None
             end) opts.

(** A result that is not an error. *)
Definition isOk {A} (r : result A) : bool :=
  match r with
  | Ok _ => true
  | Err _ => false
  end.


(** The stores whose [Reclaim] was called, in the order of the calls. *)
Definition reclaimed (evs : list event) : list loc :=
  omap (λ e, match e with
             | EvReclaim p => Some p
             | _ => None
             end) evs.

(** What one operation reclaims, from the state [w] to the state [w']:
    stores registered in [w] and no longer in [w'], each one once. *)
Definition reclaimsOnce {FS} (w w' : World FS) : Prop :=
  ∃ evs, trace w' = trace w ++ evs ∧ NoDup (reclaimed evs) ∧
         ∀ p, p ∈ reclaimed evs → registered w p ∧ ¬ registered w' p.

(** The eight operations of the [TaskStorageDriver]. *)
Definition driverOp (o : op) : bool :=
  match o with
  | OpRegisterTask _ _ | OpFindCompletedTask _ _ | OpTryGC _ | OpCleanUp => false
  | _ => true
  end.

(** The key a driver operation addresses. *)
Definition driverKey (o : op) : PeerTaskMetadata :=
  match o with
  | OpWritePiece _ req => wp_meta req
  | OpReadPiece _ req => rp_meta req
  | OpReadAllPieces _ req => ra_meta req
  | OpStore _ req => {| meta_PeerID := req_PeerID (sr_common req);
                        meta_TaskID := req_TaskID (sr_common req) |}
  | OpGetPieces _ req => {| meta_PeerID := pt_DstPid req; meta_TaskID := pt_TaskId req |}
  | OpUpdateTask _ req => ut_meta req
  | OpValidateDigest _ req => req
  | OpIsInvalid _ req => req
  | OpRegisterTask _ req => {| meta_PeerID := req_PeerID (reg_common req);
                               meta_TaskID := req_TaskID (reg_common req) |}
  | OpFindCompletedTask _ _ | OpTryGC _ | OpCleanUp => {| meta_PeerID := ""; meta_TaskID := "" |}
  end.

(** * Concrete states for the examples *)

Definition conductor0 : peerTaskConductor :=
  {| conductor_TaskID := "task0"; conductor_PeerID := "peer0";
     conductor_ContentLength := 100; completedLength := 40;
     conductor_TotalPieces := 3;
     failedCode := Code_Other 4001; failedReason := "context canceled" |}.

Definition piece0 : pieceInfo := {| piece_num := 0; finished := false |}.

(** A file system with the data root [/data] and a directory [/out], both
    on device 1; disk statistics cannot be read. *)
Definition fs0 : MemFS.t :=
  MemFS.mk (<["/" := MemFS.NDir 1]> (<["/data" := MemFS.NDir 1]> (<["/out" := MemFS.NDir 1]> ∅)))
           (Err (ErrOS "statfs" "/data" ENOENT)).

Definition opt0 : StorageOption :=
  {| DataPath := "/data"; TaskExpireTime := 100; DiskGCThreshold := 0; DiskGCThresholdPercent := 0 |}.

(** A manager with the simple strategy and no thresholds. *)
Definition w0 : World MemFS.t := newWorld (newManager SimpleLocalTaskStoreStrategy opt0 1) fs0.

Definition key0 : PeerTaskMetadata := {| meta_PeerID := "peer0"; meta_TaskID := "task0" |}.

Definition req0 : RegisterTaskRequest :=
  {| reg_common := {| req_PeerID := "peer0"; req_TaskID := "task0"; req_Destination := "" |};
     reg_ContentLength := 100; reg_TotalPieces := 1; reg_PieceMd5Sign := "" |}.

Definition rangeRequest : FileTaskRequest :=
  {| ftr_PeerTaskRequest :=
       {| Url := "http://origin/blob";
          ptr_UrlMeta := Some {| um_Digest := ""; um_Tag := ""; um_Range := "0-99";
                                 um_Filter := ""; um_Header := [] |};
          PeerId := "peer0"; IsMigrating := false |};
     Output := "/out/blob"; Limit := 0; DisableBackSource := false;
     Pattern := "p2p"; Callsystem := "" |}.

(** A manager whose prefetch flag is set ([peerTaskManager] is the flag),
    on a host where no conductor can be had: registration fails. *)
Definition noConductor (ctx : unit) (taskID : string) (r : PeerTaskRequest) (limit : Q) (ptm : bool)
  : result unit * bool :=
  (Err (ErrNew "register peer task failed"), ptm).

(** A manager with the advance strategy on the same file system. *)
Definition wAdvance : World MemFS.t := newWorld (newManager AdvanceLocalTaskStoreStrategy opt0 1) fs0.

(** A request whose destination lies in a directory that does not exist. *)
Definition reqMissingDir : RegisterTaskRequest :=
  {| reg_common := {| req_PeerID := "peer0"; req_TaskID := "task0";
                      req_Destination := "/missing/dir/out.bin" |};
     reg_ContentLength := 100; reg_TotalPieces := 1; reg_PieceMd5Sign := "" |}.

Definition reqEmptyDestination : RegisterTaskRequest := req0.

Definition reqOf (taskID peerID : string) (size : Z) : RegisterTaskRequest :=
  {| reg_common := {| req_PeerID := peerID; req_TaskID := taskID; req_Destination := "" |};
     reg_ContentLength := size; reg_TotalPieces := 1; reg_PieceMd5Sign := "" |}.


(** One store, registered at time 5, with an expiry time of 100. *)
Definition wOne : World MemFS.t := (RegisterTask 5 req0 w0).2.

(** The store of [wOne], marked by a pass at time 1000. *)
Definition wMarked : World MemFS.t := (TryGC 1000 wOne).2.

(** A data root left by an unclean shutdown: the directory of task0 and
    peer0 holds a metadata file with valid content and no data file; the
    directory of task1 and peer1 holds a metadata file that does not
    decode, a data file and one more file. *)
Definition fsCrashed : MemFS.t :=
  MemFS.mk (list_to_map
              [("/", MemFS.NDir 1); ("/data", MemFS.NDir 1);
               ("/data/task0", MemFS.NDir 1); ("/data/task0/peer0", MemFS.NDir 1);
               ("/data/task0/peer0/metadata", MemFS.NFile "{}");
               ("/data/task1", MemFS.NDir 1); ("/data/task1/peer1", MemFS.NDir 1);
               ("/data/task1/peer1/metadata", MemFS.NFile "{truncated");
               ("/data/task1/peer1/data", MemFS.NFile "abc");
               ("/data/task1/peer1/metadata.tmp", MemFS.NFile "")])
           (Err (ErrOS "statfs" "/data" ENOENT)).

Definition wCrashed : World MemFS.t := newWorld (newManager SimpleLocalTaskStoreStrategy opt0 1) fsCrashed.


(** The manager [NewStorageManager] builds on [fs0] for the empty
    strategy and the relative data path [data], with a GC interval of
    10. *)
Definition wBuilt : World MemFS.t :=
  match (NewStorageManager 1 (OtherStoreStrategy "") (set_DataPath "data" opt0)
           (runOption <$> [OptGCInterval 10]) fs0).1 with
  | Ok w => w
  | Err _ => w0
  end.

(** Operations on the store of [wOne]: it expires, is marked, reclaimed
    and registered anew, and all is cleaned up. *)
Definition opsOne : list op :=
  [OpTryGC 1000; OpFindCompletedTask 1001 "task0"; OpTryGC 1002;
   OpRegisterTask 1003 req0; OpValidateDigest 1004 key0; OpCleanUp].

(** * Properties *)

(** Membership in an explicit list, case by case. *)
Ltac elem_cases H :=
  repeat (apply elem_of_cons in H as [H|H]; [try discriminate H|]);
  try (by apply elem_of_nil in H).

(** ** Go paths *)

Example path_Join_data : path.Join ["/var/lib/dragonfly"; "task0"; "peer0"] = "/var/lib/dragonfly/task0/peer0".
Proof. reflexivity. Qed.

Example path_Join_clean : path.Join ["/a//b/"; "./c"; "../d"] = "/a/b/d".
Proof. reflexivity. Qed.

Example path_Split_file : path.Split "/out/dir/file.bin" = ("/out/dir/", "file.bin").
Proof. reflexivity. Qed.

Example path_Split_nodir : path.Split "file.bin" = ("", "file.bin").
Proof. reflexivity. Qed.

Example path_Clean_root : path.Clean "/../a/.." = "/".
Proof. reflexivity. Qed.

Example path_Clean_empty : path.Clean "" = ".".
Proof. reflexivity. Qed.

(** ** The store a task can be served from *)

Lemma reusable_touch h q tq now p :
  h !! q = Some tq →
  reusable (<[q := touch now tq]> h) p = reusable h p.
Proof.
  intros Hq. unfold reusable.
  destruct (decide (p = q)) as [->|Hne].
  - rewrite list_lookup_insert_eq; [|by eapply lookup_lt_Some]. by rewrite Hq.
  - by rewrite list_lookup_insert_ne.
Qed.

Lemma firstReusable_touch h q tq now ts :
  h !! q = Some tq →
  firstReusable (<[q := touch now tq]> h) ts = firstReusable h ts.
Proof.
  intros Hq. unfold firstReusable. f_equal.
  induction ts as [|p ts IH]; [done|].
  rewrite !filter_cons, IH, (reusable_touch _ _ _ _ _ Hq).
  destruct (decide (reusable h p = true)); done.
Qed.

Lemma lookup_touch_inv (h : list localTaskStore) q tq now p t1 :
  h !! q = Some tq →
  <[q := touch now tq]> h !! p = Some t1 →
  ∃ t, h !! p = Some t ∧ ∀ taskID, reuseOf taskID t1 = reuseOf taskID t.
Proof.
  intros Hq H1. destruct (decide (p = q)) as [->|Hne].
  - rewrite list_lookup_insert_eq in H1; [|by eapply lookup_lt_Some].
    injection H1 as <-. eauto.
  - rewrite list_lookup_insert_ne in H1 by done. eauto.
Qed.

Lemma findCompleted_length now taskID ts h :
  length (findCompleted now taskID ts h).2 = length h.
Proof.
  revert h. induction ts as [|p ts IH]; intros h; simpl; [done|].
  destruct (h !! p) as [t|]; [|done].
  destruct (invalid t); [done|].
  destruct (reclaimMarked t); [by rewrite IH, length_insert|].
  destruct (Done t); simpl; [by rewrite length_insert|].
  by rewrite IH, length_insert.
Qed.

(** Once touched at [now], a store stays so through the rest of the loop. *)
Lemma findCompleted_keeps_touched now taskID ts h p :
  lastAccess <$> h !! p = Some now →
  lastAccess <$> (findCompleted now taskID ts h).2 !! p = Some now.
Proof.
  revert h. induction ts as [|q ts IH]; intros h Hp; simpl; [done|].
  assert (∀ tq, h !! q = Some tq →
            lastAccess <$> <[q := touch now tq]> h !! p = Some now) as Hins.
  { intros tq Hq. destruct (decide (p = q)) as [->|Hne].
    - rewrite list_lookup_insert_eq; [done|by eapply lookup_lt_Some].
    - by rewrite list_lookup_insert_ne. }
  destruct (h !! q) as [tq|] eqn:Hq; [|by apply IH].
  destruct (invalid tq); [by apply IH|].
  destruct (reclaimMarked tq); [by apply IH, Hins|].
  destruct (Done tq); simpl; [by apply Hins|by apply IH, Hins].
Qed.

Lemma firstReusable_cons h q ts :
  firstReusable h (q :: ts) = if reusable h q then Some q else firstReusable h ts.
Proof.
  unfold firstReusable. rewrite filter_cons.
  destruct (reusable h q); case_decide; done.
Qed.

Lemma findCompleted_spec now taskID ts h :
  match firstReusable h ts with
  | Some p =>
      ∃ t, h !! p = Some t ∧
           (findCompleted now taskID ts h).1 = Some (reuseOf taskID t) ∧
           lastAccess <$> (findCompleted now taskID ts h).2 !! p = Some now
  | None => (findCompleted now taskID ts h).1 = None
  end.
Proof.
  revert h. induction ts as [|q ts IH]; intros h; [done|].
  rewrite firstReusable_cons. simpl findCompleted. unfold reusable at 1.
  destruct (h !! q) as [tq|] eqn:Hq; [|apply IH].
  destruct (invalid tq) eqn:Hinv; simpl; [apply IH|].
  assert (∀ p t1, <[q := touch now tq]> h !! p = Some t1 →
            ∃ t, h !! p = Some t ∧ reuseOf taskID t1 = reuseOf taskID t) as Hback.
  { intros p t1 H1. destruct (lookup_touch_inv _ _ _ _ _ _ Hq H1) as (t & ? & ?). eauto. }
  specialize (IH (<[q := touch now tq]> h)).
  rewrite (firstReusable_touch _ _ _ _ _ Hq) in IH.
  destruct (reclaimMarked tq) eqn:Hmark; simpl.
  { destruct (firstReusable h ts) as [p|]; [|done].
    destruct IH as (t1 & H1 & Hr & Ht).
    destruct (Hback _ _ H1) as (t & ? & Heq). exists t. by rewrite Hr, Heq. }
  destruct (Done tq) eqn:Hdone; simpl.
  - exists tq. split_and!; [done|done|].
    rewrite list_lookup_insert_eq; [done|by eapply lookup_lt_Some].
  - destruct (firstReusable h ts) as [p|]; [|done].
    destruct IH as (t1 & H1 & Hr & Ht).
    destruct (Hback _ _ H1) as (t & ? & Heq). exists t. by rewrite Hr, Heq.
Qed.

Lemma firstReusable_first h ts p :
  firstReusable h ts = Some p →
  ∃ i, ts !! i = Some p ∧ reusable h p = true ∧
       ∀ j q, (j < i)%nat → ts !! j = Some q → reusable h q = false.
Proof.
  induction ts as [|q ts IH]; [done|].
  rewrite firstReusable_cons. destruct (reusable h q) eqn:Hq.
  - intros [= <-]. exists 0%nat. split_and!; [done|done|lia].
  - intros (i & Hi & Hp & Hbefore)%IH. exists (S i). split_and!; [done|done|].
    intros [|j] q' Hj; simpl; [by intros [= <-]|].
    intros ?. eapply Hbefore; [|done]. lia.
Qed.

(** C4. For every task id, [FindCompletedTask] answers from the first
    store in the task's index list that is not invalid, not marked for
    reclaim and done: it returns the [ReusePeerTask] built from that store
    (its peer id, the task id asked for, its content length and total
    pieces) and sets the store's last-access time to the current time.
    It returns nil when the list has no such store, and when the task id
    is not indexed (the state is then unchanged). *)
Theorem FindCompletedTask_first_reusable {FS} (now : Z) (taskID : string) (w : World FS) :
  match indexTask2PeerTask (mgr w) !! taskID with
  | None => FindCompletedTask now taskID w = (None, w)
  | Some ts =>
      match firstReusable (heap w) ts with
      | Some p =>
          (∃ i, ts !! i = Some p ∧ reusable (heap w) p = true ∧
                ∀ j q, (j < i)%nat → ts !! j = Some q → reusable (heap w) q = false) ∧
          ∃ t, heap w !! p = Some t ∧
               (FindCompletedTask now taskID w).1 = Some (reuseOf taskID t) ∧
               lastAccess <$> heap (FindCompletedTask now taskID w).2 !! p = Some now
      | None =>
          (∀ p, p ∈ ts → reusable (heap w) p = false) ∧
          (FindCompletedTask now taskID w).1 = None
      end
  end.
Proof.
  unfold FindCompletedTask.
  destruct (indexTask2PeerTask (mgr w) !! taskID) as [ts|]; [|done].
  pose proof (findCompleted_spec now taskID ts (heap w)) as Hspec.
  destruct (firstReusable (heap w) ts) as [p|] eqn:Hfirst.
  - split; [by apply firstReusable_first|].
    destruct Hspec as (t & Ht & Hr & Hacc). exists t.
    destruct (findCompleted now taskID ts (heap w)) as [r h]. simpl in *. done.
  - split.
    + intros p Hp. destruct (reusable (heap w) p) eqn:Hre; [|done].
      unfold firstReusable in Hfirst. apply head_None in Hfirst.
      assert (p ∈ filter (λ p, reusable (heap w) p = true) ts) as Hin
        by by apply list_elem_of_filter.
      rewrite Hfirst in Hin. by apply not_elem_of_nil in Hin.
    + destruct (findCompleted now taskID ts (heap w)) as [r h]. simpl in *. done.
Qed.

(** ** Operations on a key that is not registered *)

Section NotFound.

Context {FS : Type} `{!Env FS} `{!StoreImpl FS}.

Lemma meta_eta (k : PeerTaskMetadata) :
  {| meta_PeerID := meta_PeerID k; meta_TaskID := meta_TaskID k |} = k.
Proof. by destruct k. Qed.

Lemma LoadTask_absent now key (w : World FS) :
  tasks_Load key (tasks (mgr w)) = None →
  LoadTask now key w = (None, Keep now w).
Proof. intros Hk. unfold LoadTask. simpl. by rewrite Hk. Qed.

(** C9. For a key under which no store is registered, each of
    [WritePiece], [ReadPiece], [ReadAllPieces], [Store], [GetPieces],
    [UpdateTask], [ValidateDigest] and [IsInvalid] returns
    [ErrTaskNotFound] with zero results (0, nil, false), and leaves the
    task map and the task index as they were: the only change of state is
    the manager's keep-alive time. *)
Theorem not_found_operations (now : Z) (key : PeerTaskMetadata) (w : World FS) :
  tasks_Load key (tasks (mgr w)) = None →
  (∀ req, wp_meta req = key →
     WritePiece now req w = ((0, Some ErrTaskNotFound), Keep now w)) ∧
  (∀ req, rp_meta req = key →
     ReadPiece now req w = ((None, None, Some ErrTaskNotFound), Keep now w)) ∧
  (∀ req, ra_meta req = key →
     ReadAllPieces now req w = ((None, Some ErrTaskNotFound), Keep now w)) ∧
  (∀ req, req_PeerID (sr_common req) = meta_PeerID key →
          req_TaskID (sr_common req) = meta_TaskID key →
     Store now req w = (Some ErrTaskNotFound, Keep now w)) ∧
  (∀ req, pt_DstPid req = meta_PeerID key → pt_TaskId req = meta_TaskID key →
     GetPieces now req w = ((None, Some ErrTaskNotFound), Keep now w)) ∧
  (∀ req, ut_meta req = key →
     UpdateTask now req w = (Some ErrTaskNotFound, Keep now w)) ∧
  ValidateDigest now key w = (Some ErrTaskNotFound, Keep now w) ∧
  IsInvalid now key w = ((false, Some ErrTaskNotFound), Keep now w) ∧
  tasks (mgr (Keep now w)) = tasks (mgr w) ∧
  indexTask2PeerTask (mgr (Keep now w)) = indexTask2PeerTask (mgr w) ∧
  heap (Keep now w) = heap w ∧
  disk (Keep now w) = disk w ∧
  trace (Keep now w) = trace w.
Proof.
  intros Hk. pose proof (LoadTask_absent now key w Hk) as Hload.
  split_and!; try done.
  - intros req <-. unfold WritePiece. by rewrite meta_eta, Hload.
  - intros req <-. unfold ReadPiece. by rewrite meta_eta, Hload.
  - intros req <-. unfold ReadAllPieces. by rewrite meta_eta, Hload.
  - intros req H1 H2. unfold Store. by rewrite H1, H2, meta_eta, Hload.
  - intros req H1 H2. unfold GetPieces. by rewrite H1, H2, meta_eta, Hload.
  - intros req <-. unfold UpdateTask. by rewrite meta_eta, Hload.
  - unfold ValidateDigest. by rewrite meta_eta, Hload.
  - unfold IsInvalid. by rewrite meta_eta, Hload.
Qed.

End NotFound.

(** ** The file task's terminal failure event *)

Lemma syncProgress_app pre evs rest :
  syncProgress pre = (evs, false) →
  syncProgress (pre ++ rest) = (evs ++ (syncProgress rest).1, (syncProgress rest).2).
Proof.
  revert evs. induction pre as [|[sel c] pre IH]; intros evs; simpl.
  - intros [= <-]. by destruct (syncProgress rest).
  - destruct sel as [storeErr s wt|s wt| |piece i]; try done.
    + apply IH.
    + destruct (finished piece); [apply IH|].
      destruct i; [apply IH| |done].
      destruct (syncProgress pre) as [sent returned] eqn:Hpre.
      intros [= <- ->]. by rewrite (IH sent eq_refl).
Qed.

(** C7 (as amended). When the outer [select] of [syncProgress] takes the
    fail channel, the file task emits at most one more event and returns,
    so that nothing follows: exactly one terminal event (done, not
    successful, with the conductor's failed code and failure message)
    when the send on the progress channel is taken, and none when the
    task's context is done first. *)
Theorem syncProgress_fail_channel pre evs s wt c post :
  syncProgress pre = (evs, false) →
  syncProgress (pre ++ (SelFail s wt, c) :: post) =
    (evs ++ match s with
            | SendTaken => [terminalFailure c]
            | SendCtxDone => []
            end, true) ∧
  PeerTaskDone (terminalFailure c) = true ∧
  Success (State (terminalFailure c)) = false ∧
  StateCode (State (terminalFailure c)) = failedCode c ∧
  Msg (State (terminalFailure c)) = failedReason c.
Proof.
  intros Hpre. split; [|done].
  rewrite (syncProgress_app _ _ _ Hpre). simpl.
  unfold sendFailProgress. by destruct s, wt.
Qed.

Lemma syncProgress_fail_channel_witness :
  syncProgress [(SelPiece piece0 InnerSent, conductor0); (SelFail SendTaken WaitStopped, conductor0)]
  = ([downloading conductor0; terminalFailure conductor0], true).
Proof.
  exact (proj1 (syncProgress_fail_channel
                  [(SelPiece piece0 InnerSent, conductor0)] [downloading conductor0]
                  SendTaken WaitStopped conductor0 [] eq_refl)).
Defined.

(** The fail channel fires while the context is done and nobody receives:
    [sendFailProgress] takes the [ctx.Done()] case, the function returns
    and no terminal event was emitted. *)
Lemma syncProgress_fail_without_event :
  syncProgress [(SelFail SendCtxDone WaitCtxDone, conductor0)] = ([], true) ∧
  ¬ ∃ pg, (syncProgress [(SelFail SendCtxDone WaitCtxDone, conductor0)]).1 = [pg] ∧
          PeerTaskDone pg = true.
Proof. split; [done|]. by intros (pg & ? & ?). Qed.

Lemma not_found_operations_witness :
  tasks_Load key0 (tasks (mgr w0)) = None ∧
  ValidateDigest 7 key0 w0 = (Some ErrTaskNotFound, Keep 7 w0) ∧
  IsInvalid 7 key0 w0 = ((false, Some ErrTaskNotFound), Keep 7 w0).
Proof.
  split; [reflexivity|].
  pose proof (not_found_operations 7 key0 w0 eq_refl) as H.
  split; apply H.
Defined.

(** ** Prefetch in [newFileTask] *)

Section FileTaskProperties.

Context {peerTaskManager context span conductor channel : Type}.

Context (enablePrefetch : peerTaskManager → bool).

Context (getPeerTaskConductor :
  context → string → PeerTaskRequest → Q → peerTaskManager → result conductor * peerTaskManager).

Context (idgen_TaskID : string → option UrlMeta → string).

Context (tracer_Start : context → context * span).

Context (Subscribe : conductor → channel).

(** C8 (as amended). [newFileTask] spawns the prefetch of the full object
    if and only if [getPeerTaskConductor] succeeded, the manager's
    prefetch flag is enabled and the request's [UrlMeta] has a non-empty
    [Range]; the request handed to the prefetch is the caller's. Whenever
    [newFileTask] returns, the conductor, task and error it returns are
    those that [getPeerTaskConductor] and the request determine, with or
    without the spawning, and the manager is left as
    [getPeerTaskConductor] left it. *)
Theorem newFileTask_prefetch (ctx : context) (request : FileTaskRequest) (limit : Q)
    (ptm : peerTaskManager) :
  let pr := ftr_PeerTaskRequest request in
  let got := getPeerTaskConductor ctx (idgen_TaskID (Url pr) (ptr_UrlMeta pr)) pr limit ptm in
  let res := newFileTask enablePrefetch getPeerTaskConductor idgen_TaskID tracer_Start Subscribe
               ctx request limit ptm in
  ((∃ r, EffGoPrefetch r ∈ res.2) ↔
     (∃ ptc, got.1 = Ok ptc) ∧ enablePrefetch got.2 = true ∧
     ∃ meta, ptr_UrlMeta pr = Some meta ∧ um_Range meta ≠ "") ∧
  (∀ r, EffGoPrefetch r ∈ res.2 → r = pr) ∧
  (∀ x, res.1.1 = Returned x →
        x = match got.1 with
            | Err err => Err err
            | Ok ptc => Ok (buildFileTask tracer_Start Subscribe ctx request ptc)
            end) ∧
  res.1.2 = got.2.
Proof.
  intros pr got res. subst res. unfold newFileTask. fold pr. fold got.
  destruct got as [[ptc|err] ptm']; simpl.
  - destruct (enablePrefetch ptm') eqn:Hflag; simpl.
    + destruct (ptr_UrlMeta pr) as [meta|] eqn:Hmeta; simpl.
      * case_decide as Hrange; simpl.
        -- split_and!; [|intros r Hr; elem_cases Hr; by injection Hr|by intros x [= <-]|done].
           split; [intros _; eauto 10|intros _; exists pr].
           apply list_elem_of_In. simpl. tauto.
        -- split_and!; [|intros r Hr; elem_cases Hr|by intros x [= <-]|done].
           split; [intros [r Hr]; elem_cases Hr|].
           intros (_ & _ & m & [= <-] & Hne). exfalso. by apply Hne.
      * split_and!; [|intros r Hr; elem_cases Hr|done|done].
        split; [intros [r Hr]; elem_cases Hr|]. by intros (_ & _ & m & ? & _).
    + split_and!; [|intros r Hr; elem_cases Hr|by intros x [= <-]|done].
      split; [intros [r Hr]; elem_cases Hr|]. by intros (_ & ? & _).
  - split_and!; [|intros r Hr; elem_cases Hr|by intros x [= <-]|done].
    split; [intros [r Hr]; elem_cases Hr|]. by intros ([ptc Hptc] & _).
Qed.

End FileTaskProperties.

(** The flag is enabled and the range is not empty, and yet nothing is
    spawned: [newFileTask] has returned the conductor's error before. *)
Lemma newFileTask_no_prefetch_on_error :
  let res := newFileTask (λ ptm : bool, ptm) noConductor (λ url _, url)
               (λ ctx : unit, (ctx, ())) (λ _ : unit, ()) () rangeRequest 0 true in
  (∃ meta, ptr_UrlMeta (ftr_PeerTaskRequest rangeRequest) = Some meta ∧ um_Range meta ≠ "") ∧
  res.1.1 = Returned (Err (ErrNew "register peer task failed")) ∧
  res.2 = [EffFileTaskCount] ∧
  ¬ ∃ r, EffGoPrefetch r ∈ res.2.
Proof.
  simpl. split_and!; [eauto|done|done|].
  intros (r & Hr). elem_cases Hr.
Qed.

(** ** [CreateTask] and [RegisterTask] *)

Section Register.

Context {FS : Type} `{!Env FS} `{!StoreImpl FS}.

Lemma createData_frame s req data t (w : World FS) :
  let res := createData s req data t w in
  mgr res.2 = mgr w ∧ heap res.2 = heap w ∧
  match res.1 with
  | Ok t' => TaskID t' = TaskID t ∧ PeerID t' = PeerID t ∧ reclaimMarked t' = reclaimMarked t ∧
             invalid t' = invalid t ∧ Done t' = Done t ∧ StoreStrategyOf t' = StoreStrategyOf t
  | Err _ => True
  end.
Proof.
  unfold createData, sys, ask.
  repeat (case_match; simpl in *; simplify_eq); done.
Qed.

Lemma CreateTask_result now req (w : World FS) :
  match (CreateTask now req w).1 with
  | Ok p => registeredNew req p w (CreateTask now req w).2
  | Err _ =>
      tasks (mgr (CreateTask now req w).2) = tasks (mgr w) ∧
      indexTask2PeerTask (mgr (CreateTask now req w).2) = indexTask2PeerTask (mgr w) ∧
      markedReclaimTasks (mgr (CreateTask now req w).2) = markedReclaimTasks (mgr w) ∧
      heap (CreateTask now req w).2 = heap w
  end.
Proof.
  unfold CreateTask, sys.
  destruct (os_MkdirAll _ _) as [d1 e1]. simpl.
  destruct (fatalMkdir e1); [done|].
  destruct (os_OpenFile _ _) as [d2 e2]. simpl.
  destruct e2; [done|].
  match goal with |- context [createData ?s ?r ?d ?t ?w] =>
    pose proof (createData_frame s r d t w) as Hframe;
    destruct (createData s r d t w) as [[t'|e] w'] end; simpl in *.
  - destruct Hframe as (Hm & Hh & Ht & Hp & Hmk & Hinv & Hdone & _).
    unfold registeredNew, storeNew, indexAppend, keyOf. simpl.
    rewrite Hm, Hh. simpl. split_and!; try done.
    + exists t'. split_and!; try done.
      * rewrite Ht. by case_decide.
      * rewrite Hp. by case_decide.
      * rewrite Hmk. by case_decide.
      * rewrite Hinv. by case_decide.
      * rewrite Hdone. by case_decide.
    + by destruct (indexTask2PeerTask (mgr w) !! req_TaskID (reg_common req)).
  - destruct Hframe as (Hm & Hh & _). by rewrite Hm, Hh.
Qed.

End Register.

Lemma tasks_Load_app k m1 m2 :
  tasks_Load k (m1 ++ m2) = match tasks_Load k m1 with
                            | Some p => Some p
                            | None => tasks_Load k m2
                            end.
Proof.
  induction m1 as [|[k' p'] m1 IH]; simpl; [done|].
  by case_decide.
Qed.

Lemma tasks_Load_replace k p m :
  is_Some (tasks_Load k m) → tasks_Load k (tasks_replace k p m) = Some p.
Proof.
  induction m as [|[k' p'] m IH]; simpl; [by intros [? ?]|].
  case_decide; simpl; case_decide; done.
Qed.

Lemma tasks_Load_Store_eq k p m : tasks_Load k (tasks_Store k p m) = Some p.
Proof.
  unfold tasks_Store. destruct (tasks_Load k m) eqn:Hk.
  - apply tasks_Load_replace. by rewrite Hk.
  - rewrite tasks_Load_app, Hk. simpl. by case_decide.
Qed.

Section RegisterIdempotent.

Context {FS : Type} `{!Env FS} `{!StoreImpl FS}.

Lemma RegisterTask_present now req (w : World FS) p :
  tasks_Load (keyOf req) (tasks (mgr w)) = Some p →
  RegisterTask now req w = (Ok p, Keep now w).
Proof. intros Hk. unfold RegisterTask, LoadTask. simpl. fold (keyOf req). by rewrite Hk. Qed.

Lemma RegisterTask_absent now req (w : World FS) :
  tasks_Load (keyOf req) (tasks (mgr w)) = None →
  RegisterTask now req w = CreateTask now req (Keep now (Keep now w)).
Proof. intros Hk. unfold RegisterTask, LoadTask. simpl. fold (keyOf req). by rewrite Hk. Qed.

(** C3 (as amended). [RegisterTask] is idempotent. If a store is already
    registered under the request's (TaskID, PeerID), it returns that
    store and creates nothing (only the keep-alive time changes).
    Otherwise it either fails with the error of creating the directory or
    the files, registering nothing, or it creates exactly one new store
    object, registers it under the key and appends it to the task's index
    list. After a call that returned a store, a repeated call with the
    same arguments returns that same store and creates nothing. *)
Theorem RegisterTask_idempotent (now : Z) (req : RegisterTaskRequest) (w : World FS) :
  (∀ p, tasks_Load (keyOf req) (tasks (mgr w)) = Some p →
        RegisterTask now req w = (Ok p, Keep now w)) ∧
  (tasks_Load (keyOf req) (tasks (mgr w)) = None →
     match (RegisterTask now req w).1 with
     | Ok p =>
         registeredNew req p w (RegisterTask now req w).2 ∧
         tasks (mgr (RegisterTask now req w).2) = tasks (mgr w) ++ [(keyOf req, p)]
     | Err _ =>
         tasks (mgr (RegisterTask now req w).2) = tasks (mgr w) ∧
         indexTask2PeerTask (mgr (RegisterTask now req w).2) = indexTask2PeerTask (mgr w) ∧
         heap (RegisterTask now req w).2 = heap w
     end) ∧
  (∀ p w1, RegisterTask now req w = (Ok p, w1) →
           ∀ now', RegisterTask now' req w1 = (Ok p, Keep now' w1)).
Proof.
  split_and!.
  - intros p. apply RegisterTask_present.
  - intros Hk. rewrite (RegisterTask_absent _ _ _ Hk).
    pose proof (CreateTask_result now req (Keep now (Keep now w))) as Hres.
    destruct (CreateTask now req (Keep now (Keep now w))) as [[p|e] w1]; simpl in *.
    + split; [done|]. destruct Hres as (_ & _ & Ht & _). simpl in Ht. rewrite Ht.
      unfold tasks_Store. by rewrite Hk.
    + by destruct Hres as (? & ? & _ & ?).
  - intros p w1 Hreg now'. apply RegisterTask_present.
    destruct (tasks_Load (keyOf req) (tasks (mgr w))) as [p0|] eqn:Hk.
    + rewrite (RegisterTask_present _ _ _ _ Hk) in Hreg. by injection Hreg as <- <-.
    + rewrite (RegisterTask_absent _ _ _ Hk) in Hreg.
      pose proof (CreateTask_result now req (Keep now (Keep now w))) as Hres.
      rewrite Hreg in Hres. simpl in Hres. destruct Hres as (_ & _ & Ht & _).
      rewrite Ht. apply tasks_Load_Store_eq.
Qed.

End RegisterIdempotent.

Lemma RegisterTask_idempotent_witness :
  (RegisterTask 5 req0 w0).1 = Ok 0%nat ∧
  RegisterTask 9 req0 (RegisterTask 5 req0 w0).2 =
    (Ok 0%nat, Keep 9 (RegisterTask 5 req0 w0).2).
Proof.
  split; [reflexivity|].
  apply (proj2 (proj2 (RegisterTask_idempotent 5 req0 w0)) 0%nat).
  vm_compute. reflexivity.
Defined.

(** No store is registered under the key, and [RegisterTask] creates
    none: the destination's directory cannot be inspected, and the error
    of [os.Stat] is returned. *)
Lemma RegisterTask_fails_without_store :
  tasks_Load (keyOf reqMissingDir) (tasks (mgr wAdvance)) = None ∧
  (RegisterTask 5 reqMissingDir wAdvance).1 = Err (ErrOS "stat" "/missing/dir/" ENOENT) ∧
  tasks (mgr (RegisterTask 5 reqMissingDir wAdvance).2) = [] ∧
  indexTask2PeerTask (mgr (RegisterTask 5 reqMissingDir wAdvance).2) = ∅ ∧
  heap (RegisterTask 5 reqMissingDir wAdvance).2 = [].
Proof. vm_compute. done. Qed.

(** ** The store strategy of a request without destination *)

Section EmptyDestination.

Context {FS : Type} `{!Env FS} `{!StoreImpl FS}.

(** C10. For a request whose [Destination] is empty, whatever strategy
    the manager is configured with, [CreateTask] takes the simple
    strategy: it creates the store directory, the metadata file and the
    data file at [dataRoot/<TaskID>/<PeerID>/data], in this order and as
    far as these calls succeed, and makes no other call: none of the
    advance strategy (no [os.Stat] of a destination directory, no hard or
    symbolic link). A store it returns has the simple strategy and that
    data file path; and it does return a store when the directory and
    the two files can be created. Hence a call that makes a step of the
    advance strategy has a non-empty [Destination]. *)
Theorem CreateTask_empty_destination (now : Z) (req : RegisterTaskRequest) (w : World FS) :
  let dir := storeDir (mgr w) req in
  let meta := path.Join [dir; taskMetadata] in
  let data := path.Join [dir; taskData] in
  let res := CreateTask now req w in
  (req_Destination (reg_common req) = "" →
     (∃ evs, trace res.2 = trace w ++ evs ∧
             evs `prefix_of` simpleCreateEvents req w ∧
             (is_Some (match res.1 with Ok p => Some p | Err _ => None end) →
              evs = simpleCreateEvents req w)) ∧
     (∀ p, res.1 = Ok p →
           ∃ t, heap res.2 !! p = Some t ∧
                StoreStrategyOf t = SimpleLocalTaskStoreStrategy ∧
                DataFilePath t = data) ∧
     (let m := os_MkdirAll dir (disk w) in
      let o1 := os_OpenFile meta m.1 in
      let o2 := os_OpenFile data o1.1 in
      fatalMkdir m.2 = None → o1.2 = None → o2.2 = None → ∃ p, res.1 = Ok p)) ∧
  ((∃ e, e ∈ drop (length (trace w)) (trace res.2) ∧ advanceStep e = true) →
   req_Destination (reg_common req) ≠ "").
Proof.
  intros dir meta data res.
  assert (req_Destination (reg_common req) = "" →
     (∃ evs, trace res.2 = trace w ++ evs ∧
             evs `prefix_of` simpleCreateEvents req w ∧
             (is_Some (match res.1 with Ok p => Some p | Err _ => None end) →
              evs = simpleCreateEvents req w)) ∧
     (∀ p, res.1 = Ok p →
           ∃ t, heap res.2 !! p = Some t ∧
                StoreStrategyOf t = SimpleLocalTaskStoreStrategy ∧
                DataFilePath t = data) ∧
     (let m := os_MkdirAll dir (disk w) in
      let o1 := os_OpenFile meta m.1 in
      let o2 := os_OpenFile data o1.1 in
      fatalMkdir m.2 = None → o1.2 = None → o2.2 = None → ∃ p, res.1 = Ok p)) as Hempty.
  { intros Hdest. subst res dir meta data.
    unfold CreateTask, storeDir, simpleCreateEvents, sys. simpl. rewrite Hdest.
    destruct (os_MkdirAll _ _) as [d1 e1]. simpl.
    destruct (fatalMkdir e1) eqn:Hmk; simpl.
    { split_and!; [|done|done].
      eexists [_]. split_and!; [done|by eexists|by intros [? ?]]. }
    destruct (os_OpenFile _ d1) as [d2 e2]. simpl.
    destruct e2 as [e2|]; simpl.
    { split_and!; [|done|done].
      eexists [_; _]. rewrite <- !(assoc_L (++)). simpl.
      split_and!; [done|by eexists|by intros [? ?]]. }
    unfold createData, sys. simpl.
    destruct (os_OpenFile _ d2) as [d3 e3]. simpl.
    destruct e3 as [e3|]; simpl.
    { split_and!; [|done|done].
      eexists [_; _; _]. rewrite <- !(assoc_L (++)). simpl.
      split_and!; [done|by eexists|by intros [? ?]]. }
    split_and!; [| |eauto].
    - eexists [_; _; _; _; _]. rewrite <- !(assoc_L (++)). simpl.
      split_and!; [done|done|done].
    - intros p [= <-]. eexists. split; [apply list_lookup_middle; done|done]. }
  split; [done|].
  intros (e & Hin & Hadv) Hdest.
  destruct (Hempty Hdest) as ((evs & Htrace & [rest Hpre] & _) & _).
  rewrite Htrace, drop_app_length in Hin.
  assert (e ∈ simpleCreateEvents req w) as Hfull.
  { rewrite Hpre. apply elem_of_app. by left. }
  unfold simpleCreateEvents in Hfull. elem_cases Hfull; by subst e.
Qed.

End EmptyDestination.

Lemma CreateTask_empty_destination_witness :
  req_Destination (reg_common reqEmptyDestination) = "" ∧
  storeStrategy (mgr wAdvance) = AdvanceLocalTaskStoreStrategy ∧
  (CreateTask 5 reqEmptyDestination wAdvance).1 = Ok 0%nat ∧
  ∃ t, heap (CreateTask 5 reqEmptyDestination wAdvance).2 !! 0%nat = Some t ∧
       StoreStrategyOf t = SimpleLocalTaskStoreStrategy ∧
       DataFilePath t = "/data/task0/peer0/data".
Proof.
  split; [reflexivity|]. split; [reflexivity|]. split; [reflexivity|].
  exact (proj1 (proj2 (proj1 (CreateTask_empty_destination 5 reqEmptyDestination wAdvance) eq_refl))
           0%nat eq_refl).
Defined.

(** ** Stable sorting by last access *)

Section Sorting.

Context {A : Type} (key : A → Z).

Lemma insert_stable_Permutation x l : insert_stable (lessBy key) x l ≡ₚ x :: l.
Proof.
  induction l as [|y l IH]; simpl; [done|].
  destruct ((lessBy key) y x); [|done].
  rewrite IH. apply Permutation_swap.
Qed.

Lemma SliceStable_Permutation l : SliceStable (lessBy key) l ≡ₚ l.
Proof.
  induction l as [|x l IH]; simpl; [done|].
  unfold SliceStable in *. simpl. by rewrite insert_stable_Permutation, IH.
Qed.





End Sorting.

Lemma olderThan_lessBy h : olderThan h = lessBy (lastAccessAt h).
Proof. done. Qed.

(** ** Marking stores on the heap *)

Lemma sameButMarks_refl h : sameButMarks h h.
Proof. done. Qed.

Lemma sameButMarks_trans h1 h2 h3 :
  sameButMarks h1 h2 → sameButMarks h2 h3 → sameButMarks h1 h3.
Proof. unfold sameButMarks. congruence. Qed.

Lemma sameButMarks_lookup h h' p :
  sameButMarks h h' →
  set_reclaimMarked false <$> h !! p = set_reclaimMarked false <$> h' !! p.
Proof. intros Hs. by rewrite <- !list_lookup_fmap, Hs. Qed.

Lemma sameButMarks_Some h h' p t :
  sameButMarks h h' → h !! p = Some t →
  ∃ t', h' !! p = Some t' ∧ set_reclaimMarked false t' = set_reclaimMarked false t.
Proof.
  intros Hs Hp. pose proof (sameButMarks_lookup _ _ p Hs) as Hl.
  rewrite Hp in Hl. destruct (h' !! p) as [t'|]; [|done].
  exists t'. split; [done|].
  change (Some (set_reclaimMarked false t) = Some (set_reclaimMarked false t')) in Hl.
  congruence.
Qed.

Lemma sameButMarks_None h h' p :
  sameButMarks h h' → h !! p = None → h' !! p = None.
Proof.
  intros Hs Hp. pose proof (sameButMarks_lookup _ _ p Hs) as Hl.
  rewrite Hp in Hl. by destruct (h' !! p).
Qed.

Lemma unmarked_fields t t' :
  set_reclaimMarked false t' = set_reclaimMarked false t →
  persistent t' = persistent t ∧ lastAccess t' = lastAccess t ∧
  invalid t' = invalid t ∧ expireTime t' = expireTime t.
Proof. destruct t, t'. simpl. intros [=]. by subst. Qed.

Lemma markAt_same h p : sameButMarks h (markAt h p).
Proof.
  unfold sameButMarks, markAt. destruct (h !! p) as [t|] eqn:Hp; [|done].
  rewrite list_fmap_insert. symmetry. apply list_insert_id.
  rewrite list_lookup_fmap, Hp. done.
Qed.

Lemma markAll_same h ps : sameButMarks h (markAll h ps).
Proof.
  revert h. induction ps as [|p ps IH]; intros h; [done|]. simpl.
  eapply sameButMarks_trans; [apply markAt_same|apply IH].
Qed.

Lemma sameButMarks_keyAt h h' p : sameButMarks h h' → keyAt h' p = keyAt h p.
Proof.
  intros Hs. unfold keyAt. destruct (h !! p) as [t|] eqn:Hp.
  - destruct (sameButMarks_Some _ _ _ _ Hs Hp) as (t' & -> & Heq).
    apply unmarked_fields in Heq as (Hpm & _). unfold PeerID, TaskID. by rewrite Hpm.
  - by rewrite (sameButMarks_None _ _ _ Hs Hp).
Qed.

Lemma sameButMarks_ContentLengthAt h h' p :
  sameButMarks h h' → ContentLengthAt h' p = ContentLengthAt h p.
Proof.
  intros Hs. unfold ContentLengthAt. destruct (h !! p) as [t|] eqn:Hp.
  - destruct (sameButMarks_Some _ _ _ _ Hs Hp) as (t' & -> & Heq).
    apply unmarked_fields in Heq as (Hpm & _). unfold ContentLength. by rewrite Hpm.
  - by rewrite (sameButMarks_None _ _ _ Hs Hp).
Qed.

Lemma sameButMarks_lastAccessAt h h' p :
  sameButMarks h h' → lastAccessAt h' p = lastAccessAt h p.
Proof.
  intros Hs. unfold lastAccessAt. destruct (h !! p) as [t|] eqn:Hp.
  - destruct (sameButMarks_Some _ _ _ _ Hs Hp) as (t' & -> & Heq).
    by apply unmarked_fields in Heq as (_ & ? & _).
  - by rewrite (sameButMarks_None _ _ _ Hs Hp).
Qed.

Lemma CanReclaim_unmarked now t t' :
  set_reclaimMarked false t' = set_reclaimMarked false t →
  CanReclaim now t' = CanReclaim now t.
Proof.
  intros Heq. apply unmarked_fields in Heq as (_ & Hla & _ & Hex).
  unfold CanReclaim. by rewrite Hla, Hex.
Qed.

(** The mark of a store after [markAll]. *)
Lemma markAt_lookup h q p :
  markAt h q !! p = if decide (p = q) then MarkReclaim <$> h !! p else h !! p.
Proof.
  unfold markAt. case_decide as Hpq.
  - subst. destruct (h !! q) as [t|] eqn:Hq; [|by rewrite Hq].
    rewrite list_lookup_insert_eq; [done|by eapply lookup_lt_Some].
  - destruct (h !! q); [|done]. by rewrite list_lookup_insert_ne.
Qed.

Lemma markAll_lookup h ps p :
  markAll h ps !! p = if decide (p ∈ ps) then MarkReclaim <$> h !! p else h !! p.
Proof.
  revert h. induction ps as [|q ps IH]; intros h; unfold markAll; cbn [foldl].
  - rewrite decide_False; [done|apply not_elem_of_nil].
  - fold (markAll (markAt h q) ps). rewrite IH, markAt_lookup.
    destruct (decide (p ∈ q :: ps)) as [Hin|Hnin];
      destruct (decide (p ∈ ps)) as [Hps|Hps];
      destruct (decide (p = q)) as [->|Hne]; try done.
    + by destruct (h !! q).
    + by apply elem_of_cons in Hin as [?|?].
    + exfalso. apply Hnin. by left.
    + exfalso. apply Hnin. by right.
    + exfalso. apply Hnin. by left.
Qed.

(** ** The two scans of a [TryGC] pass *)

Lemma scanExpired_spec h0 now entries :
  ∀ h markedTasks total,
    sameButMarks h0 h →
    scanExpired now entries h markedTasks total =
      (markAll h (expiredEntries now h0 entries).*2,
       markedTasks ++ (expiredEntries now h0 entries).*1,
       foldl (addNotExpired now h0) total entries).
Proof.
  induction entries as [|[k p] entries IH]; intros h markedTasks total Hs.
  - simpl. by rewrite app_nil_r.
  - unfold expiredEntries. rewrite filter_cons. fold (expiredEntries now h0 entries).
    cbn [scanExpired foldl]. unfold addNotExpired at 2, expiredAt. cbn [snd].
    destruct (h0 !! p) as [t0|] eqn:Hp0.
    + destruct (sameButMarks_Some _ _ _ _ Hs Hp0) as (t & Hp & Heq).
      rewrite Hp, (CanReclaim_unmarked _ _ _ Heq).
      assert (ContentLength t = ContentLength t0) as ->.
      { apply unmarked_fields in Heq as (Hpm & _). unfold ContentLength. by rewrite Hpm. }
      destruct (CanReclaim now t0).
      * rewrite decide_True by done. rewrite IH.
        -- cbn [fmap list_fmap foldl markAll fst snd]. unfold markAt at 2. rewrite Hp.
           by rewrite <- (assoc_L (++)).
        -- eapply sameButMarks_trans; [done|].
           pose proof (markAt_same h p) as Hm. unfold markAt in Hm. by rewrite Hp in Hm.
      * rewrite decide_False by done. by rewrite IH.
    + rewrite (sameButMarks_None _ _ _ Hs Hp0).
      rewrite decide_False by done. by rewrite IH.
Qed.

(** Candidates depend on the marks, so they are read off the heap as the
    first scan left it. *)
Lemma markOldest_spec h0 ts :
  ∀ h markedTasks bytesExceed,
    sameButMarks h0 h →
    Forall (λ p, is_Some (h0 !! p)) ts →
    ∃ n, (n ≤ length ts)%nat ∧ (ts ≠ [] → (1 ≤ n)%nat) ∧
         markOldest ts h markedTasks bytesExceed =
           (markAll h (take n ts), markedTasks ++ (keyAt h0 <$> take n ts),
            remaining h0 bytesExceed (take n ts)) ∧
         (∀ j, (1 ≤ j < n)%nat → 0 < remaining h0 bytesExceed (take j ts)) ∧
         ((n < length ts)%nat → remaining h0 bytesExceed (take n ts) ≤ 0).
Proof.
  induction ts as [|p ts IH]; intros h markedTasks bytesExceed Hs Hall.
  - exists 0%nat. simpl. rewrite app_nil_r. split_and!; try done; lia.
  - apply Forall_cons in Hall as [[t0 Hp0] Hall].
    destruct (sameButMarks_Some _ _ _ _ Hs Hp0) as (t & Hp & Heq).
    assert (ContentLength t = ContentLengthAt h0 p) as Hcl.
    { unfold ContentLengthAt. rewrite Hp0.
      apply unmarked_fields in Heq as (Hpm & _). unfold ContentLength. by rewrite Hpm. }
    assert ({| meta_PeerID := PeerID t; meta_TaskID := TaskID t |} = keyAt h0 p) as Hkey.
    { unfold keyAt. rewrite Hp0.
      apply unmarked_fields in Heq as (Hpm & _). unfold PeerID, TaskID. by rewrite Hpm. }
    assert (<[p := MarkReclaim t]> h = markAt h p) as Hmark.
    { unfold markAt. by rewrite Hp. }
    cbn [markOldest]. rewrite Hp, Hcl, Hkey, Hmark.
    case_bool_decide as Hle.
    + exists 1%nat. cbn [take length markAll foldl fmap list_fmap remaining].
      split_and!; [lia|lia|done|lia|done].
    + destruct (IH (markAt h p) (markedTasks ++ [keyAt h0 p])
                  (int64 (bytesExceed - ContentLengthAt h0 p))) as (n & Hn & Hne & Heqn & Hpos & Hstop).
      { eapply sameButMarks_trans; [done|apply markAt_same]. }
      { done. }
      exists (S n). cbn [take length markAll foldl fmap list_fmap remaining].
      split_and!.
      * lia.
      * lia.
      * rewrite Heqn. by rewrite <- (assoc_L (++)).
      * intros [|j] Hj; [lia|]. cbn [take foldl].
        destruct j as [|j]; [simpl; lia|]. apply Hpos. lia.
      * intros Hlt. apply Hstop. lia.
Qed.

(** ** A [TryGC] pass, stage by stage *)

Section GC.

Context {FS : Type} `{!Env FS} `{!StoreImpl FS}.

Lemma diskUsageExceed_frame (w : World FS) :
  mgr (diskUsageExceed w).2 = mgr w ∧ heap (diskUsageExceed w).2 = heap w ∧
  disk (diskUsageExceed w).2 = disk w ∧
  ∃ evs, trace (diskUsageExceed w).2 = trace w ++ evs ∧
         Forall (λ e, ∃ c, e = EvOS c) evs.
Proof.
  unfold diskUsageExceed, ask.
  destruct (Qle_bool _ 0); simpl.
  { split_and!; try done. exists []. by rewrite app_nil_r. }
  destruct (disk_Usage _ _) as [u|e]; simpl.
  - destruct (negb _); simpl; (split_and!; try done; eexists [_]; split; [done|]);
      repeat constructor; eauto.
  - split_and!; try done. eexists [_]. split; [done|]. repeat constructor. eauto.
Qed.

Lemma diskUsageExceed_set_heap h (w : World FS) :
  diskUsageExceed (set_heap h w) = ((diskUsageExceed w).1, set_heap h (diskUsageExceed w).2).
Proof.
  unfold diskUsageExceed, ask. simpl.
  destruct (Qle_bool _ 0); [done|].
  destruct (disk_Usage _ _) as [u|e]; simpl; [|done].
  by destruct (negb _).
Qed.


Lemma candidateAt_Some now i h p :
  candidateAt now i h p = true →
  ∃ t, h !! p = Some t ∧ reclaimMarked t = false ∧
       ¬ (Done t = false ∧ now - lastAccess t < i).
Proof.
  unfold candidateAt, gcCandidate. destruct (h !! p) as [t|]; [|done].
  destruct (reclaimMarked t) eqn:Hm; [done|]. intros Hc. exists t. split_and!; [done|done|].
  intros [Hd Hlt]. rewrite Hd in Hc. simpl in Hc.
  by rewrite bool_decide_eq_true_2 in Hc.
Qed.



Lemma gcOldest_spec now quota usage markedTasks (w : World FS) :
  let ts := SliceStable (olderThan (heap w))
              (collectCandidates now (gcInterval (mgr w)) (tasks (mgr w)) (heap w)) in
  ∃ n, (n ≤ length ts)%nat ∧ (ts ≠ [] → (1 ≤ n)%nat) ∧
       gcOldest now quota usage markedTasks w =
         (set_heap (markAll (heap w) (take n ts)) w,
          markedTasks ++ (keyAt (heap w) <$> take n ts)) ∧
       (∀ j, (1 ≤ j < n)%nat → 0 < remaining (heap w) (Z.max quota usage) (take j ts)) ∧
       ((n < length ts)%nat → remaining (heap w) (Z.max quota usage) (take n ts) ≤ 0).
Proof.
  intros ts.
  assert (Forall (λ p, is_Some (heap w !! p)) ts) as Hall.
  { apply Forall_forall. intros p Hp. subst ts.
    rewrite olderThan_lessBy, SliceStable_Permutation in Hp.
    apply list_elem_of_filter in Hp as [Hc _].
    destruct (candidateAt_Some _ _ _ _ Hc) as (t & -> & _). eauto. }
  assert ((if bool_decide (usage < quota) then quota else usage) = Z.max quota usage) as Hmax.
  { case_bool_decide; lia. }
  destruct (markOldest_spec (heap w) ts (heap w) markedTasks (Z.max quota usage)
              (sameButMarks_refl _) Hall) as (n & Hn & Hne & Heq & Hpos & Hstop).
  exists n. split_and!; try done.
  unfold gcOldest. fold ts. by rewrite Hmax, Heq.
Qed.




(** [TryGC] as the sequence of its stages. *)
Lemma TryGC_stages now (w : World FS) :
  let w2 := (diskUsageExceed (afterScan now w)).2 in
  let usage := (diskUsageExceed w).1 in
  let st := if quotaExceeded now w || usage.1
            then gcOldest now (quotaExcess now w) usage.2 (expiredKeys now w) w2
            else (w2, expiredKeys now w) in
  let st' := foldl reclaimOne st (markedReclaimTasks (mgr w)) in
  TryGC now w = ((true, None), upd_mgr (set_markedReclaimTasks st'.2) st'.1).
Proof.
  cbv zeta. unfold TryGC.
  rewrite (scanExpired_spec (heap w) now (tasks (mgr w)) (heap w) [] 0 (sameButMarks_refl _)).
  rewrite app_nil_l.
  fold (totalNotExpired now (heap w) (tasks (mgr w))).
  fold (quotaExcess now w). fold (quotaExceeded now w). fold (expiredKeys now w).
  unfold afterScan. rewrite !diskUsageExceed_set_heap.
  destruct (diskUsageExceed w) as [[ue ub] w2]. simpl.
  destruct (quotaExceeded now w || ue); simpl.
  - destruct (gcOldest _ _ _ _ _) as [w3 m3].
    by destruct (foldl reclaimOne (w3, m3) (markedReclaimTasks (mgr w))).
  - by destruct (foldl reclaimOne _ (markedReclaimTasks (mgr w))).
Qed.

End GC.

Section QuotaPass.

Context {FS : Type} `{!Env FS} `{!StoreImpl FS}.


End QuotaPass.



(** ** Well-formed states *)

Lemma tasks_Load_elem k p (m : list (PeerTaskMetadata * loc)) :
  tasks_Load k m = Some p → (k, p) ∈ m.
Proof.
  induction m as [|[k' p'] m IH]; simpl; [done|].
  case_decide as Hk.
  - intros [= ->]. subst. by left.
  - intros ?. right. by apply IH.
Qed.

Lemma tasks_Load_None k (m : list (PeerTaskMetadata * loc)) :
  tasks_Load k m = None ↔ k ∉ m.*1.
Proof.
  induction m as [|[k' p'] m IH]; simpl.
  - split; [intros _; apply not_elem_of_nil|done].
  - case_decide as Hk.
    + subst. split; [done|]. intros Hn. exfalso. apply Hn. by left.
    + rewrite IH. rewrite elem_of_cons. split; [|tauto].
      intros Hn [->|?]; [done|]. by apply Hn.
Qed.

Lemma tasks_Load_NoDup k p (m : list (PeerTaskMetadata * loc)) :
  NoDup m.*1 → (k, p) ∈ m → tasks_Load k m = Some p.
Proof.
  induction m as [|[k' p'] m IH]; simpl; [by intros _ ?%elem_of_nil|].
  intros [Hnin Hnd]%NoDup_cons [[= -> ->]|Hin]%elem_of_cons.
  - by rewrite decide_True.
  - case_decide as Hk; [|by apply IH].
    subst. exfalso. apply Hnin. apply list_elem_of_fmap. by exists (k, p).
Qed.

Lemma tasks_Load_Delete k key (m : list (PeerTaskMetadata * loc)) :
  tasks_Load k (tasks_Delete key m) = if decide (k = key) then None else tasks_Load k m.
Proof.
  unfold tasks_Delete. induction m as [|[k' p'] m IH].
  - by destruct (decide (k = key)).
  - rewrite filter_cons. cbn [fst].
    destruct (decide (k' ≠ key)) as [Hk'|Hk'].
    + cbn [tasks_Load]. rewrite IH.
      destruct (decide (k' = k)) as [->|?]; [|done].
      by rewrite decide_False.
    + apply dec_stable in Hk'. subst k'. rewrite IH. cbn [tasks_Load].
      destruct (decide (k = key)) as [->|?]; [done|]. by rewrite decide_False.
Qed.

Lemma tasks_Delete_sublist key (m : list (PeerTaskMetadata * loc)) :
  tasks_Delete key m `sublist_of` m.
Proof. apply sublist_filter. Qed.

(** With stores registered under one key each, two keys that load the
    same store are the same key. *)
Lemma tasks_Load_inj k k' p (m : list (PeerTaskMetadata * loc)) :
  NoDup m.*2 → tasks_Load k m = Some p → tasks_Load k' m = Some p → k = k'.
Proof.
  intros Hnd H1%tasks_Load_elem H2%tasks_Load_elem.
  apply list_elem_of_lookup in H1 as [i Hi]. apply list_elem_of_lookup in H2 as [j Hj].
  assert (i = j) as ->.
  { eapply NoDup_lookup; [done| |]; rewrite list_lookup_fmap.
    - by rewrite Hi.
    - by rewrite Hj. }
  congruence.
Qed.

Lemma sublist_tasks_Load k p (m m' : list (PeerTaskMetadata * loc)) :
  NoDup m.*1 → m' `sublist_of` m → tasks_Load k m' = Some p → tasks_Load k m = Some p.
Proof.
  intros Hnd Hsub Hl. apply tasks_Load_NoDup; [done|].
  eapply elem_of_sublist; [|done]. by apply tasks_Load_elem.
Qed.

(** ** The deletion loop of [TryGC] *)

Lemma cleanedIndex_lookup h taskID peerID idx tid :
  cleanedIndex h taskID peerID idx !! tid =
    if decide (tid = taskID) then remainAfterClean h peerID <$> idx !! tid else idx !! tid.
Proof.
  unfold cleanedIndex. destruct (decide (tid = taskID)) as [->|Hne].
  - destruct (idx !! taskID) as [ts|] eqn:Hts.
    + by rewrite lookup_insert_eq.
    + by rewrite Hts.
  - destruct (idx !! taskID); [|done]. by rewrite lookup_insert_ne.
Qed.

Section DeletionLoop.

Context {FS : Type} `{!Env FS} `{!StoreImpl FS}.

Lemma cleanIndex_eq taskID peerID (w : World FS) :
  cleanIndex taskID peerID w =
    mkWorld (set_index (cleanedIndex (heap w) taskID peerID (indexTask2PeerTask (mgr w))) (mgr w))
            (heap w) (disk w) (trace w ++ [EvCleanIndex taskID peerID]).
Proof.
  unfold cleanIndex, cleanedIndex. simpl.
  destruct (indexTask2PeerTask (mgr w) !! taskID) eqn:Hts; [done|].
  unfold emit. simpl. f_equal. by destruct (mgr w).
Qed.

Lemma reclaimOne_cases (w : World FS) markedTasks key :
  (reclaimOne (w, markedTasks) key = (w, markedTasks) ∧
   (tasks_Load key (tasks (mgr w)) = None ∨
    ∃ p, tasks_Load key (tasks (mgr w)) = Some p ∧ heap w !! p = None))
  ∨
  (∃ p t, tasks_Load key (tasks (mgr w)) = Some p ∧ heap w !! p = Some t ∧
          reclaimOne (w, markedTasks) key =
            (afterReclaim key p t (Reclaim t (disk w)).1 w,
             match (Reclaim t (disk w)).2 with
             | Some _ => markedTasks
             | None => removeMarked key markedTasks
             end)).
Proof.
  unfold reclaimOne.
  destruct (tasks_Load key (tasks (mgr w))) as [p|] eqn:Hk; [|left; eauto].
  destruct (heap w !! p) as [t|] eqn:Hp; [|left; eauto].
  right. exists p, t. split_and!; [done|done|].
  rewrite cleanIndex_eq. unfold callReclaim, afterReclaim, reclaimEvents. simpl.
  destruct (Reclaim t (disk w)) as [d [e|]]; unfold emit, set_disk; simpl;
    by rewrite <- !(assoc_L (++)).
Qed.

Lemma removeMarked_sublist key markedTasks :
  removeMarked key markedTasks `sublist_of` markedTasks.
Proof.
  induction markedTasks as [|k rest IH]; simpl; [done|].
  destruct (_ && _); [by apply sublist_cons|by apply sublist_skip].
Qed.

End DeletionLoop.

Section DeletionLoopSpec.

Context {FS : Type} `{!Env FS} `{!StoreImpl FS}.

Lemma wf_store_Some (w : World FS) k p :
  wf w → (k, p) ∈ tasks (mgr w) →
  ∃ t, heap w !! p = Some t ∧ PeerID t = meta_PeerID k ∧ TaskID t = meta_TaskID k.
Proof.
  intros (_ & _ & Hst & _) Hin. rewrite Forall_forall in Hst.
  specialize (Hst _ Hin). unfold storeKey in Hst. simpl in Hst.
  destruct (heap w !! p) as [t|]; [|done]. exists t. split; [done|].
  simpl in Hst. injection Hst as <-. done.
Qed.

Lemma wf_index_Some (w : World FS) taskID ps p :
  wf w → indexTask2PeerTask (mgr w) !! taskID = Some ps → p ∈ ps →
  ∃ t, heap w !! p = Some t ∧ TaskID t = taskID.
Proof.
  intros (_ & _ & _ & Hidx) Hps Hin. specialize (Hidx _ _ Hps).
  rewrite Forall_forall in Hidx. specialize (Hidx _ Hin).
  destruct (heap w !! p) as [t|]; [|done]. exists t. split; [done|].
  simpl in Hidx. by injection Hidx.
Qed.

Lemma wf_afterReclaim key p t d (w : World FS) :
  wf w → wf (afterReclaim key p t d w).
Proof.
  intros (Hk & Hl & Hst & Hidx). unfold wf, afterReclaim. simpl. split_and!.
  - eapply sublist_NoDup; [done|]. apply fmap_sublist, tasks_Delete_sublist.
  - eapply sublist_NoDup; [done|]. apply fmap_sublist, tasks_Delete_sublist.
  - rewrite Forall_forall in *. intros kp Hin. apply Hst.
    eapply elem_of_sublist; [done|apply tasks_Delete_sublist].
  - intros tid ps. rewrite cleanedIndex_lookup. case_decide as Htid.
    + destruct (indexTask2PeerTask (mgr w) !! tid) as [ps0|] eqn:Hps0; [|done].
      intros [= <-]. specialize (Hidx _ _ Hps0). rewrite Forall_forall in *.
      intros q [_ Hq]%list_elem_of_filter. by apply Hidx.
    + apply Hidx.
Qed.

(** After its reclaim a store is neither registered nor indexed. *)
Lemma afterReclaim_gone key p t d (w : World FS) :
  wf w → tasks_Load key (tasks (mgr w)) = Some p → heap w !! p = Some t →
  ¬ registered (afterReclaim key p t d w) p ∧ ¬ indexed (afterReclaim key p t d w) p.
Proof.
  intros Hwf Hk Hp. pose proof Hwf as (Hkeys & Hlocs & _). split.
  - unfold registered, afterReclaim. simpl.
    intros ([k' p'] & Heq & Hin)%list_elem_of_fmap. simpl in Heq. subst p'.
    apply list_elem_of_filter in Hin as [Hne Hin]. simpl in Hne.
    apply Hne. eapply tasks_Load_inj; [done| |done].
    by apply tasks_Load_NoDup.
  - unfold indexed, afterReclaim. simpl. intros (tid & ps & Hps & Hin).
    rewrite cleanedIndex_lookup in Hps. case_decide as Htid.
    + destruct (indexTask2PeerTask (mgr w) !! tid) as [ps0|]; [|done].
      injection Hps as <-. apply list_elem_of_filter in Hin as [Hkept _].
      unfold keptByClean in Hkept. rewrite Hp in Hkept.
      by rewrite bool_decide_eq_false_2 in Hkept by (intros Hn; by apply Hn).
    + destruct (wf_index_Some _ _ _ _ Hwf Hps Hin) as (t' & Hp' & Ht').
      rewrite Hp in Hp'. injection Hp' as <-. done.
Qed.

Lemma afterReclaim_indexed key p t d (w : World FS) q :
  indexed (afterReclaim key p t d w) q → indexed w q.
Proof.
  unfold indexed, afterReclaim. simpl. intros (tid & ps & Hps & Hin).
  rewrite cleanedIndex_lookup in Hps. case_decide as Htid; [|eauto].
  destruct (indexTask2PeerTask (mgr w) !! tid) as [ps0|] eqn:Hps0; [|done].
  injection Hps as <-. apply list_elem_of_filter in Hin as [_ Hin]. eauto.
Qed.

Lemma reclaimTrace_mono (w0 w1 : World FS) keys key0 evs :
  heap w1 = heap w0 →
  (∀ k p, tasks_Load k (tasks (mgr w1)) = Some p → tasks_Load k (tasks (mgr w0)) = Some p) →
  reclaimTrace w1 keys evs → reclaimTrace w0 (key0 :: keys) evs.
Proof.
  intros Hh Hl. induction 1 as [|key p t evs Hin Hk Hp _ IH]; [constructor|].
  constructor; [by right|by apply Hl|by rewrite <- Hh|done].
Qed.

Lemma reclaimTrace_Reclaim (w0 : World FS) keys evs p :
  reclaimTrace w0 keys evs → EvReclaim p ∈ evs →
  ∃ key, key ∈ keys ∧ tasks_Load key (tasks (mgr w0)) = Some p.
Proof.
  induction 1 as [|key p' t evs Hin Hk Hp _ IH]; [by intros ?%elem_of_nil|].
  unfold reclaimEvents. simpl. intros Hev. elem_cases Hev.
  - injection Hev as ->. eauto.
  - by apply IH.
Qed.

(** Neither the task map nor the index gains an entry in the loop. *)
Lemma reclaimTrace_no_insert (w0 : World FS) keys evs e :
  reclaimTrace w0 keys evs → e ∈ evs →
  (∀ k p, e ≠ EvStore k p) ∧ (∀ tid p, e ≠ EvIndexAppend tid p).
Proof.
  induction 1 as [|key p' t evs Hin Hk Hp _ IH]; [by intros ?%elem_of_nil|].
  unfold reclaimEvents. simpl. intros Hev.
  repeat (apply elem_of_cons in Hev as [->|Hev]; [done|]). by apply IH.
Qed.

(** Every [Reclaim] comes directly after the deletion of the store's key
    and the cleaning of the index. *)
Lemma reclaimTrace_before (w0 : World FS) keys evs pre post p :
  reclaimTrace w0 keys evs → evs = pre ++ EvReclaim p :: post →
  ∃ key t pre', pre = pre' ++ [EvDelete key; EvCleanIndex (TaskID t) (PeerID t)] ∧
                key ∈ keys ∧ tasks_Load key (tasks (mgr w0)) = Some p ∧
                heap w0 !! p = Some t.
Proof.
  intros Htr. revert pre. induction Htr as [|key p' t evs Hin Hk Hp _ IH]; intros pre Heq.
  - by destruct pre.
  - unfold reclaimEvents in Heq.
    destruct pre as [|a [|b [|c pre]]]; simplify_eq/=.
    + exists key, t, []. done.
    + destruct (IH pre eq_refl) as (key' & t' & pre' & -> & ? & ? & ?).
      exists key', t', ([EvDelete key; EvCleanIndex (TaskID t) (PeerID t); EvReclaim p'] ++ pre').
      by rewrite <- (assoc_L (++)).
Qed.

End DeletionLoopSpec.

Section DeletionLoopResult.

Context {FS : Type} `{!Env FS} `{!StoreImpl FS}.

Lemma reclaimLoop_spec keys :
  ∀ (w : World FS) markedTasks,
    wf w → loopResult w markedTasks keys (foldl reclaimOne (w, markedTasks) keys).
Proof.
  induction keys as [|key keys IH]; intros w markedTasks Hwf.
  - simpl. unfold loopResult. simpl. split_and!; try done.
    exists []. rewrite app_nil_r. split_and!; [done|constructor| |].
    + by intros ?? ?%elem_of_nil.
    + by intros ? ?%elem_of_nil.
  - cbn [foldl].
    destruct (reclaimOne_cases w markedTasks key) as [[Heq Hnone]|(p & t & Hk & Hp & Heq)];
      rewrite Heq.
    + assert (tasks_Load key (tasks (mgr w)) = None) as Hk.
      { destruct Hnone as [?|(p & Hk & Hp)]; [done|].
        destruct (wf_store_Some w key p Hwf (tasks_Load_elem _ _ _ Hk)) as (t & Ht & _).
        congruence. }
      destruct (IH w markedTasks Hwf)
        as (Hwf' & Hh & Hsub & Hidx & Hm & Hload & evs & Htr & Hrt & Hall & Hgone).
      unfold loopResult. split_and!; try done.
      * intros k. rewrite Hload.
        destruct (decide (k = key)) as [->|Hne].
        -- rewrite (decide_True (P := key ∈ key :: keys)) by left.
           rewrite Hk. by case_decide.
        -- destruct (decide (k ∈ keys)) as [Hin|Hnin].
           ++ by rewrite decide_True by by right.
           ++ rewrite decide_False; [done|]. by intros [?|?]%elem_of_cons.
      * exists evs. split_and!; [done| | |done].
        -- apply (reclaimTrace_mono w w keys key evs eq_refl); [by intros|done].
        -- intros k q [->|Hin]%elem_of_cons Hkq; [congruence|]. by eapply Hall.
    + set (w1 := afterReclaim key p t (Reclaim t (disk w)).1 w).
      assert (wf w1) as Hwf1 by by apply wf_afterReclaim.
      destruct (IH w1 (match (Reclaim t (disk w)).2 with
                       | Some _ => markedTasks
                       | None => removeMarked key markedTasks
                       end) Hwf1)
        as (Hwf' & Hh & Hsub & Hidx & Hm & Hload & evs & Htr & Hrt & Hall & Hgone).
      assert (∀ k q, tasks_Load k (tasks (mgr w1)) = Some q →
                     tasks_Load k (tasks (mgr w)) = Some q) as Hback.
      { intros k q. unfold w1, afterReclaim. simpl. rewrite tasks_Load_Delete.
        by case_decide. }
      unfold loopResult. split_and!.
      * done.
      * by rewrite Hh.
      * etrans; [done|]. apply tasks_Delete_sublist.
      * intros q Hq. eapply afterReclaim_indexed. by apply Hidx.
      * etrans; [done|]. destruct (Reclaim t (disk w)).2; [done|apply removeMarked_sublist].
      * intros k. rewrite Hload. unfold w1, afterReclaim. simpl. rewrite tasks_Load_Delete.
        destruct (decide (k = key)) as [->|Hne].
        -- rewrite (decide_True (P := key ∈ key :: keys)) by left. by case_decide.
        -- destruct (decide (k ∈ keys)) as [Hin|Hnin].
           ++ by rewrite decide_True by by right.
           ++ rewrite decide_False; [done|]. by intros [?|?]%elem_of_cons.
      * exists (reclaimEvents key t p ++ evs). split_and!.
        -- rewrite Htr. unfold w1, afterReclaim. simpl. by rewrite <- (assoc_L (++)).
        -- constructor; [by left|done|done|].
           by apply (reclaimTrace_mono w w1 keys key evs eq_refl Hback).
        -- intros k q Hin Hkq. apply elem_of_app.
           destruct (decide (k = key)) as [->|Hne].
           ++ left. rewrite Hk in Hkq. injection Hkq as <-.
              unfold reclaimEvents. apply list_elem_of_In. simpl. tauto.
           ++ right. apply elem_of_cons in Hin as [?|Hin]; [done|].
              eapply Hall; [done|]. unfold w1, afterReclaim. simpl.
              rewrite tasks_Load_Delete. by rewrite decide_False.
        -- intros q [Hq|Hq]%elem_of_app.
           ++ unfold reclaimEvents in Hq. elem_cases Hq. injection Hq as ->.
              destruct (afterReclaim_gone key p t (Reclaim t (disk w)).1 w Hwf Hk Hp)
                as [Hnr Hni].
              split.
              ** intros Hr. apply Hnr. unfold registered in *.
                 eapply elem_of_sublist; [done|]. by apply fmap_sublist.
              ** intros Hi. apply Hni. by apply Hidx.
           ++ by apply Hgone.
Qed.

End DeletionLoopResult.

(** ** What a [TryGC] pass deletes *)

Section TryGCDeletes.

Context {FS : Type} `{!Env FS} `{!StoreImpl FS}.

Lemma sameButMarks_storeKey h h' p :
  sameButMarks h h' → storeKey h' p = storeKey h p.
Proof.
  intros Hs. unfold storeKey. destruct (h !! p) as [t|] eqn:Hp.
  - destruct (sameButMarks_Some _ _ _ _ Hs Hp) as (t' & -> & Heq).
    apply unmarked_fields in Heq as (Hpm & _). simpl. unfold PeerID, TaskID. by rewrite Hpm.
  - by rewrite (sameButMarks_None _ _ _ Hs Hp).
Qed.

Lemma sameButMarks_TaskID h h' p :
  sameButMarks h h' → TaskID <$> h' !! p = TaskID <$> h !! p.
Proof.
  intros Hs. destruct (h !! p) as [t|] eqn:Hp.
  - destruct (sameButMarks_Some _ _ _ _ Hs Hp) as (t' & -> & Heq).
    apply unmarked_fields in Heq as (Hpm & _). simpl. unfold TaskID. by rewrite Hpm.
  - by rewrite (sameButMarks_None _ _ _ Hs Hp).
Qed.

(** Marking stores keeps a state well-formed. *)
Lemma wf_marks (w w' : World FS) :
  wf w → mgr w' = mgr w → sameButMarks (heap w) (heap w') → wf w'.
Proof.
  intros (Hk & Hl & Hst & Hidx) Hm Hs. unfold wf. rewrite Hm. split_and!; [done|done| |].
  - eapply Forall_impl; [done|]. intros kp Hkp. simpl in *.
    by rewrite (sameButMarks_storeKey _ _ _ Hs).
  - intros tid ps Hps. specialize (Hidx _ _ Hps). simpl in *.
    eapply Forall_impl; [done|]. intros p Hp. simpl in *.
    by rewrite (sameButMarks_TaskID _ _ _ Hs).
Qed.

(** The state a pass hands to its deletion loop: the manager is
    untouched, the heap differs in marks only, and the new events are
    calls into the environment. Without an exceeded threshold the marked
    list holds the keys of the expired stores and nothing else. *)
Lemma TryGC_before_loop now (w : World FS) :
  ∃ w3 marked3 evs0,
    TryGC now w =
      ((true, None),
       upd_mgr (set_markedReclaimTasks (foldl reclaimOne (w3, marked3) (markedReclaimTasks (mgr w))).2)
               (foldl reclaimOne (w3, marked3) (markedReclaimTasks (mgr w))).1) ∧
    mgr w3 = mgr w ∧
    sameButMarks (heap w) (heap w3) ∧
    trace w3 = trace w ++ evs0 ∧
    Forall (λ e, ∃ c, e = EvOS c) evs0 ∧
    (quotaExceeded now w = false → (diskUsageExceed w).1.1 = false →
     marked3 = expiredKeys now w ∧ heap w3 = heap (afterScan now w)).
Proof.
  pose proof (TryGC_stages now w) as Hst. cbv zeta in Hst.
  pose proof (diskUsageExceed_frame (afterScan now w)) as (Hm2 & Hh2 & _ & evs0 & Htr2 & Hos).
  set (w2 := (diskUsageExceed (afterScan now w)).2) in *.
  assert (sameButMarks (heap w) (heap w2)) as Hs2.
  { rewrite Hh2. unfold afterScan. simpl. apply markAll_same. }
  destruct (quotaExceeded now w || (diskUsageExceed w).1.1) eqn:Hcond.
  - destruct (gcOldest_spec now (quotaExcess now w) (diskUsageExceed w).1.2
                (expiredKeys now w) w2) as (n & _ & _ & Heq & _).
    rewrite Heq in Hst.
    eexists _, _, evs0. split_and!; [exact Hst|done| |done|done|].
    + simpl. eapply sameButMarks_trans; [done|apply markAll_same].
    + intros Hq Hu. by rewrite Hq, Hu in Hcond.
  - eexists _, _, evs0. split_and!; [exact Hst|done|done|done|done|done].
Qed.

(** C1 (as amended). For a store registered in a well-formed state:
    - if its key is not in the marked set the previous pass left, the
      pass neither unregisters it nor calls its [Reclaim]: its files are
      not deleted;
    - if its last access is within [TaskExpireTime] of the pass and the
      pass finds neither the quota nor the disk usage exceeded, the pass
      does not mark it and does not put its key into the marked set it
      leaves, so that the next pass does not delete it either;
    - if its key is in the marked set the previous pass left, the pass
      unregisters it and calls its [Reclaim], whatever its last access
      is: touching a marked store does not save it. *)
Theorem TryGC_deletes_only_marked (now : Z) (w : World FS)
    (key : PeerTaskMetadata) (p : loc) (t : localTaskStore) :
  wf w →
  tasks_Load key (tasks (mgr w)) = Some p →
  heap w !! p = Some t →
  let w' := (TryGC now w).2 in
  let new := drop (length (trace w)) (trace w') in
  (key ∉ markedReclaimTasks (mgr w) →
     tasks_Load key (tasks (mgr w')) = Some p ∧ EvReclaim p ∉ new) ∧
  (now - lastAccess t ≤ expireTime t →
   quotaExceeded now w = false → (diskUsageExceed w).1.1 = false →
     (key ∉ markedReclaimTasks (mgr w')) ∧ heap w' !! p = Some t) ∧
  (key ∈ markedReclaimTasks (mgr w) →
     tasks_Load key (tasks (mgr w')) = None ∧ EvReclaim p ∈ new).
Proof.
  intros Hwf Hk Hp w' new.
  destruct (TryGC_before_loop now w) as (w3 & marked3 & evs0 & Heq & Hm3 & Hs3 & Htr3 & Hos & Hquiet).
  assert (wf w3) as Hwf3 by by eapply wf_marks.
  destruct (reclaimLoop_spec (markedReclaimTasks (mgr w)) w3 marked3 Hwf3)
    as (_ & Hh & _ & _ & Hm & Hload & evs & Htr & Hrt & Hall & _).
  set (st' := foldl reclaimOne (w3, marked3) (markedReclaimTasks (mgr w))) in *.
  assert (tasks (mgr w') = tasks (mgr st'.1)) as Htasks by (subst w'; by rewrite Heq).
  assert (markedReclaimTasks (mgr w') = st'.2) as Hmarked by (subst w'; by rewrite Heq).
  assert (heap w' = heap w3) as Hheap by (subst w'; by rewrite Heq).
  assert (new = evs0 ++ evs) as Hnew.
  { subst new w'. rewrite Heq. simpl. rewrite Htr, Htr3, <- (assoc_L (++)).
    by rewrite drop_app_length. }
  assert (∀ q, EvReclaim q ∈ new → EvReclaim q ∈ evs) as Hev.
  { intros q. rewrite Hnew. intros [Hq|Hq]%elem_of_app; [|done].
    rewrite Forall_forall in Hos. by destruct (Hos _ Hq) as [c ?]. }
  rewrite Hm3 in Hload, Hall. pose proof Hwf as (Hkeys & Hlocs & _).
  split_and!.
  - intros Hnin. split.
    + rewrite Htasks, Hload. by rewrite decide_False.
    + intros Hq%Hev. destruct (reclaimTrace_Reclaim _ _ _ _ Hrt Hq) as (key' & Hin & Hk').
      rewrite Hm3 in Hk'. apply Hnin.
      by rewrite (tasks_Load_inj key key' p _ Hlocs Hk Hk').
  - intros Hfresh Hq Hu. destruct (Hquiet Hq Hu) as [-> Hh3]. split.
    + rewrite Hmarked. intros Hin. eapply elem_of_sublist in Hin; [|exact Hm].
      unfold expiredKeys in Hin.
      apply list_elem_of_fmap in Hin as ([k' p'] & Heqk & Hin). simpl in Heqk. subst k'.
      apply list_elem_of_filter in Hin as [Hexp Hin]. simpl in Hexp.
      rewrite (tasks_Load_NoDup _ _ _ Hkeys Hin) in Hk. injection Hk as ->.
      unfold expiredAt in Hexp. rewrite Hp in Hexp. unfold CanReclaim in Hexp.
      apply bool_decide_eq_true_1 in Hexp. lia.
    + rewrite Hheap, Hh3. unfold afterScan. simpl. rewrite markAll_lookup.
      rewrite decide_False; [done|].
      intros ([k' p'] & Heqp & Hin)%list_elem_of_fmap. simpl in Heqp. subst p'.
      apply list_elem_of_filter in Hin as [Hexp _]. simpl in Hexp.
      unfold expiredAt in Hexp. rewrite Hp in Hexp. unfold CanReclaim in Hexp.
      apply bool_decide_eq_true_1 in Hexp. lia.
  - intros Hin. split.
    + rewrite Htasks, Hload. by rewrite decide_True.
    + rewrite Hnew. apply elem_of_app. right. by eapply Hall.
Qed.

End TryGCDeletes.

Lemma wf_wOne : wf wOne.
Proof. apply (bool_decide_unpack _). vm_compute. reflexivity. Qed.

Lemma TryGC_deletes_only_marked_witness :
  wf wOne ∧
  tasks_Load key0 (tasks (mgr wOne)) = Some 0%nat ∧
  (tasks_Load key0 (tasks (mgr (TryGC 50 wOne).2)) = Some 0%nat ∧
   EvReclaim 0%nat ∉ drop (length (trace wOne)) (trace (TryGC 50 wOne).2)) ∧
  (key0 ∉ markedReclaimTasks (mgr (TryGC 50 wOne).2)).
Proof.
  split; [exact wf_wOne|]. split; [reflexivity|].
  destruct (TryGC_deletes_only_marked 50 wOne key0 0%nat _
              wf_wOne eq_refl eq_refl) as (Hkeep & Hfresh & _).
  split.
  - apply Hkeep. vm_compute. apply not_elem_of_nil.
  - apply Hfresh; [vm_compute; discriminate|reflexivity|reflexivity].
Defined.

(** A store is marked by the pass at time 1000 (it has expired), touched
    by [FindCompletedTask] at time 1001, and deleted by the pass at time
    1002, one nanosecond after the touch and well within the expiry time
    of 100: its key leaves the task map, [Reclaim] is called and its data
    file is gone. *)
Lemma TryGC_deletes_touched_store :
  let w2 := (TryGC 1000 wOne).2 in
  let w3 := (FindCompletedTask 1001 "task0" w2).2 in
  let w4 := (TryGC 1002 w3).2 in
  markedReclaimTasks (mgr w2) = [key0] ∧
  lastAccess <$> heap w3 !! 0%nat = Some 1001 ∧
  expireTime <$> heap w3 !! 0%nat = Some 100 ∧
  tasks_Load key0 (tasks (mgr w3)) = Some 0%nat ∧
  is_Some (MemFS.nodes (disk w3) !! "/data/task0/peer0/data") ∧
  tasks_Load key0 (tasks (mgr w4)) = None ∧
  drop (length (trace w3)) (trace w4) =
    [EvDelete key0; EvCleanIndex "task0" "peer0"; EvReclaim 0%nat] ∧
  MemFS.nodes (disk w4) !! "/data/task0/peer0/data" = None.
Proof. vm_compute. split_and!; eauto. Qed.

(** ** [forceGC] *)

Section ForceGC.

Context {FS : Type} `{!Env FS} `{!StoreImpl FS}.

Lemma sameButMarks_sym h h' : sameButMarks h h' → sameButMarks h' h.
Proof. unfold sameButMarks. done. Qed.

Lemma reclaimEvents_unmarked key t t' p :
  set_reclaimMarked false t' = set_reclaimMarked false t →
  reclaimEvents key t' p = reclaimEvents key t p.
Proof.
  intros (Hpm & _)%unmarked_fields. unfold reclaimEvents, TaskID, PeerID. by rewrite Hpm.
Qed.

Lemma reclaimTrace_marks (w0 w1 : World FS) keys key0 evs :
  sameButMarks (heap w0) (heap w1) →
  (∀ k p, tasks_Load k (tasks (mgr w1)) = Some p → tasks_Load k (tasks (mgr w0)) = Some p) →
  reclaimTrace w1 keys evs → reclaimTrace w0 (key0 :: keys) evs.
Proof.
  intros Hs Hl. induction 1 as [|key p t evs Hin Hk Hp _ IH]; [constructor|].
  destruct (sameButMarks_Some _ _ _ _ (sameButMarks_sym _ _ Hs) Hp) as (t0 & Hp0 & Heq).
  rewrite <- (reclaimEvents_unmarked key t t0 p Heq).
  constructor; [by right|by apply Hl|done|done].
Qed.

(** One round of [forceGC] on a registered entry of a well-formed state:
    the store is unregistered, cleaned from the index, marked and
    reclaimed. *)
Lemma forceOne_eq (w : World FS) meta p t :
  wf w → (meta, p) ∈ tasks (mgr w) → heap w !! p = Some t →
  forceOne w (meta, p) =
    set_heap (markAt (heap w) p)
             (afterReclaim meta p t (Reclaim (MarkReclaim t) (disk w)).1 w).
Proof.
  intros Hwf Hin Hp.
  destruct (wf_store_Some w meta p Hwf Hin) as (t' & Hp' & Hpid & Htid).
  rewrite Hp in Hp'. injection Hp' as <-.
  unfold forceOne. rewrite cleanIndex_eq. simpl. rewrite Hp.
  unfold callReclaim, afterReclaim, reclaimEvents, markAt. simpl. rewrite Hp, Hpid, Htid.
  destruct (Reclaim (MarkReclaim t) (disk w)) as [d e]. unfold emit, set_disk, set_heap. simpl.
  by rewrite <- !(assoc_L (++)).
Qed.

Lemma forceLoop_spec entries :
  ∀ w : World FS,
    wf w → NoDup entries.*1 → (∀ kp, kp ∈ entries → kp ∈ tasks (mgr w)) →
    forceResult w entries (foldl forceOne w entries).
Proof.
  induction entries as [|[meta p] entries IH]; intros w Hwf Hnd Hsub.
  - simpl. unfold forceResult. split_and!; try done.
    exists []. rewrite app_nil_r. split_and!; [done|constructor| |].
    + by intros ? ?%elem_of_nil.
    + by intros ? ?%elem_of_nil.
  - cbn [foldl]. pose proof Hwf as (Hkeys & Hlocs & _).
    assert ((meta, p) ∈ tasks (mgr w)) as Hin by (apply Hsub; by left).
    destruct (wf_store_Some w meta p Hwf Hin) as (t & Hp & _).
    assert (tasks_Load meta (tasks (mgr w)) = Some p) as Hk by by apply tasks_Load_NoDup.
    rewrite (forceOne_eq w meta p t Hwf Hin Hp).
    set (d := (Reclaim (MarkReclaim t) (disk w)).1).
    set (w1 := set_heap (markAt (heap w) p) (afterReclaim meta p t d w)).
    assert (wf (afterReclaim meta p t d w)) as Hwfa by by apply wf_afterReclaim.
    assert (wf w1) as Hwf1.
    { eapply wf_marks; [exact Hwfa|done|]. simpl. apply markAt_same. }
    apply NoDup_cons in Hnd as [Hnin Hnd]. simpl in Hnin.
    assert (∀ kp, kp ∈ entries → kp ∈ tasks (mgr w1)) as Hsub1.
    { intros [k q] Hkq. unfold w1, afterReclaim. simpl. apply list_elem_of_filter. split.
      - simpl. intros ->. apply Hnin. apply list_elem_of_fmap. by exists (meta, q).
      - apply Hsub. by right. }
    destruct (IH w1 Hwf1 Hnd Hsub1)
      as (Hwf' & Hs & Hsl & Hidx & Hload & evs & Htr & Hrt & Hall & Hgone).
    assert (∀ k q, tasks_Load k (tasks (mgr w1)) = Some q →
                   tasks_Load k (tasks (mgr w)) = Some q) as Hback.
    { intros k q. unfold w1, afterReclaim. simpl. rewrite tasks_Load_Delete.
      by case_decide. }
    unfold forceResult.
    change (((meta, p) :: entries).*1) with (meta :: entries.*1).
    split_and!.
    + done.
    + eapply sameButMarks_trans; [|done]. simpl. apply markAt_same.
    + etrans; [done|]. apply tasks_Delete_sublist.
    + intros q Hq. eapply (afterReclaim_indexed meta p t d). by apply Hidx.
    + intros k. rewrite Hload. unfold w1, afterReclaim. simpl. rewrite tasks_Load_Delete.
      destruct (decide (k = meta)) as [->|Hne].
      * rewrite (decide_True (P := meta ∈ meta :: entries.*1)) by left. by case_decide.
      * destruct (decide (k ∈ entries.*1)) as [Hi|Hni].
        -- by rewrite decide_True by by right.
        -- rewrite decide_False; [done|]. by intros [?|?]%elem_of_cons.
    + exists (reclaimEvents meta t p ++ evs). split_and!.
      * rewrite Htr. unfold w1, afterReclaim. simpl. by rewrite <- (assoc_L (++)).
      * simpl. constructor; [by left|done|done|].
        apply (reclaimTrace_marks w w1 entries.*1 meta evs); [|done|done].
        simpl. apply markAt_same.
      * intros kp [->|Hkp]%elem_of_cons; apply elem_of_app.
        -- left. unfold reclaimEvents. apply list_elem_of_In. simpl. tauto.
        -- right. by apply Hall.
      * intros q [Hq|Hq]%elem_of_app.
        -- unfold reclaimEvents in Hq. elem_cases Hq. injection Hq as ->.
           destruct (afterReclaim_gone meta p t d w Hwf Hk Hp) as [Hnr Hni].
           split.
           ++ intros Hr. apply Hnr. unfold registered in *.
              eapply elem_of_sublist; [done|]. by apply fmap_sublist.
           ++ intros Hi. apply Hni. by apply Hidx.
        -- by apply Hgone.
Qed.

End ForceGC.

(** ** Sequences of operations: stores do not resurface *)

Section Operations.

Context {FS : Type} `{!Env FS} `{!StoreImpl FS}.

Lemma noResurface_refl (w : World FS) : noResurface w w.
Proof. unfold noResurface. split_and!; [lia|done|done]. Qed.

Lemma noResurface_trans (w1 w2 w3 : World FS) :
  noResurface w1 w2 → noResurface w2 w3 → noResurface w1 w3.
Proof.
  intros (Hl1 & Hr1 & Hi1) (Hl2 & Hr2 & Hi2). unfold noResurface. split_and!.
  - lia.
  - intros p Hp Hr. apply Hr1; [done|]. apply Hr2; [lia|done].
  - intros p Hp Hi. apply Hi1; [done|]. apply Hi2; [lia|done].
Qed.

(** A state with the same manager and as many stores. *)
Lemma noResurface_same_mgr (w w' : World FS) :
  mgr w' = mgr w → length (heap w') = length (heap w) → noResurface w w'.
Proof.
  intros Hm Hl. unfold noResurface, registered, indexed. rewrite Hm. split_and!; [lia|done|done].
Qed.

Lemma noResurface_Keep now (w : World FS) : noResurface w (Keep now w).
Proof. unfold noResurface, registered, indexed. simpl. split_and!; [lia|done|done]. Qed.

Lemma delegate_noResurface {A} p (f : localTaskStore → FS → A * localTaskStore * FS)
    (notFound : A) (w : World FS) :
  noResurface w (delegate p f notFound w).2.
Proof.
  unfold delegate. destruct (heap w !! p) as [t|]; [|apply noResurface_refl].
  destruct (f t (disk w)) as [[r t'] d]. simpl.
  apply noResurface_same_mgr; [done|]. simpl. by rewrite length_insert.
Qed.

Lemma tasks_replace_values k p (m : list (PeerTaskMetadata * loc)) q :
  q ∈ (tasks_replace k p m).*2 → q ∈ m.*2 ∨ q = p.
Proof.
  induction m as [|[k' p'] m IH]; simpl; [by left|].
  case_decide; simpl.
  - intros [->|Hq]%elem_of_cons; [by right|]. left. by right.
  - intros [->|Hq]%elem_of_cons; [left; by left|].
    destruct (IH Hq) as [?|?]; [left; by right|by right].
Qed.

Lemma tasks_Store_values k p (m : list (PeerTaskMetadata * loc)) q :
  q ∈ (tasks_Store k p m).*2 → q ∈ m.*2 ∨ q = p.
Proof.
  unfold tasks_Store. destruct (tasks_Load k m).
  - apply tasks_replace_values.
  - rewrite fmap_app. intros [?|Hq]%elem_of_app; [by left|].
    right. simpl in Hq. by apply list_elem_of_singleton in Hq.
Qed.

Lemma registeredNew_noResurface req p (w w' : World FS) :
  registeredNew req p w w' → noResurface w w'.
Proof.
  intros (Hp & (t & Hh & _) & Ht & Hi & _). subst p.
  unfold noResurface, registered, indexed.
  rewrite Hh, Ht, Hi, length_app. simpl. split_and!.
  - lia.
  - intros q Hq [?| ->]%tasks_Store_values; [done|lia].
  - intros q Hq (tid & ps & Hps & Hin).
    destruct (decide (tid = req_TaskID (reg_common req))) as [->|Hne].
    + rewrite lookup_insert_eq in Hps. injection Hps as <-.
      apply elem_of_app in Hin as [Hin|Hin].
      * destruct (indexTask2PeerTask (mgr w) !! req_TaskID (reg_common req)) as [ps0|] eqn:Hps0;
          [eauto|]. simpl in Hin. by apply elem_of_nil in Hin.
      * apply list_elem_of_singleton in Hin. lia.
    + rewrite lookup_insert_ne in Hps by done. eauto.
Qed.

Lemma RegisterTask_noResurface now req (w : World FS) :
  noResurface w (RegisterTask now req w).2.
Proof.
  destruct (tasks_Load (keyOf req) (tasks (mgr w))) as [p|] eqn:Hk.
  - rewrite (RegisterTask_present _ _ _ _ Hk). apply noResurface_Keep.
  - rewrite (RegisterTask_absent _ _ _ Hk).
    pose proof (CreateTask_result now req (Keep now (Keep now w))) as Hres.
    destruct (CreateTask now req (Keep now (Keep now w))) as [[p|e] w1]; simpl in *.
    + by eapply registeredNew_noResurface.
    + destruct Hres as (Ht & Hi & _ & Hh). unfold noResurface, registered, indexed.
      rewrite Ht, Hi, Hh. split_and!; [lia|done|done].
Qed.

Lemma FindCompletedTask_noResurface now taskID (w : World FS) :
  noResurface w (FindCompletedTask now taskID w).2.
Proof.
  unfold FindCompletedTask. destruct (_ !! taskID) as [ts|]; [|apply noResurface_refl].
  pose proof (findCompleted_length now taskID ts (heap w)) as Hl.
  destruct (findCompleted now taskID ts (heap w)) as [r h]. simpl in *.
  by apply noResurface_same_mgr.
Qed.

Lemma cleanIndex_noResurface taskID peerID (w : World FS) :
  noResurface w (cleanIndex taskID peerID w).
Proof.
  rewrite cleanIndex_eq. unfold noResurface, registered, indexed. simpl.
  split_and!; [lia|done|].
  intros p _ (tid & ps & Hps & Hin). rewrite cleanedIndex_lookup in Hps.
  case_decide; [|eauto].
  destruct (indexTask2PeerTask (mgr w) !! tid) as [ps0|] eqn:Hps0; [|done].
  injection Hps as <-. apply list_elem_of_filter in Hin as [_ Hin]. eauto.
Qed.

Lemma afterReclaim_noResurface key p t d (w : World FS) :
  noResurface w (afterReclaim key p t d w).
Proof.
  unfold noResurface. split_and!; [done| |].
  - intros q _ Hq. unfold registered, afterReclaim in *. simpl in Hq.
    eapply elem_of_sublist; [done|]. apply fmap_sublist, tasks_Delete_sublist.
  - intros q _. apply afterReclaim_indexed.
Qed.

Lemma reclaimLoop_noResurface keys (st : World FS * list PeerTaskMetadata) :
  noResurface st.1 (foldl reclaimOne st keys).1.
Proof.
  revert st. induction keys as [|key keys IH]; intros [w marked]; [apply noResurface_refl|].
  cbn [foldl]. eapply noResurface_trans; [|apply IH].
  destruct (reclaimOne_cases w marked key) as [[-> _]|(p & t & _ & _ & ->)].
  - apply noResurface_refl.
  - apply afterReclaim_noResurface.
Qed.

Lemma sameButMarks_length h h' : sameButMarks h h' → length h' = length h.
Proof.
  intros Hs. rewrite <- (length_fmap (set_reclaimMarked false) h), Hs.
  symmetry. apply length_fmap.
Qed.

Lemma TryGC_noResurface now (w : World FS) : noResurface w (TryGC now w).2.
Proof.
  destruct (TryGC_before_loop now w) as (w3 & marked3 & evs0 & -> & Hm3 & Hs3 & _).
  simpl. eapply noResurface_trans.
  - apply (noResurface_same_mgr w w3 Hm3). by apply sameButMarks_length.
  - eapply noResurface_trans;
      [apply (reclaimLoop_noResurface (markedReclaimTasks (mgr w)) (w3, marked3))|].
    unfold noResurface, registered, indexed. simpl. split_and!; [lia|done|done].
Qed.

End Operations.

Section NoResurface.

Context {FS : Type} `{!Env FS} `{!StoreImpl FS}.

Lemma forceOne_noResurface (w : World FS) entry : noResurface w (forceOne w entry).
Proof.
  destruct entry as [meta p]. unfold forceOne.
  set (w1 := emit (EvDelete meta) (upd_mgr (set_tasks (tasks_Delete meta (tasks (mgr w)))) w)).
  assert (noResurface w w1) as H1.
  { unfold noResurface, registered, indexed. simpl. split_and!; [lia| |done].
    intros q _ Hq. eapply elem_of_sublist; [done|]. apply fmap_sublist, tasks_Delete_sublist. }
  pose proof (cleanIndex_noResurface (meta_TaskID meta) (meta_PeerID meta) w1) as H2.
  set (w2 := cleanIndex (meta_TaskID meta) (meta_PeerID meta) w1) in *.
  eapply noResurface_trans; [exact H1|]. eapply noResurface_trans; [exact H2|].
  destruct (heap w2 !! p) as [t|]; [|apply noResurface_refl].
  unfold callReclaim. simpl. destruct (Reclaim _ _) as [d e]. simpl.
  apply noResurface_same_mgr; [done|]. simpl. by rewrite length_insert.
Qed.

Lemma forceLoop_noResurface entries (w : World FS) :
  noResurface w (foldl forceOne w entries).
Proof.
  revert w. induction entries as [|entry entries IH]; intros w; [apply noResurface_refl|].
  cbn [foldl]. eapply noResurface_trans; [apply forceOne_noResurface|apply IH].
Qed.

Lemma run_noResurface o (w : World FS) : noResurface w (run o w).
Proof.
  destruct o; simpl.
  - apply RegisterTask_noResurface.
  - apply FindCompletedTask_noResurface.
  - apply TryGC_noResurface.
  - apply forceLoop_noResurface.
  - unfold WritePiece, LoadTask. simpl. destruct (tasks_Load _ _); simpl.
    + eapply noResurface_trans; [apply (noResurface_Keep now)|apply delegate_noResurface].
    + apply noResurface_Keep.
  - unfold ReadPiece, LoadTask. simpl. destruct (tasks_Load _ _); simpl.
    + eapply noResurface_trans; [apply (noResurface_Keep now)|apply delegate_noResurface].
    + apply noResurface_Keep.
  - unfold ReadAllPieces, LoadTask. simpl. destruct (tasks_Load _ _); simpl.
    + eapply noResurface_trans; [apply (noResurface_Keep now)|apply delegate_noResurface].
    + apply noResurface_Keep.
  - unfold Store, LoadTask. simpl. destruct (tasks_Load _ _); simpl.
    + eapply noResurface_trans; [apply (noResurface_Keep now)|apply delegate_noResurface].
    + apply noResurface_Keep.
  - unfold GetPieces, LoadTask. simpl. destruct (tasks_Load _ _); simpl.
    + eapply noResurface_trans; [apply (noResurface_Keep now)|apply delegate_noResurface].
    + apply noResurface_Keep.
  - unfold UpdateTask, LoadTask. simpl. destruct (tasks_Load _ _); simpl.
    + eapply noResurface_trans; [apply (noResurface_Keep now)|apply delegate_noResurface].
    + apply noResurface_Keep.
  - unfold ValidateDigest, LoadTask. simpl. destruct (tasks_Load _ _); simpl.
    + eapply noResurface_trans; [apply (noResurface_Keep now)|apply delegate_noResurface].
    + apply noResurface_Keep.
  - unfold IsInvalid, LoadTask. simpl. destruct (tasks_Load _ _); simpl.
    + eapply noResurface_trans; [apply (noResurface_Keep now)|apply delegate_noResurface].
    + apply noResurface_Keep.
Qed.

Lemma runAll_noResurface ops (w : World FS) : noResurface w (runAll ops w).
Proof.
  revert w. induction ops as [|o ops IH]; intros w; [apply noResurface_refl|].
  unfold runAll. cbn [foldl]. eapply noResurface_trans; [apply run_noResurface|apply IH].
Qed.

(** A store that is neither registered nor indexed stays so, whatever
    the manager is asked to do next. *)
Lemma gone_forever ops (w : World FS) p :
  (p < length (heap w))%nat → ¬ registered w p → ¬ indexed w p →
  ¬ registered (runAll ops w) p ∧ ¬ indexed (runAll ops w) p.
Proof.
  intros Hp Hr Hi. destruct (runAll_noResurface ops w) as (_ & Hr' & Hi').
  split; intros ?; [apply Hr|apply Hi]; eauto.
Qed.

End NoResurface.

(** ** Reclaimed stores stay out *)

Section StayOut.

Context {FS : Type} `{!Env FS} `{!StoreImpl FS}.

Lemma split_after_os (evs0 evs pre post : list event) p :
  Forall (λ e, ∃ c, e = EvOS c) evs0 →
  evs0 ++ evs = pre ++ EvReclaim p :: post →
  ∃ pre2, pre = evs0 ++ pre2 ∧ evs = pre2 ++ EvReclaim p :: post.
Proof.
  revert pre. induction evs0 as [|e evs0 IH]; intros pre Hos Heq.
  - exists pre. done.
  - apply Forall_cons in Hos as [[c ->] Hos].
    destruct pre as [|a pre]; simplify_eq/=.
    destruct (IH pre Hos ltac:(done)) as (pre2 & -> & ->). by exists pre2.
Qed.

Lemma reclaimTrace_in_order (w0 : World FS) keys evs pre p post :
  wf w0 → reclaimTrace w0 keys evs → evs = pre ++ EvReclaim p :: post →
  ∃ key pre', pre = pre' ++ [EvDelete key; EvCleanIndex (meta_TaskID key) (meta_PeerID key)] ∧
              tasks_Load key (tasks (mgr w0)) = Some p.
Proof.
  intros Hwf Hrt Heq.
  destruct (reclaimTrace_before _ _ _ _ _ _ Hrt Heq) as (key & t & pre' & -> & _ & Hk & Hp).
  destruct (wf_store_Some w0 key p Hwf (tasks_Load_elem _ _ _ Hk)) as (t' & Hp' & Hpid & Htid).
  rewrite Hp in Hp'. injection Hp' as <-. rewrite Hpid, Htid. eauto.
Qed.

Lemma TryGC_reclaimsInOrder now (w : World FS) : wf w → reclaimsInOrder w (TryGC now w).2.
Proof.
  intros Hwf.
  destruct (TryGC_before_loop now w) as (w3 & marked3 & evs0 & Heq & Hm3 & Hs3 & Htr3 & Hos & _).
  assert (wf w3) as Hwf3 by by eapply wf_marks.
  destruct (reclaimLoop_spec (markedReclaimTasks (mgr w)) w3 marked3 Hwf3)
    as (_ & Hh & _ & _ & _ & _ & evs & Htr & Hrt & _ & Hgone).
  set (st' := foldl reclaimOne (w3, marked3) (markedReclaimTasks (mgr w))) in *.
  unfold reclaimsInOrder. rewrite Heq. simpl.
  rewrite Htr, Htr3, <- (assoc_L (++)), drop_app_length.
  split_and!.
  - intros pre p post Hsplit.
    destruct (split_after_os _ _ _ _ _ Hos Hsplit) as (pre2 & -> & Hevs).
    destruct (reclaimTrace_in_order w3 _ _ _ _ _ Hwf3 Hrt Hevs) as (key & pre' & -> & Hk).
    exists key, (evs0 ++ pre'). rewrite Hm3 in Hk. by rewrite <- (assoc_L (++)).
  - intros e [He|He]%elem_of_app.
    + rewrite Forall_forall in Hos. by destruct (Hos _ He) as [c ->].
    + by eapply reclaimTrace_no_insert.
  - intros p [Hp|Hp]%elem_of_app ops.
    { rewrite Forall_forall in Hos. by destruct (Hos _ Hp) as [c ?]. }
    destruct (reclaimTrace_Reclaim _ _ _ _ Hrt Hp) as (key & _ & Hk).
    destruct (wf_store_Some w3 key p Hwf3 (tasks_Load_elem _ _ _ Hk)) as (t & Ht & _).
    destruct (Hgone p Hp) as [Hr Hi].
    apply gone_forever; [|done|done].
    simpl. rewrite Hh. by eapply lookup_lt_Some.
Qed.

Lemma forceGC_reclaimsInOrder (w : World FS) : wf w → reclaimsInOrder w (forceGC w).2.
Proof.
  intros Hwf. pose proof Hwf as (Hkeys & _).
  destruct (forceLoop_spec (tasks (mgr w)) w Hwf Hkeys ltac:(done))
    as (_ & Hs & _ & _ & _ & evs & Htr & Hrt & _ & Hgone).
  unfold reclaimsInOrder, forceGC. simpl. rewrite Htr, drop_app_length.
  split_and!.
  - intros pre p post Hsplit. by eapply reclaimTrace_in_order.
  - intros e He. by eapply reclaimTrace_no_insert.
  - intros p Hp ops.
    destruct (reclaimTrace_Reclaim _ _ _ _ Hrt Hp) as (key & _ & Hk).
    destruct (wf_store_Some w key p Hwf (tasks_Load_elem _ _ _ Hk)) as (t & Ht & _).
    destruct (Hgone p Hp) as [Hr Hi].
    apply gone_forever; [|done|done].
    rewrite (sameButMarks_length _ _ Hs). by eapply lookup_lt_Some.
Qed.

(** C2 (as amended). On both reclamation paths, the deletion pass of
    [TryGC] over the marked set of the previous pass and [forceGC], run
    from a well-formed state: a store's (TaskID, PeerID) key is deleted
    from the task map and the index is cleaned under that key directly
    before [Reclaim] deletes the store's files; the path inserts nothing
    into the task map or the index; and the reclaimed store is never in
    either of them afterwards, whatever operations follow. (The key
    itself can be registered again: a later [RegisterTask] with the same
    TaskID and PeerID creates a fresh store under it.) [forceGC] reclaims
    every registered store, [TryGC] every registered store of the marked
    set. *)
Theorem reclaimed_stores_stay_out (now : Z) (w : World FS) :
  wf w →
  reclaimsInOrder w (TryGC now w).2 ∧
  reclaimsInOrder w (forceGC w).2 ∧
  (∀ key p, key ∈ markedReclaimTasks (mgr w) → tasks_Load key (tasks (mgr w)) = Some p →
            EvReclaim p ∈ drop (length (trace w)) (trace (TryGC now w).2)) ∧
  (∀ key p, tasks_Load key (tasks (mgr w)) = Some p →
            EvReclaim p ∈ drop (length (trace w)) (trace (forceGC w).2)).
Proof.
  intros Hwf. split_and!.
  - by apply TryGC_reclaimsInOrder.
  - by apply forceGC_reclaimsInOrder.
  - intros key p Hin Hk.
    destruct (TryGC_before_loop now w) as (w3 & marked3 & evs0 & Heq & Hm3 & Hs3 & Htr3 & _).
    assert (wf w3) as Hwf3 by by eapply wf_marks.
    destruct (reclaimLoop_spec (markedReclaimTasks (mgr w)) w3 marked3 Hwf3)
      as (_ & _ & _ & _ & _ & _ & evs & Htr & _ & Hall & _).
    rewrite Heq. simpl. rewrite Htr, Htr3, <- (assoc_L (++)), drop_app_length.
    apply elem_of_app. right. eapply Hall; [done|]. by rewrite Hm3.
  - intros key p Hk. pose proof Hwf as (Hkeys & _).
    destruct (forceLoop_spec (tasks (mgr w)) w Hwf Hkeys ltac:(done))
      as (_ & _ & _ & _ & _ & evs & Htr & _ & Hall & _).
    unfold forceGC. simpl. rewrite Htr, drop_app_length.
    apply (Hall (key, p)). by apply tasks_Load_elem.
Qed.

End StayOut.

Lemma wf_wMarked : wf wMarked.
Proof. apply (bool_decide_unpack _). vm_compute. reflexivity. Qed.

Lemma reclaimed_stores_stay_out_witness :
  wf wMarked ∧
  EvReclaim 0%nat ∈ drop (length (trace wMarked)) (trace (TryGC 1002 wMarked).2) ∧
  ¬ registered (runAll [OpFindCompletedTask 2000 "task0"; OpTryGC 2001] (TryGC 1002 wMarked).2) 0%nat ∧
  ¬ indexed (runAll [OpFindCompletedTask 2000 "task0"; OpTryGC 2001] (TryGC 1002 wMarked).2) 0%nat.
Proof.
  split; [exact wf_wMarked|].
  destruct (reclaimed_stores_stay_out 1002 wMarked wf_wMarked) as ((_ & _ & Hout) & _ & Hall & _).
  assert (EvReclaim 0%nat ∈ drop (length (trace wMarked)) (trace (TryGC 1002 wMarked).2)) as Hev.
  { apply (Hall key0 0%nat); [|reflexivity]. vm_compute. by left. }
  split; [exact Hev|]. exact (Hout 0%nat Hev _).
Defined.

(** The key of a reclaimed store comes back into the task map and the
    index when [RegisterTask] is called with it again, as the daemon's
    own piece manager test does (it registers the same task and peer on
    one manager in every case, and cleans up after each): after
    [CleanUp] has reclaimed the store at location 0, a fresh store at
    location 1 is registered and indexed under the same key. *)
Lemma reclaimed_key_registered_again :
  let w' := CleanUp wOne in
  let w'' := (RegisterTask 2000 req0 w').2 in
  tasks_Load key0 (tasks (mgr wOne)) = Some 0%nat ∧
  drop (length (trace wOne)) (trace w') =
    [EvDelete key0; EvCleanIndex "task0" "peer0"; EvReclaim 0%nat] ∧
  tasks_Load key0 (tasks (mgr w')) = None ∧
  indexTask2PeerTask (mgr w') !! "task0" = Some [] ∧
  tasks_Load key0 (tasks (mgr w'')) = Some 1%nat ∧
  indexTask2PeerTask (mgr w'') !! "task0" = Some [1%nat] ∧
  drop (length (trace w')) (trace w'') =
    [EvOS (CMkdirAll "/data/task0/peer0"); EvOS (COpenFile "/data/task0/peer0/metadata");
     EvOS (COpenFile "/data/task0/peer0/data"); EvStore key0 1%nat; EvIndexAppend "task0" 1%nat].
Proof. vm_compute. split_and!; done. Qed.

(** Outside the well-formed states the index is not cleaned. The reload
    registers a store under the names of its directories, whatever its
    metadata file says: the store of [wCrashed], whose metadata names no
    task and no peer, is registered under task0 and peer0. The deletion
    pass cleans the index under the identifiers of the store's own
    metadata, so the reclaimed store stays in the index list of task0. *)
Lemma reclaimed_store_stays_indexed :
  let w1 := (ReloadPersistentTask 7 wCrashed).2 in
  let w2 := (TryGC 1000 w1).2 in
  let w3 := (TryGC 1001 w2).2 in
  ¬ wf w1 ∧
  tasks_Load key0 (tasks (mgr w1)) = Some 0%nat ∧
  storeKey (heap w1) 0%nat = Some {| meta_PeerID := ""; meta_TaskID := "" |} ∧
  markedReclaimTasks (mgr w2) = [key0] ∧
  drop (length (trace w2)) (trace w3) = [EvDelete key0; EvCleanIndex "" ""; EvReclaim 0%nat] ∧
  tasks (mgr w3) = [] ∧
  indexTask2PeerTask (mgr w3) !! "task0" = Some [0%nat].
Proof.
  split_and!; try (vm_compute; reflexivity).
  apply (bool_decide_eq_false_1 _). vm_compute. reflexivity.
Qed.

(** ** Reload of the persistent tasks *)

Section Reload.

Context {FS : Type} `{!Env FS} `{!StoreImpl FS}.


End Reload.


(** ** Well-formedness is kept *)

Section WfKept.

Context {FS : Type} `{!Env FS} `{!StoreImpl FS}.

(** Well-formedness reads the heap through the stores' persistent
    metadata only. *)
Lemma wf_persistent (w w' : World FS) :
  wf w → mgr w' = mgr w → persistent <$> heap w' = persistent <$> heap w → wf w'.
Proof.
  intros (Hk & Hl & Hst & Hidx) Hm Hs.
  assert (∀ p, persistent <$> heap w' !! p = persistent <$> heap w !! p) as Hp.
  { intros p. by rewrite <- !list_lookup_fmap, Hs. }
  assert (∀ p, storeKey (heap w') p = storeKey (heap w) p) as Hkey.
  { intros p. specialize (Hp p). unfold storeKey, PeerID, TaskID.
    destruct (heap w' !! p), (heap w !! p); simplify_eq/=; [by rewrite Hp|done]. }
  assert (∀ p, TaskID <$> heap w' !! p = TaskID <$> heap w !! p) as Htid.
  { intros p. specialize (Hp p). unfold TaskID.
    destruct (heap w' !! p), (heap w !! p); simplify_eq/=; [by rewrite Hp|done]. }
  unfold wf. rewrite Hm. split_and!; [done|done| |].
  - eapply Forall_impl; [done|]. intros kp Hkp. simpl in *. by rewrite Hkey.
  - intros tid ps Hps. specialize (Hidx _ _ Hps). simpl in *.
    eapply Forall_impl; [done|]. intros p Hp'. simpl in *. by rewrite Htid.
Qed.

Lemma findCompleted_persistent now taskID ts h :
  persistent <$> (findCompleted now taskID ts h).2 = persistent <$> h.
Proof.
  revert h. induction ts as [|p ts IH]; intros h; simpl; [done|].
  destruct (h !! p) as [t|] eqn:Hp; [|done].
  assert (persistent <$> <[p := touch now t]> h = persistent <$> h) as Hins.
  { rewrite list_fmap_insert. apply list_insert_id. by rewrite list_lookup_fmap, Hp. }
  destruct (invalid t); [done|].
  destruct (reclaimMarked t); [by rewrite IH|].
  destruct (Done t); simpl; [done|by rewrite IH].
Qed.

Lemma wf_newWorld (s : storageManager) (d : FS) :
  tasks s = [] → indexTask2PeerTask s = ∅ → wf (newWorld s d).
Proof.
  intros Ht Hi. unfold wf, newWorld. simpl. rewrite Ht, Hi.
  split_and!; [constructor|constructor|constructor|apply map_Forall_empty].
Qed.

Lemma wf_Keep now (w : World FS) : wf w → wf (Keep now w).
Proof. done. Qed.

Lemma wf_registeredNew req p (w w' : World FS) :
  wf w → tasks_Load (keyOf req) (tasks (mgr w)) = None →
  registeredNew req p w w' → wf w'.
Proof.
  intros Hwf Hk (Hp & (t & Hh & Htid & Hpid & _) & Ht & Hi & _). subst p.
  pose proof Hwf as (Hkeys & Hlocs & Hst & Hidx).
  assert (tasks (mgr w') = tasks (mgr w) ++ [(keyOf req, length (heap w))]) as Ht'.
  { rewrite Ht. unfold tasks_Store. by rewrite Hk. }
  unfold wf. rewrite Ht', Hi, Hh, !fmap_app. simpl. split_and!.
  - apply NoDup_app. split_and!; [done| |apply NoDup_singleton].
    intros k Hin ->%list_elem_of_singleton. by apply tasks_Load_None in Hk.
  - apply NoDup_app. split_and!; [done| |apply NoDup_singleton].
    intros q Hin ->%list_elem_of_singleton.
    apply list_elem_of_fmap in Hin as ([k q] & Hq & Hin). simpl in Hq. subst q.
    destruct (wf_store_Some w k _ Hwf Hin) as (t' & Ht'' & _).
    apply lookup_lt_Some in Ht''. lia.
  - apply Forall_app. split.
    + rewrite Forall_forall in *. intros [k q] Hin.
      destruct (wf_store_Some w k q Hwf Hin) as (t' & Hq & _).
      specialize (Hst _ Hin). simpl in *. unfold storeKey in *.
      by rewrite (lookup_app_l_Some _ _ _ _ Hq), <- Hst, Hq.
    + constructor; [|constructor]. simpl. unfold storeKey.
      rewrite list_lookup_middle by done. simpl. unfold keyOf. by rewrite Htid, Hpid.
  - assert (∀ tid q, TaskID <$> heap w !! q = Some tid →
                     TaskID <$> (heap w ++ [t]) !! q = Some tid) as Hext.
    { intros tid q Hq. destruct (heap w !! q) as [t'|] eqn:Hq'; [|done].
      by rewrite (lookup_app_l_Some _ _ _ _ Hq'). }
    apply map_Forall_insert_2.
    + apply Forall_app. split.
      * destruct (indexTask2PeerTask (mgr w) !! req_TaskID (reg_common req)) as [ps|] eqn:Hps;
          simpl; [|constructor].
        specialize (Hidx _ _ Hps). simpl in Hidx.
        eapply Forall_impl; [done|]. intros q Hq. by apply Hext.
      * constructor; [|constructor]. rewrite list_lookup_middle by done. simpl. by rewrite Htid.
    + intros tid ps Hps. specialize (Hidx _ _ Hps). simpl in *.
      eapply Forall_impl; [done|]. intros q Hq. by apply Hext.
Qed.

Lemma wf_RegisterTask now req (w : World FS) : wf w → wf (RegisterTask now req w).2.
Proof.
  intros Hwf. destruct (tasks_Load (keyOf req) (tasks (mgr w))) as [p|] eqn:Hk.
  - by rewrite (RegisterTask_present _ _ _ _ Hk).
  - rewrite (RegisterTask_absent _ _ _ Hk).
    pose proof (CreateTask_result now req (Keep now (Keep now w))) as Hres.
    destruct (CreateTask now req (Keep now (Keep now w))) as [[p|e] w1]; simpl in *.
    + by eapply (wf_registeredNew req p (Keep now (Keep now w))).
    + destruct Hres as (Ht & Hi & _ & Hh). destruct Hwf as (? & ? & ? & ?).
      unfold wf. by rewrite Ht, Hi, Hh.
Qed.

Lemma wf_FindCompletedTask now taskID (w : World FS) :
  wf w → wf (FindCompletedTask now taskID w).2.
Proof.
  intros Hwf. unfold FindCompletedTask. destruct (_ !! taskID) as [ts|]; [|done].
  pose proof (findCompleted_persistent now taskID ts (heap w)) as Hp.
  destruct (findCompleted now taskID ts (heap w)) as [r h]. simpl in *.
  by eapply wf_persistent.
Qed.

Lemma wf_TryGC now (w : World FS) : wf w → wf (TryGC now w).2.
Proof.
  intros Hwf.
  destruct (TryGC_before_loop now w) as (w3 & marked3 & evs0 & -> & Hm3 & Hs3 & _).
  assert (wf w3) as Hwf3 by by eapply wf_marks.
  by destruct (reclaimLoop_spec (markedReclaimTasks (mgr w)) w3 marked3 Hwf3) as (Hwf' & _).
Qed.

Lemma wf_CleanUp (w : World FS) : wf w → wf (CleanUp w).
Proof.
  intros Hwf. pose proof Hwf as (Hkeys & _).
  by destruct (forceLoop_spec (tasks (mgr w)) w Hwf Hkeys ltac:(done)) as (Hwf' & _).
Qed.

End WfKept.

(** * Further properties: construction and reload *)

Section ReloadConfig.
Context {FS : Type} `{!Env FS} `{!StoreImpl FS}.

Lemma sameConfig_refl s : sameConfig s s.
Proof. done. Qed.

Lemma sameConfig_trans s1 s2 s3 : sameConfig s1 s2 → sameConfig s2 s3 → sameConfig s1 s3.
Proof. unfold sameConfig. intros (?&?&?&?&?&?) (?&?&?&?&?&?). split_and!; congruence. Qed.

Lemma reloadPeerDir_config now taskID (acc : reloadAcc) peerID :
  sameConfig (mgr acc.1.1) (mgr (reloadPeerDir now taskID acc peerID).1.1).
Proof.
  destruct acc as [[w errs] dirs]. unfold reloadPeerDir, ask, loadFailed, storeNew, indexAppend.
  simpl. destruct (os_Open _ _); simpl; [done|].
  destruct (io_ReadAll _ _); simpl; [|done].
  destruct (json_Unmarshal _ _); simpl; done.
Qed.

Lemma reloadPeerDirs_config now taskID peerDirs :
  ∀ acc : reloadAcc,
    sameConfig (mgr acc.1.1) (mgr (foldl (reloadPeerDir now taskID) acc peerDirs).1.1).
Proof.
  induction peerDirs as [|peerID peerDirs IH]; intros acc; [done|]. simpl.
  eapply sameConfig_trans; [apply reloadPeerDir_config|apply IH].
Qed.

Lemma reloadTaskDir_config now (acc : reloadAcc) taskID :
  sameConfig (mgr acc.1.1) (mgr (reloadTaskDir now acc taskID).1.1).
Proof.
  destruct acc as [[w errs] dirs]. unfold reloadTaskDir, ask, sys. cbv beta iota zeta.
  destruct (os_ReadDir _ _) as [[|peerID peerDirs]|e]; [| |done].
  - destruct (String.prefix _ _); [done|]. by destruct (os_Remove _ _).
  - eapply sameConfig_trans; [|apply reloadPeerDirs_config]. done.
Qed.

Lemma reloadTaskDirs_config now dirs :
  ∀ acc : reloadAcc,
    sameConfig (mgr acc.1.1) (mgr (foldl (reloadTaskDir now) acc dirs).1.1).
Proof.
  induction dirs as [|taskID dirs IH]; intros acc; [done|]. simpl.
  eapply sameConfig_trans; [apply reloadTaskDir_config|apply IH].
Qed.

Lemma removeLoadErrDir_mgr (w : World FS) dir : mgr (removeLoadErrDir w dir) = mgr w.
Proof.
  unfold removeLoadErrDir, sys, ask. simpl.
  destruct (os_Remove (path.Join [dir; taskMetadata]) (disk w)) as [d1 e1]. simpl.
  destruct (os_Lstat _ d1) as [fi|e2]; simpl.
  - destruct (fi_symlink fi); simpl.
    + destruct (os_Readlink _ d1) as [dest|e3]; simpl.
      * destruct (os_Remove dest d1) as [d3 e4]. simpl.
        destruct (os_Remove _ d3) as [d4 e5]. simpl. by destruct (os_Remove dir d4).
      * destruct (os_Remove _ d1) as [d4 e5]. simpl. by destruct (os_Remove dir d4).
    + destruct (os_Remove _ d1) as [d4 e5]. simpl. by destruct (os_Remove dir d4).
  - by destruct (os_Remove dir d1).
Qed.

Lemma removeLoadErrDirs_mgr dirs : ∀ w : World FS, mgr (foldl removeLoadErrDir w dirs) = mgr w.
Proof.
  induction dirs as [|dir dirs IH]; intros w; [done|]. simpl.
  by rewrite IH, removeLoadErrDir_mgr.
Qed.

(** The reload registers stores; it leaves the configuration of the
    manager and the list of pending keys as they are. *)
Lemma ReloadPersistentTask_config now (w : World FS) :
  sameConfig (mgr w) (mgr (ReloadPersistentTask now w).2).
Proof.
  unfold ReloadPersistentTask, ask. simpl.
  destruct (os_ReadDir _ _) as [dirs|e]; simpl.
  - pose proof (reloadTaskDirs_config now dirs
                  (emit (EvOS (CReadDir (DataPath (storeOption (mgr w))))) w, [], [])) as Hc.
    destruct (foldl (reloadTaskDir now) _ dirs) as [[w1 errs] edirs]. simpl in *.
    assert (mgr (foldl removeLoadErrDir w1 edirs) = mgr w1) as Hm by apply removeLoadErrDirs_mgr.
    destruct errs; simpl; by rewrite Hm.
  - by destruct e as [|? ? []| | |].
Qed.

End ReloadConfig.

(** ** [NewStorageManager] *)

Section ConstructionProperties.
Context {FS : Type} `{!Env FS} `{!StoreImpl FS} `{!Cwd FS}.

Lemma applyOpts_runOption opts :
  ∀ s, ∃ s',
    applyOpts (runOption <$> opts) s = Ok s' ∧
    storeStrategy s' = storeStrategy s ∧
    dataPathStat_Dev s' = dataPathStat_Dev s ∧
    markedReclaimTasks s' = markedReclaimTasks s ∧
    tasks s' = tasks s ∧ indexTask2PeerTask s' = indexTask2PeerTask s ∧
    storeOption s' = default (storeOption s) (last (optsStorage opts)) ∧
    gcInterval s' = default (gcInterval s) (last (optsInterval opts)).
Proof.
  unfold applyOpts.
  induction opts as [|o opts IH] using rev_ind; intros s.
  - exists s. by split_and!.
  - destruct (IH s) as (s1 & Heq & H1 & H2 & H3 & H4 & H5 & H6 & H7).
    rewrite fmap_app, foldl_app. simpl. rewrite Heq.
    unfold optsStorage, optsInterval in *. rewrite !omap_app. simpl.
    destruct o as [opt|i]; simpl; eexists; (split; [done|]); simpl;
      rewrite ?app_nil_r, ?last_snoc; simpl; split_and!; done.
Qed.

(** X1. What [NewStorageManager] builds. The strategy of the manager is the
    simple or the advance one, the empty strategy standing for the
    simple one. The device recorded for the data path is that of the
    path given (made absolute) at the first or, after its creation, the
    second [os.Stat]. The options run in order, the last of a kind
    winning: the GC interval is one minute unless an option sets it; a
    storage option given by [WithStorageOption] replaces the one given
    as argument as it is, its path neither made absolute nor inspected,
    while the recorded device stays that of the argument's path. The
    state returned is the one [ReloadPersistentTask] leaves. *)
Theorem NewStorageManager_builds (now : Z) (strategy : StoreStrategy) (opt : StorageOption)
    (opts : list managerOption) (d : FS) (w : World FS) (d' : FS) :
  NewStorageManager now strategy opt (runOption <$> opts) d = (Ok w, d') →
  d' = disk w ∧
  checkStrategy strategy = Ok (storeStrategy (mgr w)) ∧
  (storeStrategy (mgr w) = SimpleLocalTaskStoreStrategy ∨
   storeStrategy (mgr w) = AdvanceLocalTaskStoreStrategy) ∧
  (strategy = OtherStoreStrategy "" → storeStrategy (mgr w) = SimpleLocalTaskStoreStrategy) ∧
  (∃ opt1 stat,
     absDataPath opt d = Ok opt1 ∧
     (statOrCreate (DataPath opt1) d).1.1 = Ok stat ∧
     dataPathStat_Dev (mgr w) = fi_Dev stat ∧
     storeOption (mgr w) = default opt1 (last (optsStorage opts)) ∧
     ∃ s, sameConfig s (mgr w) ∧ tasks s = [] ∧ indexTask2PeerTask s = ∅ ∧
          w = (ReloadPersistentTask now
                 (mkWorld s [] (statOrCreate (DataPath opt1) d).1.2
                          (EvOS <$> (statOrCreate (DataPath opt1) d).2))).2) ∧
  gcInterval (mgr w) = default 60000000000 (last (optsInterval opts)) ∧
  markedReclaimTasks (mgr w) = [].
Proof.
  unfold NewStorageManager. intros Hnew.
  destruct (absDataPath opt d) as [opt1|e]; [|done].
  destruct (statOrCreate (DataPath opt1) d) as [[stat d1] calls] eqn:Hsc.
  destruct stat as [stat|e]; [|done].
  destruct (checkStrategy strategy) as [strategy'|e] eqn:Hcs; [|done].
  destruct (applyOpts_runOption opts (newManager strategy' opt1 (fi_Dev stat)))
    as (s & Heq & H1 & H2 & H3 & H4 & H5 & H6 & H7).
  rewrite Heq in Hnew. injection Hnew as <- <-.
  pose proof (ReloadPersistentTask_config now (mkWorld s [] d1 (EvOS <$> calls)))
    as (C1 & C2 & C3 & C4 & C5 & C6). simpl in *.
  assert (storeStrategy s = SimpleLocalTaskStoreStrategy ∨
          storeStrategy s = AdvanceLocalTaskStoreStrategy) as Hs.
  { rewrite H1. unfold checkStrategy in Hcs.
    destruct strategy as [| |x]; [injection Hcs as <-; by left|injection Hcs as <-; by right|].
    case_decide; [injection Hcs as <-; by left|done]. }
  split_and!; try done.
  - by rewrite C1, H1.
  - by rewrite C1.
  - intros ->. rewrite C1, H1. unfold checkStrategy in Hcs. simpl in Hcs. by injection Hcs as <-.
  - exists opt1, stat. rewrite Hsc. simpl. split_and!; try done.
    + by rewrite C3, H2.
    + by rewrite C2, H6.
    + exists s. rewrite H4, H5. split_and!; done.
  - by rewrite C4, H7.
  - by rewrite C5, H3.
Qed.

(** X2. When [NewStorageManager] fails. It returns a manager exactly when
    the data path can be made absolute, can be inspected, if need be
    after its creation, and the strategy is one it supports: an error of
    the reload is logged and does not fail the construction. A strategy
    it does not support is refused only after the data path has been
    inspected and created. *)
Theorem NewStorageManager_fails_only_early (now : Z) (strategy : StoreStrategy)
    (opt : StorageOption) (opts : list managerOption) (d : FS) :
  let res := NewStorageManager now strategy opt (runOption <$> opts) d in
  (isOk res.1 = true ↔
     ∃ opt1 stat, absDataPath opt d = Ok opt1 ∧
                  (statOrCreate (DataPath opt1) d).1.1 = Ok stat ∧
                  isOk (checkStrategy strategy) = true) ∧
  (∀ opt1 stat s,
     absDataPath opt d = Ok opt1 →
     (statOrCreate (DataPath opt1) d).1.1 = Ok stat →
     strategy = OtherStoreStrategy s → s ≠ "" →
     res = (Err (ErrNew ("not support store strategy: " +:+ s)),
            (statOrCreate (DataPath opt1) d).1.2)).
Proof.
  intros res. subst res. unfold NewStorageManager. split.
  - destruct (absDataPath opt d) as [opt1|e]; simpl.
    + destruct (statOrCreate (DataPath opt1) d) as [[stat d1] calls] eqn:Hsc.
      destruct stat as [stat|e]; simpl.
      * destruct (checkStrategy strategy) as [strategy'|e] eqn:Hcs; simpl.
        -- destruct (applyOpts_runOption opts (newManager strategy' opt1 (fi_Dev stat)))
             as (s & -> & _). simpl. split; [|done]. intros _. exists opt1, stat.
           rewrite Hsc. done.
        -- split; [done|]. intros (opt1' & stat' & [= <-] & _ & ?). done.
      * split; [done|]. intros (opt1' & stat' & [= <-] & Hs & _). by rewrite Hsc in Hs.
    + split; [done|]. by intros (opt1' & stat' & ? & _).
  - intros opt1 stat s -> Hstat -> Hne.
    destruct (statOrCreate (DataPath opt1) d) as [[stat' d1] calls]. simpl in *. subst stat'.
    unfold checkStrategy. by rewrite decide_False.
Qed.

End ConstructionProperties.

(** ** A manager built on an empty data path *)

Section FreshManager.
Context {FS : Type} `{!Env FS} `{!StoreImpl FS} `{!Cwd FS}.

(** X3. A manager built on a data path that has no entries, as one that
    [NewStorageManager] has just created: the construction succeeds, the
    manager holds no task and its state is coherent, so that the
    invariant of the manager holds from the start. *)
Theorem NewStorageManager_fresh (now : Z) (strategy : StoreStrategy) (opt opt1 : StorageOption)
    (d d1 : FS) (stat : FileInfo) (calls : list oscall) :
  absDataPath opt d = Ok opt1 →
  statOrCreate (DataPath opt1) d = (Ok stat, d1, calls) →
  isOk (checkStrategy strategy) = true →
  os_ReadDir (DataPath opt1) d1 = Ok [] →
  ∃ w, NewStorageManager now strategy opt [] d = (Ok w, d1) ∧
       tasks (mgr w) = [] ∧ indexTask2PeerTask (mgr w) = ∅ ∧ heap w = [] ∧
       markedReclaimTasks (mgr w) = [] ∧ storeOption (mgr w) = opt1 ∧
       dataPathStat_Dev (mgr w) = fi_Dev stat ∧ disk w = d1 ∧
       trace w = (EvOS <$> calls) ++ [EvOS (CReadDir (DataPath opt1))] ∧
       coherent w.
Proof.
  intros Habs Hsc Hcs Hrd. unfold NewStorageManager. rewrite Habs, Hsc.
  destruct (checkStrategy strategy) as [strategy'|e]; [|done].
  simpl. unfold ReloadPersistentTask, ask. simpl. rewrite Hrd. simpl.
  eexists. split; [reflexivity|]. simpl. split_and!; try done.
  split; [|by apply map_Forall_empty].
  apply (wf_newWorld (newManager strategy' opt1 (fi_Dev stat)) d1); done.
Qed.

End FreshManager.

(** ** The edges of the reload *)

Lemma is_rooted_join_slash root rest :
  path.is_rooted root = true → path.is_rooted (path.join_slash (root :: rest)) = true.
Proof.
  destruct root as [|c r]; [done|]. simpl. by destruct rest.
Qed.

Lemma Clean_rooted p :
  path.is_rooted p = true → ∃ body, path.Clean p = String "/"%char body.
Proof. intros Hp. unfold path.Clean. rewrite Hp. eauto. Qed.

(** A path joined onto an absolute path is absolute. *)
Lemma Join_rooted root rest :
  path.is_rooted root = true → ∃ body, path.Join (root :: rest) = String "/"%char body.
Proof.
  intros Hp. unfold path.Join. rewrite filter_cons, decide_True by by destruct root.
  apply Clean_rooted. by apply is_rooted_join_slash.
Qed.

Section ReloadEdges.
Context {FS : Type} `{!Env FS} `{!StoreImpl FS}.

(** X4. The edges of [ReloadPersistentTask]. A data path that does not
    exist is no error and nothing is done; any other error of reading it
    is returned. An empty data path registers nothing. An entry of the
    data path that cannot be read as a directory is passed over. An
    entry without entries of its own is removed with [os.Remove], whose
    error is only logged: the exemption of names that begin with a dot
    tests the joined path, which under an absolute data path begins with
    a slash, so that it exempts nothing. *)
Theorem ReloadPersistentTask_edges (now : Z) (w : World FS) :
  let root := DataPath (storeOption (mgr w)) in
  let w0 := emit (EvOS (CReadDir root)) w in
  (∀ e, os_ReadDir root (disk w) = Err e →
     ReloadPersistentTask now w = (if os_IsNotExist (Some e) then None else Some e, w0)) ∧
  (os_ReadDir root (disk w) = Ok [] → ReloadPersistentTask now w = (None, w0)) ∧
  (∀ (errs : list error) (dirs : list string) taskID,
     let taskDir := path.Join [root; taskID] in
     let w1 := emit (EvOS (CReadDir taskDir)) w in
     (∀ e, os_ReadDir taskDir (disk w) = Err e →
        reloadTaskDir now (w, errs, dirs) taskID = (w1, errs, dirs)) ∧
     (path.is_rooted root = true → os_ReadDir taskDir (disk w) = Ok [] →
        reloadTaskDir now (w, errs, dirs) taskID =
          (emit (EvOS (CRemove taskDir)) (set_disk (os_Remove taskDir (disk w)).1 w1),
           errs, dirs))).
Proof.
  intros root w0. split_and!.
  - intros e He. unfold ReloadPersistentTask, ask. fold root. cbv beta iota zeta.
    rewrite He. by destruct (os_IsNotExist (Some e)).
  - intros He. unfold ReloadPersistentTask, ask. fold root. by rewrite He.
  - intros errs dirs taskID taskDir w1. split.
    + intros e He. unfold reloadTaskDir, ask. fold root taskDir. by rewrite He.
    + intros Hroot He. unfold reloadTaskDir, ask, sys. fold root taskDir.
      cbv beta iota zeta. rewrite He.
      destruct (Join_rooted root [taskID] Hroot) as (body & Hj). fold taskDir in Hj.
      rewrite Hj at 1. simpl.
      by destruct (os_Remove taskDir (disk w)).
Qed.

End ReloadEdges.

(** ** [CreateTask] with the advance strategy *)

Section AdvanceStrategy.
Context {FS : Type} `{!Env FS} `{!StoreImpl FS}.


End AdvanceStrategy.

(** ** [FindCompletedTask]: what it touches, and what registration
    changes for it *)

Section Reuse.
Context {FS : Type} `{!Env FS} `{!StoreImpl FS}.

Lemma findCompleted_frame now taskID ts :
  ∀ h p,
    (findCompleted now taskID ts h).2 !! p = h !! p ∨
    ∃ t, h !! p = Some t ∧ (findCompleted now taskID ts h).2 !! p = Some (touch now t) ∧
         invalid t = false ∧ p ∈ ts.
Proof.
  induction ts as [|q ts IH]; intros h p; simpl; [by left|].
  assert ((findCompleted now taskID ts h).2 !! p = h !! p ∨
          ∃ t, h !! p = Some t ∧ (findCompleted now taskID ts h).2 !! p = Some (touch now t) ∧
               invalid t = false ∧ p ∈ q :: ts) as Hskip.
  { destruct (IH h p) as [?|(t & ? & ? & ? & ?)]; [by left|].
    right. exists t. split_and!; try done. by right. }
  destruct (h !! q) as [tq|] eqn:Hq; [|done].
  destruct (invalid tq) eqn:Hinv; [done|].
  assert (∀ h', h' = <[q := touch now tq]> h →
            (findCompleted now taskID ts h').2 !! p = h !! p ∨
            ∃ t, h !! p = Some t ∧
                 (findCompleted now taskID ts h').2 !! p = Some (touch now t) ∧
                 invalid t = false ∧ p ∈ q :: ts) as Hgo.
  { intros h' ->. destruct (decide (p = q)) as [->|Hne].
    - right. exists tq. split_and!; [done| |done|by left].
      pose proof (findCompleted_keeps_touched now taskID ts (<[q := touch now tq]> h) q) as Hk.
      rewrite list_lookup_insert_eq in Hk by by eapply lookup_lt_Some.
      specialize (Hk eq_refl).
      destruct (IH (<[q := touch now tq]> h) q) as [Heq|(t & Ht & Heq & _)].
      + rewrite Heq. by rewrite list_lookup_insert_eq by by eapply lookup_lt_Some.
      + rewrite list_lookup_insert_eq in Ht by by eapply lookup_lt_Some.
        injection Ht as <-. rewrite Heq. done.
    - destruct (IH (<[q := touch now tq]> h) p) as [Heq|(t & Ht & Heq & Hi & Hin)].
      + left. by rewrite Heq, list_lookup_insert_ne.
      + rewrite list_lookup_insert_ne in Ht by done.
        right. exists t. split_and!; try done. by right. }
  destruct (reclaimMarked tq); [by apply Hgo|].
  destruct (Done tq); simpl; [|by apply Hgo].
  destruct (decide (p = q)) as [->|Hne].
  - right. exists tq. split_and!; [done| |done|by left].
    by rewrite list_lookup_insert_eq by by eapply lookup_lt_Some.
  - left. by rewrite list_lookup_insert_ne.
Qed.

(** A store after [FindCompletedTask] is as it was, or touched. *)
Lemma FindCompletedTask_store now taskID (w : World FS) p :
  heap (FindCompletedTask now taskID w).2 !! p = heap w !! p ∨
  ∃ t, heap w !! p = Some t ∧
       heap (FindCompletedTask now taskID w).2 !! p = Some (touch now t) ∧ invalid t = false.
Proof.
  unfold FindCompletedTask.
  destruct (indexTask2PeerTask (mgr w) !! taskID) as [ts|]; [|by left].
  pose proof (findCompleted_frame now taskID ts (heap w) p) as Hf.
  destruct (findCompleted now taskID ts (heap w)) as [r h]. simpl in *.
  destruct Hf as [?|(t & ? & ? & ? & _)]; [by left|]. right. by exists t.
Qed.

(** X6. [FindCompletedTask] changes nothing but last-access times: the
    manager, the file system and the trace stay, and a store is either
    as it was or touched, which happens only to stores of the list of
    the task asked for that are not invalid; a store that is alone in
    its list is touched also when it is marked for reclaim or
    unfinished. An unknown task leaves the state as it is. *)
Theorem FindCompletedTask_only_touches (now : Z) (taskID : string) (w : World FS) :
  let w' := (FindCompletedTask now taskID w).2 in
  mgr w' = mgr w ∧ disk w' = disk w ∧ trace w' = trace w ∧
  (indexTask2PeerTask (mgr w) !! taskID = None → w' = w) ∧
  (∀ p, heap w' !! p = heap w !! p ∨
        ∃ t ts, heap w !! p = Some t ∧ heap w' !! p = Some (touch now t) ∧
                invalid t = false ∧
                indexTask2PeerTask (mgr w) !! taskID = Some ts ∧ p ∈ ts) ∧
  (∀ p t, indexTask2PeerTask (mgr w) !! taskID = Some [p] →
          heap w !! p = Some t → invalid t = false →
          heap w' !! p = Some (touch now t)).
Proof.
  intros w'. subst w'. unfold FindCompletedTask.
  destruct (indexTask2PeerTask (mgr w) !! taskID) as [ts|] eqn:Hts.
  - pose proof (findCompleted_frame now taskID ts (heap w)) as Hf.
    destruct (findCompleted now taskID ts (heap w)) as [r h] eqn:Hfc. simpl in *.
    split_and!; try done.
    + intros p. destruct (Hf p) as [?|(t & ? & ? & ? & ?)]; [by left|].
      right. by exists t, ts.
    + intros p t [= ->] Hp Hinv. simpl in Hfc. rewrite Hp, Hinv in Hfc.
      assert (h = <[p := touch now t]> (heap w)) as ->.
      { destruct (reclaimMarked t); [by injection Hfc as _ <-|].
        destruct (Done t); simpl in Hfc; by injection Hfc as _ <-. }
      by rewrite list_lookup_insert_eq by by eapply lookup_lt_Some.
  - split_and!; try done. intros p. by left.
Qed.

Lemma findCompleted_result now taskID ts h :
  (findCompleted now taskID ts h).1 =
    firstReusable h ts ≫= λ p, reuseOf taskID <$> h !! p.
Proof.
  pose proof (findCompleted_spec now taskID ts h) as Hs.
  destruct (firstReusable h ts) as [p|]; simpl; [|done].
  destruct Hs as (t & -> & -> & _). done.
Qed.

Lemma reusable_extend h t q :
  is_Some (h !! q) → reusable (h ++ [t]) q = reusable h q.
Proof.
  intros Hq. unfold reusable. rewrite lookup_app_l; [done|].
  destruct Hq as [? Hq]. by eapply lookup_lt_Some.
Qed.

Lemma firstReusable_extend h t ts :
  Forall (λ q, is_Some (h !! q)) ts → firstReusable (h ++ [t]) ts = firstReusable h ts.
Proof.
  induction 1 as [|q ts Hq _ IH]; [done|].
  by rewrite !firstReusable_cons, reusable_extend, IH.
Qed.

Lemma firstReusable_app h ts1 ts2 :
  firstReusable h (ts1 ++ ts2) =
    match firstReusable h ts1 with
    | Some p => Some p
    | None => firstReusable h ts2
    end.
Proof.
  induction ts1 as [|q ts1 IH]; [done|]. simpl.
  rewrite !firstReusable_cons, IH. by destruct (reusable h q).
Qed.

Lemma firstReusable_valid h ts p : firstReusable h ts = Some p → is_Some (h !! p).
Proof.
  intros Hf. apply firstReusable_first in Hf as (_ & _ & Hr & _).
  unfold reusable in Hr. destruct (h !! p); [eauto|done].
Qed.

(** X7. Registration does not change what can be reused: after a
    [RegisterTask] in a well-formed state, successful or not,
    [FindCompletedTask] answers every task as it would have before. *)
Theorem RegisterTask_keeps_reuse (now now' : Z) (req : RegisterTaskRequest)
    (taskID : string) (w : World FS) :
  wf w →
  (FindCompletedTask now' taskID (RegisterTask now req w).2).1 =
  (FindCompletedTask now' taskID w).1.
Proof.
  intros Hwf.
  assert (∀ w' : World FS, indexTask2PeerTask (mgr w') = indexTask2PeerTask (mgr w) →
                heap w' = heap w →
                (FindCompletedTask now' taskID w').1 = (FindCompletedTask now' taskID w).1)
    as Hsame.
  { intros w' Hi Hh. unfold FindCompletedTask. rewrite Hi, Hh.
    destruct (_ !! taskID) as [ts|]; [|done].
    by destruct (findCompleted now' taskID ts (heap w)). }
  destruct (tasks_Load (keyOf req) (tasks (mgr w))) as [p|] eqn:Hl.
  { rewrite (RegisterTask_present _ _ _ _ Hl). by apply Hsame. }
  rewrite (RegisterTask_absent _ _ _ Hl).
  pose proof (CreateTask_result now req (Keep now (Keep now w))) as Hc.
  destruct (CreateTask now req (Keep now (Keep now w))) as [[p|e] w'] eqn:Hct; simpl in *.
  2:{ destruct Hc as (_ & Hi & _ & Hh). by apply Hsame. }
  destruct Hc as (-> & (t & Hh & _ & _ & _ & _ & Hdone) & _ & Hi & _).
  cbn [Keep upd_mgr mgr heap set_keepAlive indexTask2PeerTask] in Hh, Hi |- *.
  assert (∀ ts, indexTask2PeerTask (mgr w) !! taskID = Some ts →
                Forall (λ q, is_Some (heap w !! q)) ts) as Hvalid.
  { intros ts Hts. apply Forall_forall. intros q Hq.
    destruct (wf_index_Some w taskID ts q Hwf Hts Hq) as (tq & -> & _). eauto. }
  assert (reusable (heap w ++ [t]) (length (heap w)) = false) as Hnew.
  { unfold reusable. rewrite list_lookup_middle by done. by rewrite Hdone, andb_false_r. }
  assert (∀ ts, Forall (λ q, is_Some (heap w !! q)) ts →
            (firstReusable (heap w ++ [t]) ts ≫= λ p, reuseOf taskID <$> (heap w ++ [t]) !! p) =
            (firstReusable (heap w) ts ≫= λ p, reuseOf taskID <$> heap w !! p)) as Hres.
  { intros ts Hts. rewrite firstReusable_extend by done.
    destruct (firstReusable (heap w) ts) as [q|] eqn:Hq; simpl; [|done].
    apply firstReusable_valid in Hq as [tq Hq].
    rewrite lookup_app_l by by eapply lookup_lt_Some. done. }
  unfold FindCompletedTask. rewrite Hi, Hh.
  destruct (decide (taskID = req_TaskID (reg_common req))) as [->|Hne].
  - rewrite lookup_insert_eq.
    destruct (indexTask2PeerTask (mgr w) !! req_TaskID (reg_common req)) as [ts|] eqn:Hts;
      rewrite ?Hts; simpl.
    + pose proof (findCompleted_result now' (req_TaskID (reg_common req))
                    (ts ++ [length (heap w)]) (heap w ++ [t])) as H1.
      pose proof (findCompleted_result now' (req_TaskID (reg_common req)) ts (heap w)) as H2.
      destruct (findCompleted now' _ (ts ++ _) _) as [r1 h1].
      destruct (findCompleted now' _ ts (heap w)) as [r2 h2]. simpl in *.
      rewrite H1, H2, firstReusable_app, firstReusable_extend by by apply Hvalid.
      destruct (firstReusable (heap w) ts) as [q|] eqn:Hq; simpl.
      * apply firstReusable_valid in Hq as [tq Hq].
        rewrite lookup_app_l by by eapply lookup_lt_Some. done.
      * by rewrite firstReusable_cons, Hnew.
    + unfold findCompleted.
      rewrite list_lookup_middle by done.
      destruct (invalid t); [done|]. destruct (reclaimMarked t); [done|].
      by rewrite Hdone.
  - rewrite lookup_insert_ne by done.
    destruct (indexTask2PeerTask (mgr w) !! taskID) as [ts|] eqn:Hts; [|done].
    pose proof (findCompleted_result now' taskID ts (heap w ++ [t])) as H1.
    pose proof (findCompleted_result now' taskID ts (heap w)) as H2.
    destruct (findCompleted now' taskID ts (heap w ++ [t])) as [r1 h1].
    destruct (findCompleted now' taskID ts (heap w)) as [r2 h2]. simpl in *.
    rewrite H1, H2. apply Hres. by apply Hvalid.
Qed.

End Reuse.

(** * Further properties of the storage manager *)

(** ** [cleanIndex] *)

Section CleanIndex.
Context {FS : Type} `{!Env FS} `{!StoreImpl FS}.

Lemma keptByClean_true h peerID p :
  keptByClean h peerID p = true ↔ PeerID <$> h !! p ≠ Some peerID.
Proof.
  unfold keptByClean. destruct (h !! p) as [t|]; simpl; [|done].
  rewrite bool_decide_eq_true. split.
  - intros Hn [= Heq]. done.
  - intros Hn Heq. apply Hn. by rewrite Heq.
Qed.

(** X8. [cleanIndex] takes out of the list of [taskID] the stores whose
    [PeerID] is [peerID], keeps the others in their order, and touches
    nothing else: the lists of the other tasks, the task map, the stores
    and the file system stay. A task id never leaves the index: when no
    store is left its list is empty. Cleaning twice is cleaning once. *)
Theorem cleanIndex_removes_peer (taskID peerID : string) (w : World FS) :
  let w' := cleanIndex taskID peerID w in
  (∀ tid, tid ≠ taskID →
     indexTask2PeerTask (mgr w') !! tid = indexTask2PeerTask (mgr w) !! tid) ∧
  (indexTask2PeerTask (mgr w) !! taskID = None → indexTask2PeerTask (mgr w') !! taskID = None) ∧
  (∀ ps, indexTask2PeerTask (mgr w) !! taskID = Some ps →
     ∃ ps', indexTask2PeerTask (mgr w') !! taskID = Some ps' ∧
            ps' `sublist_of` ps ∧
            ∀ p, p ∈ ps' ↔ p ∈ ps ∧ PeerID <$> heap w !! p ≠ Some peerID) ∧
  dom (indexTask2PeerTask (mgr w')) = dom (indexTask2PeerTask (mgr w)) ∧
  tasks (mgr w') = tasks (mgr w) ∧
  markedReclaimTasks (mgr w') = markedReclaimTasks (mgr w) ∧
  heap w' = heap w ∧ disk w' = disk w ∧
  indexTask2PeerTask (mgr (cleanIndex taskID peerID w')) = indexTask2PeerTask (mgr w').
Proof.
  intros w'. subst w'. rewrite !cleanIndex_eq. simpl.
  split_and!; try done.
  - intros tid Hne. rewrite cleanedIndex_lookup. by rewrite decide_False.
  - intros Hn. rewrite cleanedIndex_lookup, decide_True by done. by rewrite Hn.
  - intros ps Hps. exists (remainAfterClean (heap w) peerID ps). split_and!.
    + rewrite cleanedIndex_lookup, decide_True by done. by rewrite Hps.
    + apply sublist_filter.
    + intros p. unfold remainAfterClean. rewrite list_elem_of_filter, keptByClean_true.
      tauto.
  - apply set_eq. intros tid. rewrite !elem_of_dom, cleanedIndex_lookup.
    destruct (decide (tid = taskID)); [|done].
    by rewrite fmap_is_Some.
  - apply map_eq. intros tid. rewrite !cleanedIndex_lookup.
    destruct (decide (tid = taskID)); [|done].
    destruct (indexTask2PeerTask (mgr w) !! tid) as [ps|]; simpl; [|done].
    f_equal. unfold remainAfterClean. apply list_filter_filter_l. done.
Qed.

End CleanIndex.

(** ** The driver operations leave the manager's books alone *)

Section DriverFrame.
Context {FS : Type} `{!Env FS} `{!StoreImpl FS}.

Lemma delegate_frame {A} p (f : localTaskStore → FS → A * localTaskStore * FS)
    (notFound : A) (w : World FS) :
  mgr (delegate p f notFound w).2 = mgr w ∧
  trace (delegate p f notFound w).2 = trace w ∧
  length (heap (delegate p f notFound w).2) = length (heap w) ∧
  ∀ q, q ≠ p → heap (delegate p f notFound w).2 !! q = heap w !! q.
Proof.
  unfold delegate. destruct (heap w !! p) as [t|]; [|done].
  destruct (f t (disk w)) as [[r t'] d]. simpl. split_and!; try done.
  - by rewrite length_insert.
  - intros q Hne. by rewrite list_lookup_insert_ne.
Qed.

(** X9. A driver operation ([WritePiece], [ReadPiece], [ReadAllPieces],
    [Store], [GetPieces], [UpdateTask], [ValidateDigest], [IsInvalid])
    records the keep-alive time and runs the method of the store
    registered under the key it addresses. It registers, unregisters,
    indexes and marks nothing, calls no [Reclaim], and changes no store
    but that one. *)
Theorem driver_operations_frame (o : op) (w : World FS) :
  driverOp o = true →
  let w' := run o w in
  tasks (mgr w') = tasks (mgr w) ∧
  indexTask2PeerTask (mgr w') = indexTask2PeerTask (mgr w) ∧
  markedReclaimTasks (mgr w') = markedReclaimTasks (mgr w) ∧
  storeOption (mgr w') = storeOption (mgr w) ∧
  trace w' = trace w ∧
  length (heap w') = length (heap w) ∧
  (∀ q, tasks_Load (driverKey o) (tasks (mgr w)) ≠ Some q → heap w' !! q = heap w !! q) ∧
  (tasks_Load (driverKey o) (tasks (mgr w)) = None → heap w' = heap w ∧ disk w' = disk w).
Proof.
  intros Hd w'. subst w'.
  assert (∀ {A} key now (f : localTaskStore → FS → A * localTaskStore * FS) (nf : A),
            let w' := (let '(t, w1) := LoadTask now key w in
                       match t with
                       | None => (nf, w1)
                       | Some p => delegate p f nf w1
                       end).2 in
            tasks (mgr w') = tasks (mgr w) ∧
            indexTask2PeerTask (mgr w') = indexTask2PeerTask (mgr w) ∧
            markedReclaimTasks (mgr w') = markedReclaimTasks (mgr w) ∧
            storeOption (mgr w') = storeOption (mgr w) ∧
            trace w' = trace w ∧
            length (heap w') = length (heap w) ∧
            (∀ q, tasks_Load key (tasks (mgr w)) ≠ Some q → heap w' !! q = heap w !! q) ∧
            (tasks_Load key (tasks (mgr w)) = None → heap w' = heap w ∧ disk w' = disk w))
    as Hgen.
  { intros A key now f nf. unfold LoadTask. simpl.
    destruct (tasks_Load key (tasks (mgr w))) as [p|] eqn:Hl; simpl; [|done].
    destruct (delegate_frame p f nf (Keep now w)) as (Hm & Ht & Hlen & Hother).
    rewrite Hm, Ht, Hlen. split_and!; try done.
    intros q Hq. apply Hother. congruence. }
  destruct o; try done; simpl.
  - destruct req as [[peer task] num off len rd].
    apply (Hgen _ {| meta_PeerID := peer; meta_TaskID := task |}).
  - destruct req as [[peer task] num].
    apply (Hgen _ {| meta_PeerID := peer; meta_TaskID := task |}).
  - destruct req as [[peer task]].
    apply (Hgen _ {| meta_PeerID := peer; meta_TaskID := task |}).
  - apply Hgen.
  - apply Hgen.
  - destruct req as [[peer task] cl tp].
    apply (Hgen _ {| meta_PeerID := peer; meta_TaskID := task |}).
  - destruct req as [peer task].
    apply (Hgen _ {| meta_PeerID := peer; meta_TaskID := task |}).
  - destruct req as [peer task].
    apply (Hgen _ {| meta_PeerID := peer; meta_TaskID := task |}).
Qed.

End DriverFrame.

(** ** [CleanUp] *)

Section CleanUpAll.
Context {FS : Type} `{!Env FS} `{!StoreImpl FS}.

Lemma coherent_indexed (w : World FS) p : coherent w → indexed w p → registered w p.
Proof.
  intros [_ Hc] (taskID & ps & Hl & Hin).
  specialize (Hc taskID ps Hl). rewrite Forall_forall in Hc. by apply Hc.
Qed.

Lemma forceOne_frame (w : World FS) kp :
  tasks (mgr (forceOne w kp)) = tasks_Delete kp.1 (tasks (mgr w)) ∧
  markedReclaimTasks (mgr (forceOne w kp)) = markedReclaimTasks (mgr w) ∧
  heap (forceOne w kp) = markAt (heap w) kp.2 ∧
  trace (forceOne w kp) = trace w ++ forceEvents (heap w) kp.
Proof.
  destruct kp as [meta p]. unfold forceOne, forceEvents, markAt, callReclaim.
  rewrite cleanIndex_eq. simpl.
  destruct (heap w !! p) as [t|]; simpl.
  - destruct (Reclaim (MarkReclaim t) (disk w)) as [d err]. simpl.
    split_and!; try done. by rewrite <- !(assoc_L (++)).
  - split_and!; try done. by rewrite <- !(assoc_L (++)).
Qed.

Lemma forceEvents_markAt h q kp : forceEvents (markAt h q) kp = forceEvents h kp.
Proof.
  unfold forceEvents. rewrite markAt_lookup.
  destruct (decide (kp.2 = q)); [|done]. by destruct (h !! kp.2).
Qed.

Lemma flat_map_forceEvents_markAt h q (entries : list (PeerTaskMetadata * loc)) :
  flat_map (forceEvents (markAt h q)) entries = flat_map (forceEvents h) entries.
Proof.
  induction entries as [|kp entries IH]; [done|].
  cbn [flat_map]. by rewrite forceEvents_markAt, IH.
Qed.

Lemma forceLoop_frame entries :
  ∀ w : World FS,
    tasks (mgr (foldl forceOne w entries)) =
      foldl (λ m kp, tasks_Delete kp.1 m) (tasks (mgr w)) entries ∧
    markedReclaimTasks (mgr (foldl forceOne w entries)) = markedReclaimTasks (mgr w) ∧
    heap (foldl forceOne w entries) = markAll (heap w) entries.*2 ∧
    trace (foldl forceOne w entries) = trace w ++ flat_map (forceEvents (heap w)) entries.
Proof.
  induction entries as [|kp entries IH]; intros w; simpl.
  - by rewrite app_nil_r.
  - destruct (IH (forceOne w kp)) as (Ht & Hm & Hh & Htr).
    destruct (forceOne_frame w kp) as (Ht1 & Hm1 & Hh1 & Htr1).
    rewrite Ht, Hm, Hh, Htr, Ht1, Hm1, Hh1, Htr1. split_and!; try done.
    by rewrite flat_map_forceEvents_markAt, <- (assoc_L (++)).
Qed.

Lemma delete_all_keys (entries : list (PeerTaskMetadata * loc)) :
  ∀ m : list (PeerTaskMetadata * loc),
    (∀ kp, kp ∈ m → kp.1 ∈ entries.*1) →
    foldl (λ m kp, tasks_Delete kp.1 m) m entries = [].
Proof.
  induction entries as [|kp entries IH]; intros m Hm; simpl.
  - destruct m as [|x m]; [done|]. specialize (Hm x ltac:(by left)).
    by apply elem_of_nil in Hm.
  - apply IH. intros x Hx. unfold tasks_Delete in Hx.
    apply list_elem_of_filter in Hx as [Hne Hx].
    specialize (Hm x Hx). simpl in Hm. apply elem_of_cons in Hm as [Heq|Hin]; [done|done].
Qed.

(** The task map and the heap [CleanUp] leaves. *)
Lemma CleanUp_tasks_heap (w : World FS) :
  tasks (mgr (CleanUp w)) = [] ∧ heap (CleanUp w) = markAll (heap w) (tasks (mgr w)).*2.
Proof.
  unfold CleanUp, forceGC. simpl.
  destruct (forceLoop_frame (tasks (mgr w)) w) as (Ht & _ & Hh & _).
  split; [|done]. rewrite Ht. apply delete_all_keys. intros kp Hkp.
  apply list_elem_of_fmap. by exists kp.
Qed.

(** X10. [CleanUp] (that is [forceGC]) empties the task map, whatever it
    holds: for each entry, in the order of the map, the key is deleted,
    the index cleaned under the key's identifiers, the store marked and
    its [Reclaim] called, once. The result is [(true, nil)] also when a
    [Reclaim] fails, and the list of keys pending from the last [TryGC]
    pass is left as it is. *)
Theorem CleanUp_reclaims_all (w : World FS) :
  let w' := CleanUp w in
  (forceGC w).1 = (true, None) ∧
  tasks (mgr w') = [] ∧
  trace w' = trace w ++ flat_map (forceEvents (heap w)) (tasks (mgr w)) ∧
  heap w' = markAll (heap w) (tasks (mgr w)).*2 ∧
  (∀ p t, p ∈ (tasks (mgr w)).*2 → heap w !! p = Some t → heap w' !! p = Some (MarkReclaim t)) ∧
  markedReclaimTasks (mgr w') = markedReclaimTasks (mgr w).
Proof.
  intros w'. subst w'. unfold CleanUp, forceGC. simpl.
  destruct (forceLoop_frame (tasks (mgr w)) w) as (Ht & Hm & Hh & Htr).
  split_and!; try done.
  - rewrite Ht. apply delete_all_keys. intros kp Hkp.
    apply list_elem_of_fmap. by exists kp.
  - intros p t Hp Hl. rewrite Hh, markAll_lookup, decide_True by done. by rewrite Hl.
Qed.

(** X11. After [CleanUp] of a coherent state nothing is left to find: the
    lookup that every driver operation starts with misses for every key,
    no store is in any index list, [FindCompletedTask] has no task to
    reuse, and a [RegisterTask] that succeeds has created a new store
    object. *)
Theorem CleanUp_leaves_nothing (w : World FS) :
  coherent w →
  let w' := CleanUp w in
  (∀ key, tasks_Load key (tasks (mgr w')) = None) ∧
  (∀ now key, LoadTask now key w' = (None, Keep now w')) ∧
  (∀ p, ¬ indexed w' p) ∧
  (∀ now taskID, (FindCompletedTask now taskID w').1 = None) ∧
  (∀ now req p, (RegisterTask now req w').1 = Ok p → p = length (heap w)).
Proof.
  intros Hco w'. pose proof Hco as [Hwf _].
  destruct (CleanUp_tasks_heap w) as (Ht & Hh).
  assert (∀ key, tasks_Load key (tasks (mgr w')) = None) as Hnone.
  { intros key. subst w'. by rewrite Ht. }
  assert (∀ p, ¬ indexed w' p) as Hni.
  { intros p Hp. pose proof Hwf as (Hkeys & _).
    destruct (forceLoop_spec (tasks (mgr w)) w Hwf Hkeys ltac:(done))
      as (_ & _ & _ & Hsub & _ & evs & _ & _ & Hall & Hgone).
    pose proof (Hsub p Hp) as Hin. apply (coherent_indexed w p Hco) in Hin.
    apply list_elem_of_fmap in Hin as (kp & -> & Hkp).
    destruct (Hgone kp.2 (Hall kp Hkp)) as [_ Hn]. by apply Hn. }
  split_and!; try done.
  - intros now key. by apply LoadTask_absent.
  - intros now taskID. unfold FindCompletedTask.
    destruct (indexTask2PeerTask (mgr w') !! taskID) as [ts|] eqn:Hts; [|done].
    destruct ts as [|p ts]; [done|].
    exfalso. apply (Hni p). exists taskID, (p :: ts). split; [done|by left].
  - intros now req p Hp.
    rewrite (RegisterTask_absent now req w' (Hnone _)) in Hp.
    pose proof (CreateTask_result now req (Keep now (Keep now w'))) as Hc.
    rewrite Hp in Hc. destruct Hc as (-> & _). simpl.
    subst w'. rewrite Hh. by rewrite (sameButMarks_length _ _ (markAll_same _ _)).
Qed.

End CleanUpAll.

(** ** The marks of a [TryGC] pass *)

Section TryGCMarks.
Context {FS : Type} `{!Env FS} `{!StoreImpl FS}.

Lemma markAll_app h ps qs : markAll h (ps ++ qs) = markAll (markAll h ps) qs.
Proof. unfold markAll. by rewrite foldl_app. Qed.

Lemma markedAt_markAll h ps p :
  markedAt (markAll h ps) p ↔ markedAt h p ∨ (p ∈ ps ∧ is_Some (h !! p)).
Proof.
  unfold markedAt. rewrite markAll_lookup. case_decide as Hin.
  - destruct (h !! p) as [t|]; simpl.
    + split; [intros _; right; eauto|done].
    + split; [done|]. by intros [?|[_ [? ?]]].
  - split; [by left|]. by intros [?|[? _]].
Qed.

Lemma wf_keyAt (w : World FS) k p :
  wf w → (k, p) ∈ tasks (mgr w) → keyAt (heap w) p = k.
Proof.
  intros Hwf Hin. destruct (wf_store_Some w k p Hwf Hin) as (t & Ht & Hp & Hid).
  unfold keyAt. rewrite Ht, Hp, Hid. by destruct k.
Qed.

(** The state a pass of a well-formed state hands to its deletion loop:
    the stores marked are some registered stores, among them all that
    have expired, and every key of the new marked list is the key of one
    of them. *)
Lemma TryGC_marking now (w : World FS) :
  wf w →
  ∃ w3 marked3 ms,
    TryGC now w =
      ((true, None),
       upd_mgr (set_markedReclaimTasks (foldl reclaimOne (w3, marked3) (markedReclaimTasks (mgr w))).2)
               (foldl reclaimOne (w3, marked3) (markedReclaimTasks (mgr w))).1) ∧
    mgr w3 = mgr w ∧
    heap w3 = markAll (heap w) ms ∧
    (∀ p, p ∈ ms → p ∈ (tasks (mgr w)).*2) ∧
    (∀ kp, kp ∈ expiredEntries now (heap w) (tasks (mgr w)) → kp.2 ∈ ms ∧ kp.1 ∈ marked3) ∧
    (∀ k, k ∈ marked3 → ∃ p, p ∈ ms ∧ tasks_Load k (tasks (mgr w)) = Some p) ∧
    (∀ p, p ∈ ms → expiredAt now (heap w) p = true ∨ p ∈ gcCandidates now w).
Proof.
  intros Hwf. pose proof Hwf as (Hkeys & _).
  pose proof (TryGC_stages now w) as Hst. cbv zeta in Hst.
  pose proof (diskUsageExceed_frame (afterScan now w)) as (Hm2 & Hh2 & _).
  set (w2 := (diskUsageExceed (afterScan now w)).2) in *.
  set (E := expiredEntries now (heap w) (tasks (mgr w))).
  assert (heap w2 = markAll (heap w) E.*2) as Hheap2 by (by rewrite Hh2).
  assert (mgr w2 = mgr w) as Hmgr2 by (by rewrite Hm2).
  assert (∀ kp, kp ∈ E → kp ∈ tasks (mgr w)) as HE.
  { intros kp Hkp. unfold E, expiredEntries in Hkp. by apply list_elem_of_filter in Hkp as [_ ?]. }
  assert (∀ k, k ∈ expiredKeys now w → ∃ p, p ∈ E.*2 ∧ tasks_Load k (tasks (mgr w)) = Some p) as Hexp.
  { intros k Hk. unfold expiredKeys in Hk. fold E in Hk.
    apply list_elem_of_fmap in Hk as ([k' p] & -> & Hin). exists p. split.
    - apply list_elem_of_fmap. by exists (k', p).
    - apply tasks_Load_NoDup; [done|by apply HE]. }
  destruct (quotaExceeded now w || (diskUsageExceed w).1.1) eqn:Hcond.
  - destruct (gcOldest_spec now (quotaExcess now w) (diskUsageExceed w).1.2
                (expiredKeys now w) w2) as (n & _ & _ & Heq & _).
    rewrite Heq in Hst. clear Heq.
    set (ts := SliceStable (olderThan (heap w2))
                 (collectCandidates now (gcInterval (mgr w2)) (tasks (mgr w2)) (heap w2))) in *.
    assert (∀ p, p ∈ take n ts → p ∈ (tasks (mgr w)).*2) as Hts.
    { intros p Hp. apply elem_of_take in Hp as (i & Hp & _).
      apply list_elem_of_lookup_2 in Hp. subst ts.
      rewrite olderThan_lessBy, SliceStable_Permutation in Hp.
      unfold collectCandidates in Hp. apply list_elem_of_filter in Hp as [_ Hp].
      by rewrite Hmgr2 in Hp. }
    assert (∀ p, p ∈ E.*2 → expiredAt now (heap w) p = true) as HEexp.
    { intros p Hp. apply list_elem_of_fmap in Hp as (kp & -> & Hkp).
      unfold E, expiredEntries in Hkp. by apply list_elem_of_filter in Hkp as [? _]. }
    assert (ts = gcCandidates now w) as Hcand.
    { subst ts. unfold gcCandidates. by rewrite Hh2, Hmgr2. }
    eexists _, _, (E.*2 ++ take n ts). split_and!; [exact Hst|done| | | | |].
    + simpl. by rewrite markAll_app, Hheap2.
    + intros p [Hp|Hp]%elem_of_app; [|by apply Hts].
      apply list_elem_of_fmap in Hp as (kp & -> & Hkp).
      apply list_elem_of_fmap. exists kp. split; [done|by apply HE].
    + intros kp Hkp. split.
      * apply elem_of_app. left. apply list_elem_of_fmap. by exists kp.
      * apply elem_of_app. left. unfold expiredKeys. apply list_elem_of_fmap. by exists kp.
    + intros k [Hk|Hk]%elem_of_app.
      * destruct (Hexp k Hk) as (p & Hp & Hl). exists p. split; [|done].
        apply elem_of_app. by left.
      * apply list_elem_of_fmap in Hk as (p & -> & Hp). exists p. split.
        -- apply elem_of_app. by right.
        -- pose proof (Hts p Hp) as Hreg.
           apply list_elem_of_fmap in Hreg as ([k p'] & Heq & Hin). simpl in Heq. subst p'.
           rewrite (sameButMarks_keyAt (heap w) (heap w2)) by (rewrite Hheap2; apply markAll_same).
           rewrite (wf_keyAt w k p Hwf Hin). by apply tasks_Load_NoDup.
    + intros p [Hp|Hp]%elem_of_app; [left; by apply HEexp|].
      right. rewrite <- Hcand. apply elem_of_take in Hp as (i & Hp & _).
      by apply list_elem_of_lookup_2 in Hp.
  - eexists _, _, E.*2. split_and!; [exact Hst|done|done| | | |].
    + intros p Hp. apply list_elem_of_fmap in Hp as (kp & -> & Hkp).
      apply list_elem_of_fmap. exists kp. split; [done|by apply HE].
    + intros kp Hkp. split.
      * apply list_elem_of_fmap. by exists kp.
      * unfold expiredKeys. apply list_elem_of_fmap. by exists kp.
    + done.
    + intros p Hp. left. apply list_elem_of_fmap in Hp as (kp & -> & Hkp).
      unfold E, expiredEntries in Hkp. by apply list_elem_of_filter in Hkp as [? _].
Qed.

Lemma removeMarked_other key k markedTasks :
  k ≠ key → k ∈ markedTasks → k ∈ removeMarked key markedTasks.
Proof.
  intros Hne. induction markedTasks as [|k' rest IH]; simpl; [done|].
  intros [->|Hin]%elem_of_cons.
  - destruct (bool_decide (meta_TaskID k' = meta_TaskID key) &&
              bool_decide (meta_PeerID k' = meta_PeerID key)) eqn:Hb; [|by left].
    apply andb_true_iff in Hb as [Ht Hp].
    apply bool_decide_eq_true_1 in Ht. apply bool_decide_eq_true_1 in Hp.
    exfalso. apply Hne. destruct k', key. simpl in *. by subst.
  - destruct (_ && _); [done|]. right. by apply IH.
Qed.

(** The deletion loop takes a key out of the new marked list only when
    it reclaims the store of that key. *)
Lemma reclaimLoop_keeps_marked keys :
  ∀ (st : World FS * list PeerTaskMetadata) k,
    k ∉ keys → k ∈ st.2 → k ∈ (foldl reclaimOne st keys).2.
Proof.
  induction keys as [|key keys IH]; intros [w markedTasks] k Hnin Hin; [done|].
  cbn [foldl]. apply IH; [by intros ?; apply Hnin; right|].
  destruct (reclaimOne_cases w markedTasks key) as [[Heq _]|(p & t & _ & _ & Heq)];
    rewrite Heq; [done|]. simpl.
  destruct (Reclaim t (disk w)).2; [done|].
  apply removeMarked_other; [|done]. intros ->. apply Hnin. by left.
Qed.

(** A pass reclaims the registered stores of the list the last pass
    left. *)
Lemma TryGC_reclaims_pending now (w : World FS) key p :
  wf w → key ∈ markedReclaimTasks (mgr w) → tasks_Load key (tasks (mgr w)) = Some p →
  tasks_Load key (tasks (mgr (TryGC now w).2)) = None ∧
  EvReclaim p ∈ drop (length (trace w)) (trace (TryGC now w).2).
Proof.
  intros Hwf Hin Hk.
  destruct (TryGC_before_loop now w) as (w3 & marked3 & evs0 & Heq & Hm3 & Hs3 & Htr3 & _).
  assert (wf w3) as Hwf3 by by eapply wf_marks.
  destruct (reclaimLoop_spec (markedReclaimTasks (mgr w)) w3 marked3 Hwf3)
    as (_ & _ & _ & _ & _ & Hload & evs & Htr & _ & Hall & _).
  rewrite Heq. simpl. split.
  - rewrite Hload, decide_True by done. done.
  - rewrite Htr, Htr3, <- (assoc_L (++)), drop_app_length.
    apply elem_of_app. right. eapply Hall; [done|]. by rewrite Hm3.
Qed.

(** X12. A pass changes nothing in a store but the reclaim mark, and it marks
    registered stores only; it never takes a mark away. Every key of the
    list it leaves for the next pass was the key of a registered store
    that now carries the mark. The result is [(true, nil)] always. *)
Theorem TryGC_marks_registered_stores (now : Z) (w : World FS) :
  wf w →
  let w' := (TryGC now w).2 in
  (TryGC now w).1 = (true, None) ∧
  sameButMarks (heap w) (heap w') ∧
  (∀ p, markedAt (heap w) p → markedAt (heap w') p) ∧
  (∀ p, markedAt (heap w') p → markedAt (heap w) p ∨ registered w p) ∧
  (∀ k, k ∈ markedReclaimTasks (mgr w') →
        ∃ p, tasks_Load k (tasks (mgr w)) = Some p ∧ markedAt (heap w') p).
Proof.
  intros Hwf w'.
  destruct (TryGC_marking now w Hwf) as (w3 & marked3 & ms & Heq & Hm3 & Hh3 & Hms & _ & Hkeys & _).
  assert (wf w3) as Hwf3.
  { eapply wf_marks; [done|done|]. rewrite Hh3. apply markAll_same. }
  destruct (reclaimLoop_spec (markedReclaimTasks (mgr w)) w3 marked3 Hwf3)
    as (_ & Hh & _ & _ & Hsub & _).
  assert (heap w' = markAll (heap w) ms) as Hheap.
  { subst w'. rewrite Heq. simpl. by rewrite Hh, Hh3. }
  split_and!.
  - by rewrite Heq.
  - rewrite Hheap. apply markAll_same.
  - intros p Hp. rewrite Hheap. apply markedAt_markAll. by left.
  - intros p Hp. rewrite Hheap in Hp. apply markedAt_markAll in Hp as [?|[Hin _]]; [by left|].
    right. by apply Hms.
  - intros k Hk. subst w'. rewrite Heq in Hk. simpl in Hk.
    eapply elem_of_sublist in Hk; [|exact Hsub].
    destruct (Hkeys k Hk) as (p & Hp & Hl). exists p. split; [done|].
    rewrite Heq. simpl. rewrite Hh, Hh3. apply markedAt_markAll. right. split; [done|].
    destruct (wf_store_Some w k p Hwf (tasks_Load_elem _ _ _ Hl)) as (t & -> & _). eauto.
Qed.

(** X13. The two passes of a deletion. A registered store that has expired
    when a pass runs is marked by that pass and its key put on the
    pending list: it stays registered, and is no longer offered for
    reuse. The next pass, whenever it runs, unregisters it and calls its
    [Reclaim]. *)
Theorem TryGC_deletes_in_second_pass (now now' : Z) (w : World FS)
    (key : PeerTaskMetadata) (p : loc) (t : localTaskStore) :
  wf w →
  tasks_Load key (tasks (mgr w)) = Some p →
  heap w !! p = Some t →
  CanReclaim now t = true →
  key ∉ markedReclaimTasks (mgr w) →
  let w1 := (TryGC now w).2 in
  let w2 := (TryGC now' w1).2 in
  key ∈ markedReclaimTasks (mgr w1) ∧
  tasks_Load key (tasks (mgr w1)) = Some p ∧
  (EvReclaim p ∉ drop (length (trace w)) (trace w1)) ∧
  markedAt (heap w1) p ∧
  reusable (heap w1) p = false ∧
  tasks_Load key (tasks (mgr w2)) = None ∧
  EvReclaim p ∈ drop (length (trace w1)) (trace w2).
Proof.
  intros Hwf Hk Hp Hexp Hnin w1 w2.
  destruct (TryGC_marking now w Hwf) as (w3 & marked3 & ms & Heq & Hm3 & Hh3 & Hms & HE & _).
  assert (wf w3) as Hwf3.
  { eapply wf_marks; [done|done|]. rewrite Hh3. apply markAll_same. }
  destruct (reclaimLoop_spec (markedReclaimTasks (mgr w)) w3 marked3 Hwf3)
    as (_ & Hh & _ & _ & _ & Hload & evs & Htr & Hrt & _).
  assert ((key, p) ∈ expiredEntries now (heap w) (tasks (mgr w))) as Hin.
  { unfold expiredEntries. apply list_elem_of_filter. split.
    - simpl. unfold expiredAt. by rewrite Hp.
    - by apply tasks_Load_elem. }
  destruct (HE _ Hin) as [Hpm Hkm]. simpl in Hpm, Hkm.
  assert (key ∈ markedReclaimTasks (mgr w1)) as H1.
  { subst w1. rewrite Heq. simpl. by apply reclaimLoop_keeps_marked. }
  assert (tasks_Load key (tasks (mgr w1)) = Some p) as H2.
  { subst w1. rewrite Heq. simpl. rewrite Hload, decide_False by done. by rewrite Hm3. }
  assert (markedAt (heap w1) p) as H3.
  { subst w1. rewrite Heq. simpl. rewrite Hh, Hh3. apply markedAt_markAll. right.
    split; [done|]. by rewrite Hp. }
  assert (wf w1) as Hwf1 by by apply wf_TryGC.
  destruct (TryGC_reclaims_pending now' w1 key p Hwf1 H1 H2) as [H4 H5].
  split_and!; try done.
  - destruct (TryGC_before_loop now w) as (w3' & marked3' & evs0 & Heq' & Hm3' & Hs3' & Htr3' & Hos & _).
    assert (wf w3') as Hwf3' by exact (wf_marks w w3' Hwf Hm3' Hs3').
    destruct (reclaimLoop_spec (markedReclaimTasks (mgr w)) w3' marked3' Hwf3')
      as (_ & _ & _ & _ & _ & _ & evs' & Htr' & Hrt' & _).
    subst w1. rewrite Heq'. simpl. rewrite Htr', Htr3', <- (assoc_L (++)), drop_app_length.
    intros [Hq|Hq]%elem_of_app.
    + rewrite Forall_forall in Hos. by destruct (Hos _ Hq) as [c ?].
    + destruct (reclaimTrace_Reclaim _ _ _ _ Hrt' Hq) as (key' & Hin' & Hk').
      rewrite Hm3' in Hk'. pose proof Hwf as (_ & Hlocs & _).
      apply Hnin. by rewrite (tasks_Load_inj key key' p _ Hlocs Hk Hk').
  - unfold markedAt in H3. unfold reusable.
    destruct (heap w1 !! p) as [t1|]; [|done]. simpl in H3. injection H3 as ->.
    by rewrite andb_false_r.
Qed.


End TryGCMarks.

(** ** A mark is never taken away *)

Section MarksStay.
Context {FS : Type} `{!Env FS} `{!StoreImpl FS}.

Lemma TryGC_heap now (w : World FS) :
  wf w → ∃ ms, heap (TryGC now w).2 = markAll (heap w) ms.
Proof.
  intros Hwf.
  destruct (TryGC_marking now w Hwf) as (w3 & marked3 & ms & Heq & Hm3 & Hh3 & _).
  assert (wf w3) as Hwf3.
  { eapply wf_marks; [done|done|]. rewrite Hh3. apply markAll_same. }
  destruct (reclaimLoop_spec (markedReclaimTasks (mgr w)) w3 marked3 Hwf3) as (_ & Hh & _).
  exists ms. rewrite Heq. simpl. by rewrite Hh, Hh3.
Qed.

Lemma markedAt_touch h q tq now p :
  h !! q = Some tq → markedAt h p → markedAt (<[q := touch now tq]> h) p.
Proof.
  intros Hq Hp. unfold markedAt in *. destruct (decide (p = q)) as [->|Hne].
  - rewrite list_lookup_insert_eq by by eapply lookup_lt_Some.
    rewrite Hq in Hp. done.
  - by rewrite list_lookup_insert_ne.
Qed.

Lemma run_keeps_mark o (w : World FS) p :
  wf w → driverOp o = false → markedAt (heap w) p → markedAt (heap (run o w)) p.
Proof.
  intros Hwf Hd Hp. destruct o; try done; simpl.
  - destruct (tasks_Load (keyOf req) (tasks (mgr w))) as [q|] eqn:Hl.
    + by rewrite (RegisterTask_present _ _ _ _ Hl).
    + rewrite (RegisterTask_absent _ _ _ Hl).
      pose proof (CreateTask_result now req (Keep now (Keep now w))) as Hc.
      destruct (CreateTask now req (Keep now (Keep now w))) as [[q|e] w'] eqn:Hct; simpl in *.
      * destruct Hc as (_ & (t & -> & _) & _). unfold markedAt in *.
        rewrite lookup_app_l; [done|].
        destruct (heap w !! p) eqn:Hlk; [by eapply lookup_lt_Some|done].
      * destruct Hc as (_ & _ & _ & ->). done.
  - pose proof (FindCompletedTask_store now taskID w p) as Hf.
    unfold markedAt in *. destruct Hf as [->|(t & Ht & -> & _)]; [done|].
    by rewrite Ht in Hp.
  - destruct (TryGC_heap now w Hwf) as (ms & ->). apply markedAt_markAll. by left.
  - destruct (CleanUp_tasks_heap w) as [_ ->]. apply markedAt_markAll. by left.
Qed.

(** X15. The reclaim mark is for good. Neither [RegisterTask] nor
    [FindCompletedTask], [TryGC] or [CleanUp] takes the mark off a store,
    so that a store once marked is not offered for reuse again,
    whatever these operations do and however often it is touched. *)
Theorem reclaim_mark_is_permanent (ops : list op) (w : World FS) (p : loc) :
  wf w →
  Forall (λ o, driverOp o = false) ops →
  markedAt (heap w) p →
  markedAt (heap (runAll ops w)) p ∧ reusable (heap (runAll ops w)) p = false.
Proof.
  intros Hwf Hops Hp.
  assert (markedAt (heap (runAll ops w)) p) as Hm.
  { revert w Hwf Hp. induction Hops as [|o ops Ho _ IH]; intros w Hwf Hp; [done|].
    simpl. apply IH; [|by apply run_keeps_mark].
    destruct o; try done; simpl.
    - by apply wf_RegisterTask.
    - by apply wf_FindCompletedTask.
    - by apply wf_TryGC.
    - by apply wf_CleanUp. }
  split; [done|]. unfold markedAt in Hm. unfold reusable.
  destruct (heap (runAll ops w) !! p) as [t|]; [|done].
  simpl in Hm. injection Hm as ->. by rewrite andb_false_r.
Qed.

End MarksStay.

(** ** Coherent states are kept *)

Section CoherentKept.
Context {FS : Type} `{!Env FS} `{!StoreImpl FS}.

Lemma coherent_intro (w : World FS) :
  wf w → (∀ p, indexed w p → registered w p) → coherent w.
Proof.
  intros Hwf Hidx. split; [done|]. intros taskID ps Hl.
  apply Forall_forall. intros p Hp. apply Hidx. by exists taskID, ps.
Qed.

(** Well-formedness reads the stores through their identifiers only. *)
Lemma wf_identity (w w' : World FS) :
  wf w → tasks (mgr w') = tasks (mgr w) →
  indexTask2PeerTask (mgr w') = indexTask2PeerTask (mgr w) →
  (∀ p, storeKey (heap w') p = storeKey (heap w) p) → wf w'.
Proof.
  intros (Hk & Hl & Hst & Hidx) Ht Hi Hkey.
  assert (∀ p, TaskID <$> heap w' !! p = TaskID <$> heap w !! p) as Htid.
  { intros p. specialize (Hkey p). unfold storeKey in Hkey.
    destruct (heap w' !! p) as [t'|], (heap w !! p) as [t|]; simpl in *; try done.
    injection Hkey as _ Ht'. by rewrite Ht'. }
  unfold wf. rewrite Ht, Hi. split_and!; try done.
  - eapply Forall_impl; [exact Hst|]. intros kp Hkp. by rewrite Hkey.
  - intros tid ps Hps. specialize (Hidx tid ps Hps).
    eapply Forall_impl; [exact Hidx|]. intros p Hp. by rewrite Htid.
Qed.

Lemma coherent_same_maps (w w' : World FS) :
  coherent w → tasks (mgr w') = tasks (mgr w) →
  indexTask2PeerTask (mgr w') = indexTask2PeerTask (mgr w) →
  (∀ p, storeKey (heap w') p = storeKey (heap w) p) → coherent w'.
Proof.
  intros [Hwf Hc] Ht Hi Hkey. split; [by eapply wf_identity|].
  by rewrite Ht, Hi.
Qed.

Lemma coherent_Keep now (w : World FS) : coherent w → coherent (Keep now w).
Proof. intros Hc. by eapply coherent_same_maps. Qed.

Lemma coherent_delegate {A} p (f : localTaskStore → FS → A * localTaskStore * FS)
    (notFound : A) (w : World FS) :
  keepsIdentity f → coherent w → coherent (delegate p f notFound w).2.
Proof.
  intros Hf Hc. unfold delegate. destruct (heap w !! p) as [t|] eqn:Hp; [|done].
  destruct (f t (disk w)) as [[r t'] d] eqn:Hft. simpl.
  eapply coherent_same_maps; [done|done|done|]. simpl.
  intros q. unfold storeKey. destruct (decide (q = p)) as [->|Hne].
  - rewrite list_lookup_insert_eq by by eapply lookup_lt_Some. rewrite Hp. simpl.
    destruct (Hf t (disk w)) as [H1 H2]. rewrite Hft in H1, H2. simpl in *. by rewrite H1, H2.
  - by rewrite list_lookup_insert_ne.
Qed.

Lemma coherent_registeredNew req p (w w' : World FS) :
  coherent w → tasks_Load (keyOf req) (tasks (mgr w)) = None →
  registeredNew req p w w' → coherent w'.
Proof.
  intros Hco Hnone Hnew. pose proof Hco as [Hwf Hc].
  split; [by eapply wf_registeredNew|].
  destruct Hnew as (-> & (t & Hh & _) & Ht & Hi & _).
  rewrite Ht, Hi. unfold tasks_Store. rewrite Hnone.
  intros tid ps. destruct (decide (tid = req_TaskID (reg_common req))) as [->|Hne].
  - rewrite lookup_insert_eq. intros [= <-]. apply Forall_app. split.
    + destruct (indexTask2PeerTask (mgr w) !! req_TaskID (reg_common req)) as [ps0|] eqn:Hps0;
        simpl; [|done].
      specialize (Hc _ _ Hps0). eapply Forall_impl; [exact Hc|].
      intros q Hq. rewrite fmap_app. apply elem_of_app. by left.
    + constructor; [|done]. rewrite fmap_app. apply elem_of_app. right. by left.
  - rewrite lookup_insert_ne by done. intros Hps. specialize (Hc _ _ Hps).
    eapply Forall_impl; [exact Hc|]. intros q Hq. rewrite fmap_app. apply elem_of_app. by left.
Qed.

Lemma coherent_RegisterTask now req (w : World FS) :
  coherent w → coherent (RegisterTask now req w).2.
Proof.
  intros Hco. destruct (tasks_Load (keyOf req) (tasks (mgr w))) as [p|] eqn:Hl.
  - rewrite (RegisterTask_present _ _ _ _ Hl). by apply coherent_Keep.
  - rewrite (RegisterTask_absent _ _ _ Hl).
    pose proof (CreateTask_result now req (Keep now (Keep now w))) as Hc.
    assert (coherent (Keep now (Keep now w))) as Hco2 by by do 2 apply coherent_Keep.
    destruct (CreateTask now req (Keep now (Keep now w))) as [[p|e] w'] eqn:Hct; simpl in *.
    + by eapply coherent_registeredNew.
    + destruct Hc as (Ht & Hi & _ & Hh).
      eapply coherent_same_maps; [exact Hco2|done|done|]. intros q. by rewrite Hh.
Qed.

Lemma coherent_FindCompletedTask now taskID (w : World FS) :
  coherent w → coherent (FindCompletedTask now taskID w).2.
Proof.
  intros Hco. unfold FindCompletedTask.
  destruct (indexTask2PeerTask (mgr w) !! taskID) as [ts|]; [|done].
  pose proof (findCompleted_persistent now taskID ts (heap w)) as Hp.
  destruct (findCompleted now taskID ts (heap w)) as [r h]. simpl in *.
  eapply coherent_same_maps; [exact Hco|done|done|]. simpl.
  intros q. unfold storeKey, PeerID, TaskID.
  assert (persistent <$> h !! q = persistent <$> heap w !! q) as Hq
    by by rewrite <- !list_lookup_fmap, Hp.
  destruct (h !! q), (heap w !! q); simplify_eq/=; [by rewrite Hq|done].
Qed.

Lemma coherent_marks (w w' : World FS) :
  coherent w → mgr w' = mgr w → sameButMarks (heap w) (heap w') → coherent w'.
Proof.
  intros [Hwf Hc] Hm Hs. split; [by eapply wf_marks|]. by rewrite Hm.
Qed.

Lemma coherent_TryGC now (w : World FS) : coherent w → coherent (TryGC now w).2.
Proof.
  intros Hco.
  destruct (TryGC_before_loop now w) as (w3 & marked3 & evs0 & Heq & Hm3 & Hs3 & _).
  assert (coherent w3) as Hco3 by by eapply coherent_marks.
  pose proof Hco3 as [Hwf3 _]. pose proof Hwf3 as (Hkeys & _).
  destruct (reclaimLoop_spec (markedReclaimTasks (mgr w)) w3 marked3 Hwf3)
    as (Hwf' & Hh & _ & Hidx & _ & Hload & evs & _ & _ & Hall & Hgone).
  rewrite Heq. simpl.
  set (st' := foldl reclaimOne (w3, marked3) (markedReclaimTasks (mgr w))) in *.
  assert (coherent st'.1) as Hco'.
  { apply coherent_intro; [done|]. intros q Hq.
    pose proof (coherent_indexed w3 q Hco3 (Hidx q Hq)) as Hreg.
    apply list_elem_of_fmap in Hreg as ([k q'] & Heqq & Hin). simpl in Heqq. subst q'.
    pose proof (tasks_Load_NoDup _ _ _ Hkeys Hin) as Hl.
    destruct (decide (k ∈ markedReclaimTasks (mgr w))) as [Hk|Hk].
    - destruct (Hgone q (Hall k q Hk Hl)) as [_ Hn]. by destruct Hn.
    - specialize (Hload k). rewrite decide_False in Hload by done.
      rewrite Hl in Hload. apply tasks_Load_elem in Hload.
      apply list_elem_of_fmap. by exists (k, q). }
  by eapply coherent_same_maps.
Qed.

Lemma coherent_CleanUp (w : World FS) : coherent w → coherent (CleanUp w).
Proof.
  intros Hco. apply coherent_intro; [by apply wf_CleanUp; destruct Hco|].
  intros p Hp. pose proof Hco as [Hwf _]. pose proof Hwf as (Hkeys & _).
  destruct (forceLoop_spec (tasks (mgr w)) w Hwf Hkeys ltac:(done))
    as (_ & _ & _ & Hsub & _ & evs & _ & _ & Hall & Hgone).
  pose proof (coherent_indexed w p Hco (Hsub p Hp)) as Hin.
  apply list_elem_of_fmap in Hin as (kp & -> & Hkp).
  destruct (Hgone kp.2 (Hall kp Hkp)) as [_ Hn]. by destruct Hn.
Qed.

Lemma coherent_run o (w : World FS) :
  storesKeepIdentity → coherent w → coherent (run o w).
Proof.
  intros (H1 & H2 & H3 & H4 & H5 & H6 & H7 & H8) Hco.
  destruct o; simpl.
  - by apply coherent_RegisterTask.
  - by apply coherent_FindCompletedTask.
  - by apply coherent_TryGC.
  - by apply coherent_CleanUp.
  - unfold WritePiece, LoadTask. destruct (tasks_Load _ _); [|by apply coherent_Keep].
    apply coherent_delegate; [done|by apply coherent_Keep].
  - unfold ReadPiece, LoadTask. destruct (tasks_Load _ _); [|by apply coherent_Keep].
    apply coherent_delegate; [done|by apply coherent_Keep].
  - unfold ReadAllPieces, LoadTask. destruct (tasks_Load _ _); [|by apply coherent_Keep].
    apply coherent_delegate; [done|by apply coherent_Keep].
  - unfold Store, LoadTask. destruct (tasks_Load _ _); [|by apply coherent_Keep].
    apply coherent_delegate; [done|by apply coherent_Keep].
  - unfold GetPieces, LoadTask. destruct (tasks_Load _ _); [|by apply coherent_Keep].
    apply coherent_delegate; [done|by apply coherent_Keep].
  - unfold UpdateTask, LoadTask. destruct (tasks_Load _ _); [|by apply coherent_Keep].
    apply coherent_delegate; [done|by apply coherent_Keep].
  - unfold ValidateDigest, LoadTask. destruct (tasks_Load _ _); [|by apply coherent_Keep].
    apply coherent_delegate; [done|by apply coherent_Keep].
  - unfold IsInvalid, LoadTask. destruct (tasks_Load _ _); [|by apply coherent_Keep].
    apply coherent_delegate; [done|by apply coherent_Keep].
Qed.

Lemma coherent_newWorld (s : storageManager) (d : FS) :
  tasks s = [] → indexTask2PeerTask s = ∅ → coherent (newWorld s d).
Proof.
  intros Ht Hi. split; [by apply wf_newWorld|]. simpl. rewrite Hi. apply map_Forall_empty.
Qed.

(** X16. The invariant of the manager. From a manager that holds no task,
    any sequence of [RegisterTask], [FindCompletedTask], [TryGC],
    [CleanUp] and the eight driver operations leads to a state in which
    every key is registered once, every store under one key, which is
    the key made of the store's own identifiers, every index list holds
    stores of its task only, and every indexed store is registered;
    provided the stores' own driver methods do not rewrite the
    identifiers of a store. *)
Theorem manager_operations_keep_coherent (ops : list op) (s : storageManager) (d : FS) :
  storesKeepIdentity →
  tasks s = [] → indexTask2PeerTask s = ∅ →
  coherent (runAll ops (newWorld s d)) ∧
  ∀ w, coherent w → coherent (runAll ops w).
Proof.
  intros Hid Ht Hi.
  assert (∀ w, coherent w → coherent (runAll ops w)) as Hall.
  { induction ops as [|o ops IH]; intros w Hco; [done|].
    simpl. apply IH. by apply coherent_run. }
  split; [|done]. apply Hall. by apply coherent_newWorld.
Qed.

End CoherentKept.

(** ** [Reclaim] is called once *)

Section ReclaimOnce.
Context {FS : Type} `{!Env FS} `{!StoreImpl FS}.

Lemma reclaimed_app evs1 evs2 : reclaimed (evs1 ++ evs2) = reclaimed evs1 ++ reclaimed evs2.
Proof. apply omap_app. Qed.

Lemma reclaimed_elem evs p : p ∈ reclaimed evs ↔ EvReclaim p ∈ evs.
Proof.
  unfold reclaimed. rewrite list_elem_of_omap. split.
  - intros (e & He & Heq). by destruct e; simplify_eq.
  - intros He. by exists (EvReclaim p).
Qed.

Lemma reclaimed_os evs : Forall (λ e, ∃ c, e = EvOS c) evs → reclaimed evs = [].
Proof.
  induction 1 as [|e evs [c ->] _ IH]; [done|]. by simpl.
Qed.

Lemma registered_lt (w : World FS) p : wf w → registered w p → (p < length (heap w))%nat.
Proof.
  intros Hwf Hp. apply list_elem_of_fmap in Hp as ([k q] & -> & Hin).
  destruct (wf_store_Some w k q Hwf Hin) as (t & Ht & _). by eapply lookup_lt_Some.
Qed.

Lemma reclaimsOnce_quiet (w w' : World FS) : trace w' = trace w → reclaimsOnce w w'.
Proof.
  intros Ht. exists []. rewrite app_nil_r. split_and!; [done|constructor|].
  by intros p ?%elem_of_nil.
Qed.

Lemma reclaimLoop_once keys :
  ∀ (w : World FS) markedTasks,
    wf w → reclaimsOnce w (foldl reclaimOne (w, markedTasks) keys).1.
Proof.
  induction keys as [|key keys IH]; intros w markedTasks Hwf.
  - by apply reclaimsOnce_quiet.
  - cbn [foldl].
    destruct (reclaimOne_cases w markedTasks key) as [[Heq _]|(p & t & Hk & Hp & Heq)];
      rewrite Heq; [by apply IH|].
    set (w1 := afterReclaim key p t (Reclaim t (disk w)).1 w) in *.
    assert (wf w1) as Hwf1 by by apply wf_afterReclaim.
    destruct (afterReclaim_gone key p t (Reclaim t (disk w)).1 w Hwf Hk Hp) as [Hgone _].
    fold w1 in Hgone.
    destruct (IH w1 (match (Reclaim t (disk w)).2 with
                     | Some _ => markedTasks
                     | None => removeMarked key markedTasks
                     end) Hwf1) as (evs & Htr & Hnd & Hreg).
    exists (reclaimEvents key t p ++ evs). split_and!.
    + rewrite Htr. subst w1. simpl. by rewrite <- (assoc_L (++)).
    + rewrite reclaimed_app. simpl. apply NoDup_cons. split; [|done].
      intros Hin. by destruct (Hreg p Hin).
    + intros q. rewrite reclaimed_app. simpl. intros [->|Hq]%elem_of_cons.
      * split.
        -- apply list_elem_of_fmap. exists (key, p). split; [done|by apply tasks_Load_elem].
        -- pose proof (reclaimLoop_noResurface keys
                         (w1, match (Reclaim t (disk w)).2 with
                              | Some _ => markedTasks
                              | None => removeMarked key markedTasks
                              end)) as (_ & Hback & _). simpl in Hback.
           intros Hr. apply Hgone. apply Hback; [|done].
           subst w1. simpl. by eapply lookup_lt_Some.
      * destruct (Hreg q Hq) as [Hq1 Hq2]. split; [|done].
        subst w1. unfold registered in *. simpl in Hq1.
        eapply elem_of_sublist; [exact Hq1|]. apply fmap_sublist, tasks_Delete_sublist.
Qed.

Lemma TryGC_once now (w : World FS) : wf w → reclaimsOnce w (TryGC now w).2.
Proof.
  intros Hwf.
  destruct (TryGC_before_loop now w) as (w3 & marked3 & evs0 & Heq & Hm3 & Hs3 & Htr3 & Hos & _).
  assert (wf w3) as Hwf3 by exact (wf_marks w w3 Hwf Hm3 Hs3).
  destruct (reclaimLoop_once (markedReclaimTasks (mgr w)) w3 marked3 Hwf3)
    as (evs & Htr & Hnd & Hreg).
  rewrite Heq. simpl. exists (evs0 ++ evs). split_and!.
  - simpl. by rewrite Htr, Htr3, <- (assoc_L (++)).
  - by rewrite reclaimed_app, (reclaimed_os _ Hos).
  - intros p. rewrite reclaimed_app, (reclaimed_os _ Hos). simpl. intros Hp.
    destruct (Hreg p Hp) as [H1 H2]. split; [|done].
    unfold registered in *. by rewrite <- Hm3.
Qed.

Lemma reclaimed_forceEvents h (entries : list (PeerTaskMetadata * loc)) :
  reclaimed (flat_map (forceEvents h) entries) = filter (λ p, is_Some (h !! p)) entries.*2.
Proof.
  induction entries as [|[k p] entries IH]; [done|].
  cbn [flat_map]. rewrite reclaimed_app, IH. rewrite fmap_cons, filter_cons.
  unfold forceEvents. cbn [fst snd]. destruct (h !! p) as [t|] eqn:Hp.
  - rewrite decide_True by eauto. done.
  - rewrite decide_False by (by intros [? ?]). done.
Qed.

Lemma CleanUp_once (w : World FS) : wf w → reclaimsOnce w (CleanUp w).
Proof.
  intros Hwf. pose proof Hwf as (_ & Hlocs & _).
  destruct (forceLoop_frame (tasks (mgr w)) w) as (_ & _ & _ & Htr).
  destruct (CleanUp_tasks_heap w) as [Ht _].
  exists (flat_map (forceEvents (heap w)) (tasks (mgr w))). split_and!.
  - done.
  - rewrite reclaimed_forceEvents. by apply NoDup_filter.
  - intros p. rewrite reclaimed_forceEvents. intros [_ Hp]%list_elem_of_filter.
    split; [done|]. unfold registered. rewrite Ht. apply not_elem_of_nil.
Qed.

Lemma createData_quiet s req data t (w : World FS) :
  ∃ evs, trace (createData s req data t w).2 = trace w ++ evs ∧ reclaimed evs = [].
Proof.
  unfold createData, sys, ask.
  destruct (StoreStrategyOf t).
  - destruct (os_OpenFile _ _) as [d1 e1]. simpl.
    destruct e1; simpl; eexists; (split; [reflexivity|reflexivity]).
  - destruct (path.Split _) as [dir file]. cbv beta iota zeta.
    destruct (os_Stat dir (disk w)) as [stat|e0]; simpl;
      [|eexists; (split; [reflexivity|reflexivity])].
    destruct (os_OpenFile _ _) as [d1 e1]. simpl.
    destruct e1 as [e1|]; simpl;
      [rewrite <- ?(assoc_L (++)); eexists; (split; [reflexivity|reflexivity])|].
    destruct (decide (fi_Dev stat = dataPathStat_Dev s)); simpl.
    + destruct (os_Link _ _ d1) as [d2 e2]. simpl.
      destruct e2 as [e2|]; simpl.
      * destruct (os_Symlink _ _ d2) as [d3 e3]. simpl.
        destruct e3; simpl; rewrite <- ?(assoc_L (++)); eexists;
          (split; [reflexivity|reflexivity]).
      * rewrite <- ?(assoc_L (++)); eexists; (split; [reflexivity|reflexivity]).
    + destruct (os_Symlink _ _ d1) as [d3 e3]. simpl.
      destruct e3; simpl; rewrite <- ?(assoc_L (++)); eexists;
        (split; [reflexivity|reflexivity]).
  - exists []. by rewrite app_nil_r.
Qed.

Lemma CreateTask_quiet now req (w : World FS) :
  ∃ evs, trace (CreateTask now req w).2 = trace w ++ evs ∧ reclaimed evs = [].
Proof.
  unfold CreateTask, sys.
  destruct (os_MkdirAll _ _) as [d1 e1]. simpl.
  destruct (fatalMkdir e1); [eexists; (split; [reflexivity|reflexivity])|].
  destruct (os_OpenFile _ _) as [d2 e2]. simpl.
  destruct e2; simpl;
    [rewrite <- ?(assoc_L (++)); eexists; (split; [reflexivity|reflexivity])|].
  match goal with |- context [createData ?s ?r ?d ?t ?w] =>
    destruct (createData_quiet s r d t w) as (evs & Htr & Hr);
    destruct (createData s r d t w) as [[t'|e] w'] end; simpl in *.
  - unfold storeNew, indexAppend. simpl. rewrite Htr, <- ?(assoc_L (++)).
    eexists. split; [reflexivity|]. rewrite !reclaimed_app, Hr. done.
  - rewrite Htr, <- ?(assoc_L (++)).
    eexists. split; [reflexivity|]. rewrite !reclaimed_app, Hr. done.
Qed.

Lemma RegisterTask_once now req (w : World FS) : reclaimsOnce w (RegisterTask now req w).2.
Proof.
  assert (∃ evs, trace (RegisterTask now req w).2 = trace w ++ evs ∧ reclaimed evs = [])
    as (evs & Htr & Hr).
  { destruct (tasks_Load (keyOf req) (tasks (mgr w))) as [p|] eqn:Hl.
    - rewrite (RegisterTask_present _ _ _ _ Hl). exists []. by rewrite app_nil_r.
    - rewrite (RegisterTask_absent _ _ _ Hl).
      apply (CreateTask_quiet now req (Keep now (Keep now w))). }
  exists evs. rewrite Hr. split_and!; [done|constructor|]. by intros p ?%elem_of_nil.
Qed.

Lemma delegate_trace {A} p (f : localTaskStore → FS → A * localTaskStore * FS)
    (notFound : A) (w : World FS) :
  trace (delegate p f notFound w).2 = trace w.
Proof.
  unfold delegate. destruct (heap w !! p); [|done]. by destruct (f _ _) as [[? ?] ?].
Qed.

Lemma FindCompletedTask_trace now taskID (w : World FS) :
  trace (FindCompletedTask now taskID w).2 = trace w.
Proof.
  unfold FindCompletedTask. destruct (_ !! taskID); [|done].
  by destruct (findCompleted _ _ _ _).
Qed.

Lemma run_once o (w : World FS) : wf w → reclaimsOnce w (run o w).
Proof.
  intros Hwf. destruct o; simpl.
  - apply RegisterTask_once.
  - apply reclaimsOnce_quiet, FindCompletedTask_trace.
  - by apply TryGC_once.
  - by apply CleanUp_once.
  - apply reclaimsOnce_quiet. unfold WritePiece, LoadTask.
    destruct (tasks_Load _ _); [|done]. by rewrite delegate_trace.
  - apply reclaimsOnce_quiet. unfold ReadPiece, LoadTask.
    destruct (tasks_Load _ _); [|done]. by rewrite delegate_trace.
  - apply reclaimsOnce_quiet. unfold ReadAllPieces, LoadTask.
    destruct (tasks_Load _ _); [|done]. by rewrite delegate_trace.
  - apply reclaimsOnce_quiet. unfold Store, LoadTask.
    destruct (tasks_Load _ _); [|done]. by rewrite delegate_trace.
  - apply reclaimsOnce_quiet. unfold GetPieces, LoadTask.
    destruct (tasks_Load _ _); [|done]. by rewrite delegate_trace.
  - apply reclaimsOnce_quiet. unfold UpdateTask, LoadTask.
    destruct (tasks_Load _ _); [|done]. by rewrite delegate_trace.
  - apply reclaimsOnce_quiet. unfold ValidateDigest, LoadTask.
    destruct (tasks_Load _ _); [|done]. by rewrite delegate_trace.
  - apply reclaimsOnce_quiet. unfold IsInvalid, LoadTask.
    destruct (tasks_Load _ _); [|done]. by rewrite delegate_trace.
Qed.

Lemma runAll_once ops :
  ∀ w : World FS,
    storesKeepIdentity → coherent w →
    ∃ evs, trace (runAll ops w) = trace w ++ evs ∧ NoDup (reclaimed evs) ∧
           ∀ p, p ∈ reclaimed evs → registered w p ∨ (length (heap w) ≤ p)%nat.
Proof.
  induction ops as [|o ops IH]; intros w Hid Hco.
  - exists []. rewrite app_nil_r. split_and!; [done|constructor|]. by intros p ?%elem_of_nil.
  - pose proof Hco as [Hwf _].
    destruct (run_once o w Hwf) as (evs1 & Htr1 & Hnd1 & Hreg1).
    assert (coherent (run o w)) as Hco1 by by apply coherent_run.
    destruct (IH (run o w) Hid Hco1) as (evs2 & Htr2 & Hnd2 & Hreg2).
    destruct (run_noResurface o w) as (Hlen & Hback & _).
    exists (evs1 ++ evs2). split_and!.
    + cbn [runAll foldl]. change (foldl (λ w o, run o w) (run o w) ops) with (runAll ops (run o w)).
      by rewrite Htr2, Htr1, <- (assoc_L (++)).
    + rewrite reclaimed_app. apply NoDup_app. split_and!; [done| |done].
      intros p Hp1 Hp2. destruct (Hreg1 p Hp1) as [Hr Hnr].
      destruct (Hreg2 p Hp2) as [Hr2|Hge]; [done|].
      pose proof (registered_lt w p Hwf Hr). lia.
    + intros p. rewrite reclaimed_app. intros [Hp|Hp]%elem_of_app.
      * left. by destruct (Hreg1 p Hp).
      * destruct (Hreg2 p Hp) as [Hr2|Hge]; [|right; lia].
        destruct (decide (p < length (heap w))%nat) as [Hlt|Hge]; [|right; lia].
        left. by apply Hback.
Qed.

(** X17. No store is reclaimed twice. Over any sequence of operations of the
    manager, from a coherent state, [Reclaim] is called at most once on
    a store object, and only on stores that were registered at the start
    or created since; provided the stores' own driver methods do not
    rewrite the identifiers of a store. *)
Theorem Reclaim_called_once (ops : list op) (w : World FS) :
  storesKeepIdentity → coherent w →
  let new := drop (length (trace w)) (trace (runAll ops w)) in
  NoDup (reclaimed new) ∧
  ∀ p, EvReclaim p ∈ new → registered w p ∨ (length (heap w) ≤ p)%nat.
Proof.
  intros Hid Hco new.
  destruct (runAll_once ops w Hid Hco) as (evs & Htr & Hnd & Hreg).
  subst new. rewrite Htr, drop_app_length. split; [done|].
  intros p Hp. apply Hreg. by apply reclaimed_elem.
Qed.

End ReclaimOnce.

(** * Further properties of the file task *)

(** ** The events of [syncProgress] *)

Lemma storeToOutput_sent c storeErr s wt :
  storeToOutput c storeErr s wt =
    sentIf s match storeErr with
             | Some err => terminalStoreFailure c err
             | None => terminalSuccess c
             end.
Proof. by destruct storeErr, s, wt. Qed.

Lemma sendFailProgress_sent c s wt :
  sendFailProgress c (failedCode c) (failedReason c) s wt = sentIf s (terminalFailure c).
Proof. by destruct s, wt. Qed.

(** X18. [syncProgress] returns exactly when the success channel or the fail
    channel has fired, or the context was done while the progress of an
    unfinished piece was being sent. A done context seen by the outer
    [select], a finished piece and a stopped progress channel do not end
    it: it goes round the loop again. *)
Theorem syncProgress_returns (schedule : list (selected * peerTaskConductor)) :
  (syncProgress schedule).2 = true ↔ Exists (λ x, ends x = true) schedule.
Proof.
  induction schedule as [|[sel c] rest IH]; simpl.
  - split; [done|]. by intros ?%Exists_nil.
  - rewrite Exists_cons. unfold ends at 1. simpl.
    destruct sel as [storeErr s wt|s wt| |piece i]; simpl.
    + split; [by left|done].
    + split; [by left|done].
    + rewrite IH. split; [by right|]. by intros [?|?].
    + destruct (finished piece) eqn:Hf; simpl.
      * rewrite IH. destruct i; (split; [by right|]); by intros [?|?].
      * destruct i; simpl.
        -- rewrite IH. split; [by right|]. by intros [?|?].
        -- destruct (syncProgress rest) as [sent returned]. simpl in *.
           rewrite IH. split; [by right|]. by intros [?|?].
        -- split; [by left|done].
Qed.

(** X19. What a client reads from the progress channel: progresses of the
    download, each one sent for an unfinished piece with the state
    "downloading" and [PeerTaskDone] unset, and after them at most one
    terminal event, with [PeerTaskDone] and the callback set; once the
    terminal event is sent the function has returned. *)
Theorem syncProgress_events (schedule : list (selected * peerTaskConductor)) :
  ∃ progress terminal,
    (syncProgress schedule).1 = progress ++ terminal ∧
    Forall (λ pg, ∃ x, x ∈ schedule ∧ reports x = true ∧ pg = downloading x.2) progress ∧
    (length progress ≤ length (filter (λ x, reports x = true) schedule))%nat ∧
    (length terminal ≤ 1)%nat ∧
    Forall (λ pg, PeerTaskDone pg = true ∧ DoneCallback pg = true ∧
                  (syncProgress schedule).2 = true) terminal.
Proof.
  induction schedule as [|[sel c] rest IH].
  - exists [], []. simpl. split_and!; [done|constructor|lia|lia|constructor].
  - destruct IH as (progress & terminal & Heq & Hprog & Hlen & Hterm & Hdone).
    assert (Forall (λ pg, ∃ x, x ∈ (sel, c) :: rest ∧ reports x = true ∧ pg = downloading x.2)
              progress) as Hprog'.
    { eapply Forall_impl; [exact Hprog|]. intros pg (x & Hx & Hr & ->).
      exists x. split; [by right|done]. }
    assert (∀ s pg, PeerTaskDone pg = true → DoneCallback pg = true →
              ∃ progress terminal,
                sentIf s pg = progress ++ terminal ∧
                Forall (λ pg, ∃ x, x ∈ (sel, c) :: rest ∧ reports x = true ∧ pg = downloading x.2)
                  progress ∧
                (length progress ≤ length (filter (λ x, reports x = true) ((sel, c) :: rest)))%nat ∧
                (length terminal ≤ 1)%nat ∧
                Forall (λ pg, PeerTaskDone pg = true ∧ DoneCallback pg = true ∧ true = true)
                  terminal) as Hend.
    { intros s pg H1 H2. exists [], (sentIf s pg). simpl.
      split_and!; [done|constructor|lia|by destruct s; simpl; lia|].
      destruct s; simpl; repeat constructor; done. }
    assert (∃ progress terminal,
              (syncProgress rest).1 = progress ++ terminal ∧
              Forall (λ pg, ∃ x, x ∈ (sel, c) :: rest ∧ reports x = true ∧ pg = downloading x.2)
                progress ∧
              (length progress ≤ length (filter (λ x, reports x = true) ((sel, c) :: rest)))%nat ∧
              (length terminal ≤ 1)%nat ∧
              Forall (λ pg, PeerTaskDone pg = true ∧ DoneCallback pg = true ∧
                            (syncProgress rest).2 = true) terminal) as Hskip.
    { exists progress, terminal. split_and!; try done.
      rewrite filter_cons. destruct (decide _); simpl; lia. }
    destruct sel as [storeErr s wt|s wt| |piece i]; cbn [syncProgress].
    + rewrite storeToOutput_sent. simpl. apply Hend; by destruct storeErr.
    + rewrite sendFailProgress_sent. simpl. by apply Hend.
    + exact Hskip.
    + destruct (finished piece) eqn:Hf; [exact Hskip|].
      destruct i.
      * exact Hskip.
      * destruct (syncProgress rest) as [sent returned] eqn:Hrest. simpl in *.
        exists (downloading c :: progress), terminal. split_and!; try done.
        -- by rewrite Heq.
        -- constructor; [|done]. exists (SelPiece piece InnerSent, c).
           split; [by left|]. unfold reports. simpl. by rewrite Hf.
        -- rewrite filter_cons, decide_True; [simpl; lia|].
           unfold reports. simpl. by rewrite Hf.
      * exists [], []. simpl. split_and!; [done|constructor|lia|lia|constructor].
Qed.

(** ** [storeToOutput] and the storage manager *)

Section StoreToOutputProperties.
Context {FS : Type} `{!Env FS} `{!StoreImpl FS}.

(** X20. When the success channel fires, the file task asks the storage
    manager to store the task under the conductor's task and peer, at
    the request's output path. The terminal event reports success
    exactly when [Store] returned no error; otherwise it is a failure
    with the code [Code_ClientError] and the message of the error. If no
    store is registered under the conductor's identifiers the message is
    "task not found" and the manager has registered nothing. *)
Theorem storeToOutput_reports_store (now : Z) (c : peerTaskConductor) (output : string)
    (s : sendChoice) (wt : waitChoice) (w : World FS) :
  let key := {| meta_PeerID := conductor_PeerID c; meta_TaskID := conductor_TaskID c |} in
  let stored := Store now (storeRequest c output) w in
  let res := storeToOutputOn now c output s wt w in
  res.2 = stored.2 ∧
  res.1 = sentIf s match stored.1 with
                   | Some err => terminalStoreFailure c err
                   | None => terminalSuccess c
                   end ∧
  (∀ pg, pg ∈ res.1 → PeerTaskDone pg = true ∧ (Success (State pg) = true ↔ stored.1 = None)) ∧
  (tasks_Load key (tasks (mgr w)) = None →
     res = (sentIf s (terminalStoreFailure c ErrTaskNotFound), Keep now w) ∧
     Msg (State (terminalStoreFailure c ErrTaskNotFound)) = "task not found").
Proof.
  intros key stored res. subst res stored. unfold storeToOutputOn.
  destruct (Store now (storeRequest c output) w) as [err w'] eqn:Hst. simpl.
  rewrite storeToOutput_sent. split_and!; try done.
  - intros pg Hpg. destruct s; simpl in Hpg; [|by apply elem_of_nil in Hpg].
    apply list_elem_of_singleton in Hpg as ->. by destruct err.
  - intros Hnone. unfold Store in Hst.
    change (LoadTask now _ w) with (LoadTask now key w) in Hst.
    rewrite (LoadTask_absent now key w Hnone) in Hst. by injection Hst as <- <-.
Qed.

End StoreToOutputProperties.

(** ** A request without [UrlMeta] *)

Section FileTaskNil.

Context {peerTaskManager context span conductor channel : Type}.
Context (enablePrefetch : peerTaskManager → bool).
Context (getPeerTaskConductor :
  context → string → PeerTaskRequest → Q → peerTaskManager → result conductor * peerTaskManager).
Context (idgen_TaskID : string → option UrlMeta → string).
Context (tracer_Start : context → context * span).
Context (Subscribe : conductor → channel).

(** X21. [newFileTask] reads [request.UrlMeta.Range] without a test for nil.
    It panics exactly when the conductor was obtained, the prefetch flag
    is enabled and the request has no [UrlMeta]; with the flag disabled
    the field is not read and a request without [UrlMeta] is served.
    When it panics the conductor has been obtained already, and neither
    a prefetch nor a file task was made. *)
Theorem newFileTask_nil_UrlMeta (ctx : context) (request : FileTaskRequest) (limit : Q)
    (ptm : peerTaskManager) :
  let pr := ftr_PeerTaskRequest request in
  let got := getPeerTaskConductor ctx (idgen_TaskID (Url pr) (ptr_UrlMeta pr)) pr limit ptm in
  let res := newFileTask enablePrefetch getPeerTaskConductor idgen_TaskID tracer_Start Subscribe
               ctx request limit ptm in
  (res.1.1 = Panicked ↔
     (∃ ptc, got.1 = Ok ptc) ∧ enablePrefetch got.2 = true ∧ ptr_UrlMeta pr = None) ∧
  (res.1.1 = Panicked → res.1.2 = got.2 ∧ res.2 = [EffFileTaskCount]) ∧
  (ptr_UrlMeta pr = None → enablePrefetch got.2 = false →
     ∀ ptc, got.1 = Ok ptc →
       res.1.1 = Returned (Ok (buildFileTask tracer_Start Subscribe ctx request ptc)) ∧
       res.2 = [EffFileTaskCount; EffTracerStart; EffSubscribe]).
Proof.
  intros pr got res. subst res got. unfold newFileTask. fold pr.
  destruct (getPeerTaskConductor ctx (idgen_TaskID (Url pr) (ptr_UrlMeta pr)) pr limit ptm)
    as [[ptc|e] ptm'] eqn:Hg; simpl.
  - destruct (enablePrefetch ptm') eqn:Hp; simpl.
    + destruct (ptr_UrlMeta pr) as [meta|] eqn:Hm; simpl.
      * case_decide; simpl; (split_and!; [split; [done|by intros (_ & _ & ?)]|done|done]).
      * split_and!; [split; [eauto|done]|done|done].
    + split_and!; [split; [done|by intros (_ & ? & _)]|done|].
      intros _ _ ptc' [= <-]. done.
  - split_and!; [split; [done|by intros ((? & ?) & _)]|done|done].
Qed.

End FileTaskNil.

(** * The properties on concrete states *)

Lemma coherent_wOne : coherent wOne.
Proof. apply (bool_decide_unpack _). vm_compute. reflexivity. Qed.

Lemma MemStore_keeps_identity : storesKeepIdentity (FS := MemFS.t).
Proof. repeat split. Qed.

Lemma CleanUp_leaves_nothing_witness :
  coherent wOne ∧
  (FindCompletedTask 9 "task0" (CleanUp wOne)).1 = None ∧
  ¬ indexed (CleanUp wOne) 0%nat.
Proof.
  split; [exact coherent_wOne|].
  destruct (CleanUp_leaves_nothing wOne coherent_wOne) as (_ & _ & Hni & Hf & _).
  split; [apply Hf|apply Hni].
Defined.

Lemma TryGC_marks_registered_stores_witness :
  wf wOne ∧
  (TryGC 1000 wOne).1 = (true, None) ∧
  sameButMarks (heap wOne) (heap (TryGC 1000 wOne).2).
Proof.
  split; [exact wf_wOne|].
  destruct (TryGC_marks_registered_stores 1000 wOne wf_wOne) as (Hr & Hs & _).
  split; [exact Hr|exact Hs].
Defined.

Lemma TryGC_deletes_in_second_pass_witness :
  wf wOne ∧
  tasks_Load key0 (tasks (mgr wOne)) = Some 0%nat ∧
  key0 ∈ markedReclaimTasks (mgr (TryGC 1000 wOne).2) ∧
  tasks_Load key0 (tasks (mgr (TryGC 1001 (TryGC 1000 wOne).2).2)) = None.
Proof.
  split; [exact wf_wOne|]. split; [reflexivity|].
  assert (key0 ∉ markedReclaimTasks (mgr wOne)) as Hnin
    by (vm_compute; apply not_elem_of_nil).
  destruct (TryGC_deletes_in_second_pass 1000 1001 wOne key0 0%nat _
              wf_wOne eq_refl eq_refl eq_refl Hnin) as (H1 & _ & _ & _ & _ & H2 & _).
  split; [exact H1|exact H2].
Defined.

Lemma manager_operations_keep_coherent_witness :
  storesKeepIdentity (FS := MemFS.t) ∧
  coherent (runAll (OpRegisterTask 5 req0 :: opsOne) w0).
Proof.
  split; [exact MemStore_keeps_identity|].
  destruct (manager_operations_keep_coherent (OpRegisterTask 5 req0 :: opsOne)
              (newManager SimpleLocalTaskStoreStrategy opt0 1) fs0
              MemStore_keeps_identity eq_refl eq_refl) as [Hco _].
  exact Hco.
Defined.

Lemma NewStorageManager_builds_witness :
  NewStorageManager 1 (OtherStoreStrategy "") (set_DataPath "data" opt0)
    (runOption <$> [OptGCInterval 10]) fs0 = (Ok wBuilt, disk wBuilt) ∧
  storeStrategy (mgr wBuilt) = SimpleLocalTaskStoreStrategy ∧
  gcInterval (mgr wBuilt) = 10.
Proof.
  assert (NewStorageManager 1 (OtherStoreStrategy "") (set_DataPath "data" opt0)
            (runOption <$> [OptGCInterval 10]) fs0 = (Ok wBuilt, disk wBuilt)) as Hnew
    by (vm_compute; reflexivity).
  split; [exact Hnew|].
  destruct (NewStorageManager_builds _ _ _ _ _ _ _ Hnew) as (_ & _ & _ & Hs & _ & Hg & _).
  split; [by apply Hs|exact Hg].
Defined.


Lemma Reclaim_called_once_witness :
  coherent wOne ∧
  NoDup (reclaimed (drop (length (trace wOne)) (trace (runAll opsOne wOne)))).
Proof.
  split; [exact coherent_wOne|].
  destruct (Reclaim_called_once opsOne wOne MemStore_keeps_identity coherent_wOne) as [Hnd _].
  exact Hnd.
Defined.

Lemma RegisterTask_keeps_reuse_witness :
  wf wOne ∧
  (FindCompletedTask 9 "task0" (RegisterTask 8 (reqOf "task0" "peer1" 10) wOne).2).1 =
  (FindCompletedTask 9 "task0" wOne).1.
Proof.
  split; [exact wf_wOne|].
  apply (RegisterTask_keeps_reuse 8 9 (reqOf "task0" "peer1" 10) "task0" wOne wf_wOne).
Defined.

Lemma driver_operations_frame_witness :
  driverOp (OpValidateDigest 7 key0) = true ∧
  tasks (mgr (run (OpValidateDigest 7 key0) wOne)) = tasks (mgr wOne) ∧
  trace (run (OpValidateDigest 7 key0) wOne) = trace wOne.
Proof.
  split; [reflexivity|].
  destruct (driver_operations_frame (OpValidateDigest 7 key0) wOne eq_refl)
    as (Ht & _ & _ & _ & Htr & _).
  split; [exact Ht|exact Htr].
Defined.

Lemma NewStorageManager_fresh_witness :
  absDataPath opt0 fs0 = Ok opt0 ∧
  os_ReadDir "/data" fs0 = Ok [] ∧
  ∃ w, NewStorageManager 1 SimpleLocalTaskStoreStrategy opt0 [] fs0 = (Ok w, fs0) ∧
       tasks (mgr w) = [] ∧ coherent w.
Proof.
  assert (absDataPath opt0 fs0 = Ok opt0) as Habs by reflexivity.
  assert (statOrCreate (DataPath opt0) fs0 =
            (Ok {| fi_symlink := false; fi_dir := true; fi_Dev := 1 |}, fs0, [CStat "/data"]))
    as Hstat by (vm_compute; reflexivity).
  assert (os_ReadDir "/data" fs0 = Ok []) as Hrd by (vm_compute; reflexivity).
  split; [exact Habs|]. split; [exact Hrd|].
  destruct (NewStorageManager_fresh 1 SimpleLocalTaskStoreStrategy opt0 opt0 fs0 fs0
              _ _ Habs Hstat eq_refl Hrd)
    as (w & Hnew & Ht & _ & _ & _ & _ & _ & _ & _ & Hco).
  exists w. split; [exact Hnew|]. split; [exact Ht|exact Hco].
Defined.

Lemma reclaim_mark_is_permanent_witness :
  wf wMarked ∧
  markedAt (heap wMarked) 0%nat ∧
  reusable (heap (runAll [OpFindCompletedTask 1001 "task0"; OpRegisterTask 1002 req0] wMarked))
           0%nat = false.
Proof.
  split; [exact wf_wMarked|].
  assert (markedAt (heap wMarked) 0%nat) as Hm by (vm_compute; reflexivity).
  split; [exact Hm|].
  destruct (reclaim_mark_is_permanent
              [OpFindCompletedTask 1001 "task0"; OpRegisterTask 1002 req0] wMarked 0%nat
              wf_wMarked ltac:(repeat constructor) Hm) as [_ Hr].
  exact Hr.
Defined.

